(** * Document indexing service: wire codec, store, scan engine, cache, dispatcher

  A shallow embedding of the C sources (src/common, src/server) and the
  properties of the specification checked against it.

  Conventions.
  - A byte ([uint8_t], [char]) is an [ascii]; a buffer is a [list ascii].
  - [size_t] offsets and lengths are [nat]; C [int]s, keys and process
    identifiers are [Z], with the 32-bit wrap-around written out.
  - A C string is the run of bytes before the first NUL of a buffer.
  - System calls are modelled on their success path (the file system,
    [fork], [pipe] and [malloc] do not fail); logging is dropped. *)

From Stdlib Require Import ZArith Lia Ascii String DecimalString DecimalPos.
From stdpp Require Import base tactics option list numbers gmap strings sorting.

Local Open Scope nat_scope.

(* ===================================================================== *)
(** ** status.h *)
(* ===================================================================== *)

Inductive status : Set :=
| OS_OK        (*  0 *)
| OS_ERROR     (* -1 *)
| OS_AGAIN     (* -2 *)
| OS_SHUTDOWN. (* -3 *)

Global Instance status_eq_dec : EqDecision status.
Proof. solve_decision. Defined.

Definition status_code (s : status) : Z :=
match s with
| OS_OK => 0 | OS_ERROR => -1 | OS_AGAIN => -2 | OS_SHUTDOWN => -3
end.

(* ===================================================================== *)
(** ** Bytes, C strings, little-endian scalars *)
(* ===================================================================== *)

Module Bytes.

Definition NUL : ascii := zero.

(** String literals of the sources, as byte lists. *)
Definition B (s : string) : list ascii := list_ascii_of_string s.

(** [strlen]: number of bytes before the first NUL.  A buffer that holds
    no NUL is read to its end (the callers always terminate theirs). *)
Fixpoint strlen (s : list ascii) : nat :=
  match s with
  | [] => 0
  | c :: s' => if decide (c = NUL) then 0 else S (strlen s')
  end.

(** The C string stored in a buffer. *)
Definition c_str (s : list ascii) : list ascii := take (strlen s) s.

(** A text without NUL bytes. *)
Definition no_nul (l : list ascii) : Prop := Forall (λ c, c ≠ NUL) l.

(** [memcpy(dst + off, src, length src)] on a buffer. *)
Definition memcpy (dst : list ascii) (off : nat) (src : list ascii) : list ascii :=
  take off dst ++ src ++ drop (off + length src) dst.

(** The slice [mem[off .. off+len)]. *)
Definition slice (mem : list ascii) (off len : nat) : list ascii :=
  take len (drop off mem).

Definition byte_at (mem : list ascii) (i : nat) : ascii :=
  default NUL (mem !! i).

(** [uint16_t], little-endian. *)
Definition u16_le (n : nat) : list ascii :=
  [ascii_of_nat (n mod 256); ascii_of_nat ((n / 256) mod 256)].

Definition le_u16 (lo hi : ascii) : nat :=
  nat_of_ascii lo + 256 * nat_of_ascii hi.

(** [uint32_t], little-endian. *)
Definition u32_le (x : Z) : list ascii :=
  [ascii_of_N (Z.to_N (x mod 256));
   ascii_of_N (Z.to_N ((x / 256) mod 256));
   ascii_of_N (Z.to_N ((x / 65536) mod 256));
   ascii_of_N (Z.to_N ((x / 16777216) mod 256))].

Definition le_u32 (bs : list ascii) : Z :=
  Z.of_N (N_of_ascii (byte_at bs 0))
  + 256 * Z.of_N (N_of_ascii (byte_at bs 1))
  + 65536 * Z.of_N (N_of_ascii (byte_at bs 2))
  + 16777216 * Z.of_N (N_of_ascii (byte_at bs 3)).

(** Casts between the 32-bit integer types. *)
Definition to_int32 (x : Z) : Z := (x + 2147483648) mod 4294967296 - 2147483648.
Definition to_uint32 (x : Z) : Z := x mod 4294967296.

(** [printf("%d")] and [printf("%u")]. *)
Definition fmt_d (x : Z) : list ascii :=
  list_ascii_of_string (NilZero.string_of_int (Z.to_int x)).

End Bytes.
Import Bytes.

(* ===================================================================== *)
(** ** protocol.h / protocol.c: frames, builder, cursor *)
(* ===================================================================== *)

Module Protocol.

Definition UINT16_MAX : nat := Z.to_nat 65535.
(** Modulus of the cast to [uint16_t]. *)
Definition U16_MOD : nat := Z.to_nat 65536.
Definition REQ_MAX : nat := Z.to_nat 65535.
Definition RSP_MAX : nat := Z.to_nat 65535.

(** [sizeof(tlv_t)], [sizeof(req_hdr_t)], [sizeof(rsp_hdr_t)] (packed). *)
Definition TLV_HDR_SZ : nat := 3.
Definition REQ_HDR_SZ : nat := 7.
Definition RSP_HDR_SZ : nat := 4.

(** [arg_type_t] as it appears in a TLV's type byte. *)
Definition ARG_U32 : ascii := zero.
Definition ARG_STR : ascii := one.

Record req_hdr_t := {
  req_len : nat;      (* uint16_t: header + TLVs *)
  req_opcode : ascii; (* uint8_t *)
  req_pid : Z         (* pid_t *)
}.

Record rsp_hdr_t := {
  rsp_len : nat;      (* uint16_t: header + TLVs *)
  rsp_opcode : ascii; (* uint8_t: echo of the request opcode *)
  rsp_status : ascii  (* uint8_t *)
}.

Record request_t := { req_hdr : req_hdr_t; req_payload : list ascii }.
Record response_t := { rsp_hdr : rsp_hdr_t; rsp_payload : list ascii }.

(** The builder writes through [buf] into the payload array of the frame
    it was initialised on: [buf] is that array. *)
Record proto_builder_t := {
  buf : list ascii;
  cap : nat;
  used : nat
}.

Definition check_cap (total cap : nat) : status :=
  if decide (cap < total) then OS_ERROR else OS_OK.

Definition proto_req_init (op : ascii) (pid : Z) : request_t * proto_builder_t :=
  let payload := replicate (REQ_MAX - REQ_HDR_SZ) NUL in
  ({| req_hdr := {| req_len := 0; req_opcode := op; req_pid := pid |};
      req_payload := payload |},
   {| buf := payload; used := 0; cap := REQ_MAX - REQ_HDR_SZ |}).

Definition proto_rsp_init (op st : ascii) : response_t * proto_builder_t :=
  let payload := replicate (RSP_MAX - RSP_HDR_SZ) NUL in
  ({| rsp_hdr := {| rsp_len := 0; rsp_opcode := op; rsp_status := st |};
      rsp_payload := payload |},
   {| buf := payload; used := 0; cap := RSP_MAX - RSP_HDR_SZ |}).

(** The three bytes of a packed [tlv_t]. *)
Definition tlv_hdr (type : ascii) (len : nat) : list ascii :=
  type :: u16_le (len mod U16_MOD).

(** [proto_add_tlv(b, type, val, len)], with [len = length val]. *)
Definition proto_add_tlv (b : proto_builder_t) (type : ascii) (val : list ascii)
  : status * proto_builder_t :=
  let len := length val in
  if decide (UINT16_MAX < len) then (OS_ERROR, b)
  else
    let need := TLV_HDR_SZ + len in
    if decide (cap b < used b + need) then (OS_ERROR, b)
    else
      let buf1 := memcpy (buf b) (used b) (tlv_hdr type len) in
      let buf2 := memcpy buf1 (used b + TLV_HDR_SZ) val in
      (OS_OK, {| buf := buf2; cap := cap b; used := used b + need |}).

Definition proto_req_finish (req : request_t) (b : proto_builder_t)
  : status * request_t :=
  let total := REQ_HDR_SZ + used b in
  match check_cap total REQ_MAX with
  | OS_ERROR => (OS_ERROR, {| req_hdr := req_hdr req; req_payload := buf b |})
  | _ =>
      (OS_OK,
       {| req_hdr := {| req_len := total mod U16_MOD;
                        req_opcode := req_opcode (req_hdr req);
                        req_pid := req_pid (req_hdr req) |};
          req_payload := buf b |})
  end.

Definition proto_rsp_finish (rsp : response_t) (b : proto_builder_t)
  : status * response_t :=
  let total := RSP_HDR_SZ + used b in
  match check_cap total RSP_MAX with
  | OS_ERROR => (OS_ERROR, {| rsp_hdr := rsp_hdr rsp; rsp_payload := buf b |})
  | _ =>
      (OS_OK,
       {| rsp_hdr := {| rsp_len := total mod U16_MOD;
                        rsp_opcode := rsp_opcode (rsp_hdr rsp);
                        rsp_status := rsp_status (rsp_hdr rsp) |};
          rsp_payload := buf b |})
  end.

(** *** Cursor *)

(** [cur] and [end] are offsets into the buffer [mem] the cursor was
    initialised on. *)
Record proto_cursor_t := {
  mem : list ascii;
  cur : nat;
  c_end : nat
}.

Definition proto_cursor_init (payload : list ascii) (len : nat) : proto_cursor_t :=
  {| mem := payload; cur := 0; c_end := len |}.

(** One step of the cursor: [More] is [OS_AGAIN] with the outputs set,
    [End] is [OS_OK], [Corrupt] is [OS_ERROR]. *)
Inductive cursor_step :=
| More (type : ascii) (val : list ascii) (vlen : nat) (c' : proto_cursor_t)
| End
| Corrupt.

Definition proto_cursor_next (c : proto_cursor_t) : cursor_step :=
  if decide (c_end c < cur c + TLV_HDR_SZ) then End
  else
    let t_type := byte_at (mem c) (cur c) in
    let t_len := le_u16 (byte_at (mem c) (cur c + 1)) (byte_at (mem c) (cur c + 2)) in
    let need := TLV_HDR_SZ + t_len in
    if decide (c_end c < cur c + need) then Corrupt
    else
      More t_type (slice (mem c) (cur c + TLV_HDR_SZ) t_len) t_len
           {| mem := mem c; cur := cur c + need; c_end := c_end c |}.

(** Walking a cursor to its end, as every consumer's loop does.  Each
    [More] advances by at least the TLV header, so the remaining byte
    count bounds the number of steps. *)
Fixpoint cursor_walk (fuel : nat) (c : proto_cursor_t)
  : option (list (ascii * list ascii) * status) :=
  match fuel with
  | 0 => None
  | S fuel' =>
      match proto_cursor_next c with
      | End => Some ([], OS_OK)
      | Corrupt => Some ([], OS_ERROR)
      | More t v _ c' =>
          match cursor_walk fuel' c' with
          | Some (tlvs, st) => Some ((t, v) :: tlvs, st)
          | None => None
          end
      end
  end.

Definition cursor_all (c : proto_cursor_t) : option (list (ascii * list ascii) * status) :=
  cursor_walk (S (c_end c - cur c)) c.

(** Appending a list of TLVs, stopping at the first failing call. *)
Fixpoint add_tlvs (b : proto_builder_t) (tlvs : list (ascii * list ascii))
  : status * proto_builder_t :=
  match tlvs with
  | [] => (OS_OK, b)
  | (t, v) :: rest =>
      match proto_add_tlv b t v with
      | (OS_OK, b') => add_tlvs b' rest
      | (st, b') => (st, b')
      end
  end.

(** Bytes a TLV occupies on the wire, and of a sequence of them. *)
Definition tlv_size (tv : ascii * list ascii) : nat := TLV_HDR_SZ + length tv.2.
Definition tlv_wire (tv : ascii * list ascii) : list ascii :=
  tlv_hdr tv.1 (length tv.2) ++ tv.2.
Definition tlvs_size (tlvs : list (ascii * list ascii)) : nat :=
  sum_list (tlv_size <$> tlvs).
Definition tlvs_wire (tlvs : list (ascii * list ascii)) : list ascii :=
  mjoin (tlv_wire <$> tlvs).

(** The builder's write window: its buffer has [cap] bytes and [used]
    stays inside it. *)
Definition builder_wf (b : proto_builder_t) : Prop :=
  length (buf b) = cap b ∧ used b ≤ cap b.

(** [proto_build_simple_rsp]: the results of [proto_add_tlv] and
    [proto_rsp_finish] are not inspected. *)
Definition proto_build_simple_rsp (op : ascii) (msg : option (list ascii)) : response_t :=
  let '(rsp, b) := proto_rsp_init op zero in
  let b1 := match msg with
            | Some m => (proto_add_tlv b ARG_STR (c_str m)).2
            | None => b
            end in
  (proto_rsp_finish rsp b1).2.

(** [proto_arg_first_str(req, dst, cap)]: on success, the contents of
    [dst], i.e. the [l] copied bytes followed by a NUL. *)
Definition proto_arg_first_str (req : request_t) (cap : nat)
  : status * list ascii :=
  let c := proto_cursor_init (req_payload req)
                             (req_len (req_hdr req) - REQ_HDR_SZ) in
  match proto_cursor_next c with
  | More t v l _ =>
      if decide (t ≠ ARG_STR) then (OS_ERROR, [])
      else if decide (l = 0) then (OS_ERROR, [])
      else if decide (cap ≤ l) then (OS_ERROR, [])
      else (OS_OK, v ++ [NUL])
  | _ => (OS_ERROR, [])
  end.

End Protocol.
Import Protocol.

(* ===================================================================== *)
(** ** document.h / storage.c: the fixed-record document store *)
(* ===================================================================== *)

Module Storage.

Definition MAX_TITLE_LEN : nat := 200.
Definition MAX_AUTHORS_LEN : nat := 200.
Definition MAX_PATH_LEN : nat := 64.

(** The character arrays hold their defined bytes: the copied text and its
    terminating NUL (the bytes behind it are never read). *)
Record document_t := {
  key : Z;                 (* int *)
  title : list ascii;      (* char[MAX_TITLE_LEN] *)
  authors : list ascii;    (* char[MAX_AUTHORS_LEN] *)
  path : list ascii;       (* char[MAX_PATH_LEN] *)
  year : Z                 (* uint32_t *)
}.

(** [sizeof(document_t)] *)
Definition DOC_SZ : Z := 472.

(** The storage file [tmp/index.bin]: a sequence of whole records, the
    record at index [i] occupying bytes [i * DOC_SZ .. (i+1) * DOC_SZ). *)
Abbreviation store := (list document_t).

(** [lseek(stg_fd, 0, SEEK_END)] *)
Definition end_off (s : store) : Z := Z.of_nat (length s) * DOC_SZ.

Definition get_offset (k : Z) : Z := k * DOC_SZ.

Definition with_key (doc : document_t) (k : Z) : document_t :=
  {| key := k; title := title doc; authors := authors doc;
     path := path doc; year := year doc |}.

(** Returns the assigned key. *)
Definition stg_add_doc (s : store) (doc : document_t) : Z * store :=
  let k := to_int32 (end_off s / DOC_SZ) in
  let tmp := with_key doc k in
  (k, s ++ [tmp]).

(** [None] is [OS_ERROR]. *)
Definition stg_get_doc (s : store) (k : Z) : option document_t :=
  if decide (k < 0)%Z then None
  else if decide (end_off s < get_offset k + DOC_SZ)%Z then None
  else
    match s !! Z.to_nat (get_offset k / DOC_SZ) with
    | Some out => if decide (key out ≠ k) then None else Some out
    | None => None
    end.

Definition tomb : document_t :=
  {| key := -1;
     title := replicate MAX_TITLE_LEN NUL;
     authors := replicate MAX_AUTHORS_LEN NUL;
     path := replicate MAX_PATH_LEN NUL;
     year := 0 |}.

Definition stg_del_doc (s : store) (k : Z) : status * store :=
  if decide (k < 0)%Z then (OS_ERROR, s)
  else if decide (end_off s < get_offset k + DOC_SZ)%Z then (OS_ERROR, s)
  else
    match s !! Z.to_nat (get_offset k / DOC_SZ) with
    | Some cur =>
        if decide (key cur ≠ k) then (OS_ERROR, s)
        else (OS_OK, <[Z.to_nat (get_offset k / DOC_SZ) := tomb]> s)
    | None => (OS_ERROR, s)
    end.

Definition stg_total (s : store) : Z := to_int32 (end_off s / DOC_SZ).

(** Successive calls of [stg_add_doc], collecting the returned keys. *)
Fixpoint stg_add_docs (s : store) (docs : list document_t) : list Z * store :=
  match docs with
  | [] => ([], s)
  | d :: docs' =>
      let '(k, s1) := stg_add_doc s d in
      let '(ks, s2) := stg_add_docs s1 docs' in
      (k :: ks, s2)
  end.

End Storage.
Import Storage.

(* ===================================================================== *)
(** ** docroot.c / docutil.c: document paths and the keyword scanner *)
(* ===================================================================== *)

Module DocUtil.

(** Buffer size for file reading operations *)
Definition BUF_SZ : nat := Z.to_nat 8192.

(** [PATH_MAX] of <limits.h>. *)
Definition PATH_MAX : nat := Z.to_nat 4096.

(** What the server process sees of its surroundings: the document root
    buffer [g_doc_root], the contents of the files under it by full path
    ([None]: [open] fails), [get_nprocs()], and the order in which the
    kernel lets the workers of a parallel scan take their steps (the
    number of the worker that runs next, step after step). *)
Record env := {
  g_doc_root : list ascii;
  files : list ascii → option (list ascii);
  nprocs : Z;
  sched : list nat
}.

(** [NULL] when no root is set. *)
Definition docroot_get (e : env) : option (list ascii) :=
  if decide (byte_at (g_doc_root e) 0 = NUL) then None else Some (c_str (g_doc_root e)).

(** On success, the path written to [dst]. *)
Definition doc_build_path (e : env) (s : store) (k : Z) (dst_cap : nat)
  : option (list ascii) :=
  if decide (dst_cap = 0) then None
  else
    match docroot_get e with
    | None => None
    | Some root =>
        match stg_get_doc s k with
        | None => None
        | Some doc =>
            if decide (key doc = (-1)%Z) then None
            else
              let text := root ++ B "/" ++ c_str (path doc) in
              (* n = snprintf(dst, dst_cap, "%s/%s", root, doc.path) *)
              if decide (dst_cap ≤ length text) then None else Some text
        end
    end.

(** Locals of [doc_count_keyword] that live across loop iterations. *)
Record scan_state := {
  match_ : nat;          (* size_t match *)
  matched_line : bool;   (* int matched_line *)
  out : nat              (* size_t *out *)
}.

(** Body of the inner [for] loop on one byte [c]: [inl r] is the early
    [return] with [*out = r], [inr st] falls through to the next byte. *)
Definition scan_byte (kw : list ascii) (kw_len : nat) (stop_at_first : bool)
           (st : scan_state) (c : ascii) : nat + scan_state :=
  let after_match :=
    if decide (c = byte_at kw (match_ st)) then
      if decide (S (match_ st) = kw_len) then
        if stop_at_first then inl 1
        else inr {| match_ := 0; matched_line := true; out := out st |}
      else inr {| match_ := S (match_ st); matched_line := matched_line st;
                  out := out st |}
    else
      inr {| match_ := if decide (c = byte_at kw 0) then 1 else 0;
             matched_line := matched_line st; out := out st |} in
  match after_match with
  | inl r => inl r
  | inr st1 =>
      if decide (c = "010"%char) then
        inr {| match_ := match_ st1; matched_line := false;
               out := if matched_line st1 then S (out st1) else out st1 |}
      else inr st1
  end.

(** The inner [for] loop over the [n] bytes of one buffer. *)
Fixpoint scan_buf (kw : list ascii) (kw_len : nat) (stop_at_first : bool)
         (st : scan_state) (buf : list ascii) : nat + scan_state :=
  match buf with
  | [] => inr st
  | c :: buf' =>
      match scan_byte kw kw_len stop_at_first st c with
      | inl r => inl r
      | inr st' => scan_buf kw kw_len stop_at_first st' buf'
      end
  end.

(** The outer [while ((n = read(fd, buf, BUF_SZ)) > 0)] loop over the rest
    of the file; [read] hands out the next [BUF_SZ] bytes, fewer at the
    end, none at end of file.  [None]: out of fuel. *)
Fixpoint read_loop (fuel : nat) (kw : list ascii) (kw_len : nat) (stop_at_first : bool)
         (st : scan_state) (rest : list ascii) : option (nat + scan_state) :=
  match fuel with
  | 0 => None
  | S fuel' =>
      let buf := take BUF_SZ rest in
      if decide (length buf = 0) then Some (inr st)
      else
        match scan_buf kw kw_len stop_at_first st buf with
        | inl r => Some (inl r)
        | inr st' => read_loop fuel' kw kw_len stop_at_first st' (drop BUF_SZ rest)
        end
  end.

(** [doc_count_keyword(path, kw, stop_at_first, &out)]: status and [*out]. *)
Definition doc_count_keyword (e : env) (path kw : list ascii) (stop_at_first : bool)
  : status * nat :=
  match files e path with
  | None => (OS_ERROR, 0)
  | Some content =>
      let kw_len := strlen kw in
      if decide (kw_len = 0) then (OS_OK, 0)
      else
        let st0 := {| match_ := 0; matched_line := false; out := 0 |} in
        match read_loop (S (length content)) kw kw_len stop_at_first st0 content with
        | Some (inl r) => (OS_OK, r)
        | Some (inr st) =>
            (* last line, no newline *)
            (OS_OK, if decide (0 < match_ st) then
                      if matched_line st then S (out st) else out st
                    else out st)
        | None => (OS_ERROR, 0)
        end
  end.

(** 1 if found, 0 if not found, [OS_ERROR] on failure. *)
Definition doc_contains_keyword (e : env) (path kw : list ascii) : Z :=
  match doc_count_keyword e path kw true with
  | (OS_OK, dummy) => Z.of_nat dummy
  | (rc, _) => status_code rc
  end.

Definition doc_key_contains_keyword (e : env) (s : store) (k : Z) (kw : list ascii) : Z :=
  match doc_build_path e s k PATH_MAX with
  | None => status_code OS_ERROR
  | Some fullpath => doc_contains_keyword e fullpath kw
  end.

(** The state of the scanner between two bytes: the last [match] bytes
    read are the first [match] bytes of the keyword. *)
Definition scan_inv (kw seen : list ascii) (st : scan_state) : Prop :=
  match_ st < strlen kw ∧ ∃ pre, seen = pre ++ take (match_ st) kw.

(** What the scanner is meant to decide: [kw] occurs in [content] as a
    contiguous run of bytes. *)
Definition contains (kw content : list ascii) : Prop :=
  ∃ pre post, content = pre ++ kw ++ post.

End DocUtil.
Import DocUtil.

(* ===================================================================== *)
(** ** commands.h / commands.c: the command schema *)
(* ===================================================================== *)

Module Commands.

(** [opcode_t] *)
Definition OP_A : nat := 0.
Definition OP_C : nat := 1.
Definition OP_D : nat := 2.
Definition OP_L : nat := 3.
Definition OP_S : nat := 4.
Definition OP_F : nat := 5.
Definition OP_COUNT : nat := 6.

(** An opcode as the [uint8_t] of a frame header. *)
Definition op_byte (op : nat) : ascii := ascii_of_nat (op mod 256).

Record cmd_row_t := {
  flag : string;
  types : list ascii;   (* const arg_type_t *types *)
  argc_min : nat;
  argc_max : nat;
  opcode : nat;
  blocking : bool
}.

Definition CMD_ROW (flag : string) (min op : nat) (blocking : bool) (types : list ascii)
  : cmd_row_t :=
  {| flag := flag; types := types; argc_min := min; argc_max := length types;
     opcode := op; blocking := blocking |}.

Definition cmd_table : list cmd_row_t :=
  [ CMD_ROW "-a" 4 OP_A true [ARG_STR; ARG_STR; ARG_U32; ARG_STR];
    CMD_ROW "-c" 1 OP_C false [ARG_U32];
    CMD_ROW "-d" 1 OP_D true [ARG_U32];
    CMD_ROW "-l" 2 OP_L false [ARG_U32; ARG_STR];
    CMD_ROW "-s" 1 OP_S false [ARG_STR; ARG_U32];
    CMD_ROW "-f" 0 OP_F true [] ].

Definition cmd_by_opcode (op : nat) : option cmd_row_t :=
  if decide (OP_COUNT ≤ op) then None else cmd_table !! op.

End Commands.
Import Commands.

(* ===================================================================== *)
(** ** arg_codec.h / arg_codec.c: decoded arguments *)
(* ===================================================================== *)

Module ArgCodec.

(** [arg_val_t]: the type tag and the member of the union it selects.  The
    all-zero value a handler finds in an absent optional slot is
    [U32 0]. *)
Inductive arg_val_t :=
| U32 (u32 : Z)
| STR (str : list ascii).   (* v.str.ptr[0 .. v.str.len) *)

Global Instance arg_val_inhabited : Inhabited arg_val_t := populate (U32 0).

(** [argv[i].v.str] (pointer and length); empty on the zero value. *)
Definition v_str (a : arg_val_t) : list ascii :=
  match a with STR s => s | U32 _ => [] end.

(** [argv[i].v.u32] *)
Definition v_u32 (a : arg_val_t) : Z :=
  match a with U32 x => x | STR _ => 0 end.

Definition dec_u32 (wire : list ascii) (len : nat) : option arg_val_t :=
  if decide (len ≠ 4) then None else Some (U32 (le_u32 wire)).

Definition dec_str (wire : list ascii) (len : nat) : option arg_val_t :=
  Some (STR wire).

Definition arg_decoders (t : ascii) : option (list ascii → nat → option arg_val_t) :=
  if decide (t = ARG_U32) then Some dec_u32
  else if decide (t = ARG_STR) then Some dec_str
  else None.

End ArgCodec.
Import ArgCodec.

(* ===================================================================== *)
(** ** handlers/: the six request handlers *)
(* ===================================================================== *)

Module Handlers.

(** What a handler leaves behind. *)
Inductive outcome :=
| Returned (rc : status) (rsp : response_t) (* [*rsp] written, [rc] returned *)
| Failed                                   (* [OS_ERROR], [*rsp] not written *)
| Overrun.                                 (* a write past a stack buffer: undefined *)

(** [snprintf(buf, cap, ...)] of a text: the buffer afterwards. *)
Definition snprintf (cap : nat) (text : list ascii) : list ascii :=
  take (cap - 1) text ++ [NUL].

(** [char kw[256]] as [handle_s] and [handle_l] fill it from a string
    argument. *)
Definition copy_kw (term : list ascii) : list ascii :=
  let kw_len := length term in
  let kw_len := if decide (256 ≤ kw_len) then 256 - 1 else kw_len in
  take kw_len term ++ [NUL].

(** *** handle_a *)

Definition copy_field (arg : list ascii) (max_len : nat) : list ascii :=
  let len := if decide (length arg < max_len) then length arg else max_len - 1 in
  take len arg ++ [NUL].

Definition handle_a (e : env) (s : store) (argv : list arg_val_t) : outcome * store :=
  let doc := {| key := 0;
                title := copy_field (v_str (argv !!! 0)) MAX_TITLE_LEN;
                authors := copy_field (v_str (argv !!! 1)) MAX_AUTHORS_LEN;
                year := v_u32 (argv !!! 2);
                path := copy_field (v_str (argv !!! 3)) MAX_PATH_LEN |} in
  let '(k, s') := stg_add_doc s doc in
  if decide (k = status_code OS_ERROR) then (Failed, s')
  else
    let msg := snprintf 64 (B "Document " ++ fmt_d k ++ B " indexed") in
    (Returned OS_OK (proto_build_simple_rsp (op_byte OP_A) (Some msg)), s').

(** *** handle_c *)

Definition handle_c (e : env) (s : store) (argv : list arg_val_t) : outcome * store :=
  let k := to_int32 (v_u32 (argv !!! 0)) in
  match stg_get_doc s k with
  | None =>
      (Returned OS_OK (proto_build_simple_rsp (op_byte OP_C)
                         (Some (B "Document not found" ++ [NUL]))), s)
  | Some doc =>
      let '(rsp, b) := proto_rsp_init (op_byte OP_C) zero in
      let line1 := snprintf 256 (B "Title: " ++ c_str (title doc)) in
      let b := (proto_add_tlv b ARG_STR (c_str line1)).2 in
      let line2 := snprintf 256 (B "Authors: " ++ c_str (authors doc)) in
      let b := (proto_add_tlv b ARG_STR (c_str line2)).2 in
      let line3 := snprintf 256 (B "Year: " ++ fmt_d (year doc)) in
      let b := (proto_add_tlv b ARG_STR (c_str line3)).2 in
      let line4 := snprintf 256 (B "Path: " ++ c_str (path doc)) in
      let b := (proto_add_tlv b ARG_STR (c_str line4)).2 in
      (Returned OS_OK (proto_rsp_finish rsp b).2, s)
  end.

(** *** handle_d *)

Definition handle_d (e : env) (s : store) (argv : list arg_val_t) : outcome * store :=
  let k := to_int32 (v_u32 (argv !!! 0)) in
  let '(rc, s') := stg_del_doc s k in
  let msg :=
    if decide (rc = OS_OK)
    then snprintf 64 (B "Index entry " ++ fmt_d k ++ B " deleted")
    else snprintf 64 (B "Index entry " ++ fmt_d k ++ B " not found") in
  (Returned OS_OK (proto_build_simple_rsp (op_byte OP_D) (Some msg)), s').

(** *** handle_f *)

Definition handle_f (e : env) (s : store) (argv : list arg_val_t) : outcome * store :=
  (Returned OS_SHUTDOWN
     (proto_build_simple_rsp (op_byte OP_F) (Some (B "Server is shutting down" ++ [NUL]))),
   s).

(** *** handle_l *)

Definition handle_l (e : env) (s : store) (argv : list arg_val_t) : outcome * store :=
  let k := to_int32 (v_u32 (argv !!! 0)) in
  let kw := copy_kw (v_str (argv !!! 1)) in
  match stg_get_doc s k with
  | None =>
      (Returned OS_OK (proto_build_simple_rsp (op_byte OP_L)
                         (Some (B "Document not found" ++ [NUL]))), s)
  | Some doc =>
      match doc_build_path e s k PATH_MAX with
      | None =>
          (Returned OS_OK (proto_build_simple_rsp (op_byte OP_L)
                             (Some (B "Path not found" ++ [NUL]))), s)
      | Some fullpath =>
          match doc_count_keyword e fullpath kw false with
          | (OS_ERROR, _) => (Failed, s)
          | (_, count) =>
              let '(rsp, b) := proto_rsp_init (op_byte OP_L) zero in
              let count_u32 := to_uint32 (Z.of_nat count) in
              let b := (proto_add_tlv b ARG_U32 (u32_le count_u32)).2 in
              (Returned OS_OK (proto_rsp_finish rsp b).2, s)
          end
      end
  end.

(** *** handle_s *)

Definition BITSET_BYTE (i : Z) : Z := Z.shiftr i 3.
Definition BITSET_MASK (i : Z) : Z := Z.shiftl 1 (Z.land i 7).

Definition LIST_CAP : nat := RSP_MAX - TLV_HDR_SZ.

(** [bmp[BITSET_BYTE(k)] |= BITSET_MASK(k)]; the mask is below 256, so
    the store into the [uint8_t] does not truncate. *)
Definition bmp_set (bmp : list Z) (k : Z) : list Z :=
  let i := Z.to_nat (BITSET_BYTE k) in
  <[i := Z.lor (default 0%Z (bmp !! i)) (BITSET_MASK k)]> bmp.

(** [bmp[BITSET_BYTE(k)] & BITSET_MASK(k)] *)
Definition bmp_test (bmp : list Z) (k : Z) : bool :=
  negb (Z.eqb (Z.land (default 0%Z (bmp !! Z.to_nat (BITSET_BYTE k))) (BITSET_MASK k)) 0).

(** What the workers of [scan_parallel] share: the counter [*next_key],
    the offset of the open file description behind [stg_fd] (opened by
    [stg_total] before the workers are forked, so they inherit it), and the
    bitmap. *)
Record shared := {
  next_key : Z;      (* int, MAP_SHARED *)
  stg_off : Z;       (* off_t of the description behind stg_fd *)
  bits : list Z      (* uint8_t bmp[], MAP_SHARED *)
}.

(** A worker between two steps that another worker can get in between:
    the atomic draw of a key, the three system calls of [stg_get_doc] on
    the shared descriptor, and the load and the store of the [|=] on the
    bitmap. *)
Inductive worker :=
| W_draw                          (* k = __sync_fetch_and_add(next_key, 1) *)
| W_seek_end (k : Z)              (* lseek(stg_fd, 0, SEEK_END) *)
| W_seek_set (k : Z)              (* lseek(stg_fd, off, SEEK_SET) *)
| W_read (k : Z)                  (* read(stg_fd, out, sizeof *out) *)
| W_or_load (k : Z)               (* bmp[BITSET_BYTE(k)] | BITSET_MASK(k) *)
| W_or_store (k : Z) (byte : Z)   (* bmp[BITSET_BYTE(k)] = ... *)
| W_exit.                         (* _exit(0) *)

(** [doc_key_contains_keyword] behind the [read] of [stg_get_doc], which
    put [out] into [*out]: the key check of [stg_get_doc], the rest of
    [doc_build_path], and [doc_contains_keyword]. *)
Definition hit_after_read (e : env) (k : Z) (out : document_t) (kw : list ascii) : bool :=
  if decide (key out ≠ k) then false
  else
    match docroot_get e with
    | None => false
    | Some root =>
        if decide (key out = (-1)%Z) then false
        else
          let text := root ++ B "/" ++ c_str (path out) in
          if decide (PATH_MAX ≤ length text) then false
          else bool_decide (doc_contains_keyword e text kw = 1%Z)
    end.

(** One step of a worker. *)
Definition worker_step (e : env) (s : store) (kw : list ascii) (total : Z)
           (sh : shared) (w : worker) : shared * worker :=
  match w with
  | W_draw =>
      let k := next_key sh in
      let sh := {| next_key := to_int32 (k + 1); stg_off := stg_off sh; bits := bits sh |} in
      if decide (total ≤ k)%Z then (sh, W_exit)
      else
        (* doc_build_path, up to the first system call of stg_get_doc *)
        if decide (PATH_MAX = 0) then (sh, W_draw)
        else
          match docroot_get e with
          | None => (sh, W_draw)
          | Some _ => if decide (k < 0)%Z then (sh, W_draw) else (sh, W_seek_end k)
          end
  | W_seek_end k =>
      let sh := {| next_key := next_key sh; stg_off := end_off s; bits := bits sh |} in
      if decide (end_off s < get_offset k + DOC_SZ)%Z then (sh, W_draw)
      else (sh, W_seek_set k)
  | W_seek_set k =>
      ({| next_key := next_key sh; stg_off := get_offset k; bits := bits sh |}, W_read k)
  | W_read k =>
      (* the record at the offset the description has now *)
      match s !! Z.to_nat (stg_off sh / DOC_SZ) with
      | None => (sh, W_draw)       (* at the end of the file: a short read *)
      | Some out =>
          let sh := {| next_key := next_key sh; stg_off := (stg_off sh + DOC_SZ)%Z;
                       bits := bits sh |} in
          if hit_after_read e k out kw then (sh, W_or_load k) else (sh, W_draw)
      end
  | W_or_load k =>
      (sh, W_or_store k (Z.lor (default 0%Z (bits sh !! Z.to_nat (BITSET_BYTE k)))
                               (BITSET_MASK k)))
  | W_or_store k byte =>
      ({| next_key := next_key sh; stg_off := stg_off sh;
          bits := <[Z.to_nat (BITSET_BYTE k) := byte]> (bits sh) |}, W_draw)
  | W_exit => (sh, W_exit)
  end.

(** The kernel runs worker number [i] for one step (nothing happens when
    there is no such worker, or it has exited). *)
Definition sched_step (e : env) (s : store) (kw : list ascii) (total : Z)
           (st : shared * list worker) (i : nat) : shared * list worker :=
  match st.2 !! i with
  | Some w =>
      let '(sh, w') := worker_step e s kw total st.1 w in (sh, <[i := w']> st.2)
  | None => st
  end.

(** The steps a worker that runs alone takes at most until it exits:
    what is left of the key it is at, six steps for every key still to be
    drawn, and the draw that ends its loop. *)
Definition steps_left (total : Z) (sh : shared) (w : worker) : nat :=
  match w with
  | W_exit => 0
  | W_draw => 1 + 6 * Z.to_nat (total - next_key sh)
  | W_or_store _ _ => 2 + 6 * Z.to_nat (total - next_key sh)
  | W_or_load _ => 3 + 6 * Z.to_nat (total - next_key sh)
  | W_read _ => 4 + 6 * Z.to_nat (total - next_key sh)
  | W_seek_set _ => 5 + 6 * Z.to_nat (total - next_key sh)
  | W_seek_end _ => 6 + 6 * Z.to_nat (total - next_key sh)
  end.

(** A worker runs on its own until it exits. *)
Definition run_alone (e : env) (s : store) (kw : list ascii) (total : Z)
           (sh : shared) (w : worker) : shared * worker :=
  Nat.iter (steps_left total sh w) (λ st, worker_step e s kw total st.1 st.2) (sh, w).

(** The clamps of [scan_parallel] on the number of workers. *)
Definition effective_workers (e : env) (total workers : Z) : Z :=
  let workers := if decide (workers = 0%Z) then 1%Z else workers in
  let cap := to_uint32 (nprocs e * 10) in
  let workers := if decide (cap < workers)%Z then cap else workers in
  if decide (to_uint32 total < workers)%Z then to_uint32 total else workers.

(** [scan_parallel]: the workers take the steps the schedule gives them,
    interleaved; [waitpid] then waits until each of them has run to its
    exit.  The parent reads the bitmap they leave. *)
Definition scan_parallel (e : env) (s : store) (kw : list ascii) (total : Z)
           (workers : Z) (bmp : list Z) : status * list Z :=
  let workers := effective_workers e total workers in
  if decide (workers = 0%Z) then (OS_OK, bmp)
  else
    let start := ({| next_key := 0; stg_off := end_off s; bits := bmp |},
                  replicate (Z.to_nat workers) W_draw) in
    let st := foldl (sched_step e s kw total) start (sched e) in
    (OS_OK, bits (foldl (λ sh w, (run_alone e s kw total sh w).1) st.1 st.2)).

(** What a worker that is alone does with a key [k] it drew: the bit of
    [k] is set when the scan of the document hits. *)
Definition scan_key (e : env) (s : store) (kw : list ascii) (bmp : list Z) (k : Z)
  : list Z :=
  if decide (doc_key_contains_keyword e s k kw = 1%Z) then bmp_set bmp k else bmp.

(** The loop that prints the set bits into [list_buf]: the text so far
    and the flag [first]. *)
Definition list_step (bmp : list Z) (acc : list ascii * bool) (k : Z)
  : list ascii * bool :=
  if bmp_test bmp k
  then (acc.1 ++ (if acc.2 then [] else B ", ") ++ fmt_d k, false)
  else acc.

Definition build_list (bmp : list Z) (total : Z) : list ascii :=
  (foldl (list_step bmp) (B "[", true) (seqZ 0 total)).1 ++ B "]".

Definition handle_s (e : env) (s : store) (argv : list arg_val_t) : outcome * store :=
  let kw := copy_kw (v_str (argv !!! 0)) in
  let workers :=
    match argv !!! 1 with
    | U32 x => if decide (x ≠ 0%Z) then x else 1%Z
    | STR _ => 1%Z
    end in
  let total := stg_total s in
  if decide (total ≤ 0)%Z then (Failed, s)
  else
    let bmp_bytes := Z.to_nat ((total + 7) / 8) in
    let bmp := replicate bmp_bytes 0%Z in
    match scan_parallel e s kw total workers bmp with
    | (OS_ERROR, _) => (Failed, s)
    | (_, bmp) =>
        let list_buf := build_list bmp total in
        (* the text and its NUL must fit [char list_buf[LIST_CAP]] *)
        if decide (LIST_CAP < length list_buf + 1) then (Overrun, s)
        else
          (Returned OS_OK
             (proto_build_simple_rsp (op_byte OP_S) (Some (list_buf ++ [NUL]))), s)
    end.

(** The reply text as the specification words it: the keys, separated
    by a comma and a space, in brackets. *)
Fixpoint join_keys (ks : list Z) : list ascii :=
  match ks with
  | [] => []
  | k :: ks' =>
      fmt_d k ++ match ks' with [] => [] | _ :: _ => B ", " ++ join_keys ks' end
  end.

Definition spec_hit_list (ks : list Z) : list ascii :=
  B "[" ++ join_keys ks ++ B "]".

(** The keys of [[0, total)] on which the per-document scan reports 1. *)
Definition hit_keys (e : env) (s : store) (kw : list ascii) : list Z :=
  filter (λ k, doc_key_contains_keyword e s k kw = 1%Z) (seqZ 0 (stg_total s)).

Definition handler_fn : Type := env → store → list arg_val_t → outcome * store.

(** The status a handler returned and the [hdr.len] bytes of the frame it
    built, as they would go out. *)
Definition sent (o : outcome) : option (status * list ascii) :=
  match o with
  | Returned rc rsp => Some (rc, take (rsp_len (rsp_hdr rsp))
                                     (u16_le (rsp_len (rsp_hdr rsp))
                                      ++ [rsp_opcode (rsp_hdr rsp); rsp_status (rsp_hdr rsp)]
                                      ++ rsp_payload rsp))
  | _ => None
  end.

(** [handlers[OP_COUNT]], from handlers_list.h. *)
Definition handlers : list handler_fn :=
  [handle_a; handle_c; handle_d; handle_l; handle_s; handle_f].

End Handlers.
Import Handlers.

(* ===================================================================== *)
(** ** transport.c and the I/O helpers of protocol.c *)
(* ===================================================================== *)

Module Transport.

Definition TXP_MAX : nat := RSP_MAX.

(** [txp_read(fd, buf, n)] on the unread rest of a file or pipe: the [n]
    bytes and the new rest, or an error at end of file. *)
Definition txp_read (rest : list ascii) (n : nat) : option (list ascii * list ascii) :=
  if decide (length rest < n) then None else Some (take n rest, drop n rest).

(** The bytes of a [response_t] in memory, and the struct a read of some
    bytes into it leaves (bytes not covered are indeterminate: a header
    field reads as zero, a payload byte is absent). *)
Definition rsp_bytes (r : response_t) : list ascii :=
  u16_le (rsp_len (rsp_hdr r))
  ++ [rsp_opcode (rsp_hdr r); rsp_status (rsp_hdr r)] ++ rsp_payload r.

Definition rsp_of_bytes (bs : list ascii) : response_t :=
  {| rsp_hdr := {| rsp_len := le_u16 (byte_at bs 0) (byte_at bs 1);
                   rsp_opcode := byte_at bs 2;
                   rsp_status := byte_at bs 3 |};
     rsp_payload := drop RSP_HDR_SZ bs |}.

(** [proto_send_rsp(fd, rsp)]: the bytes written. *)
Definition proto_send_rsp (rsp : response_t) : list ascii :=
  take (rsp_len (rsp_hdr rsp)) (rsp_bytes rsp).

(** [proto_recv_rsp(fd, out)] on the bytes in the pipe: [None] is
    [OS_ERROR]. *)
Definition proto_recv_rsp (pipe : list ascii) : option response_t :=
  '(hdr, rest) ← txp_read pipe RSP_HDR_SZ;
  let len := le_u16 (byte_at hdr 0) (byte_at hdr 1) in
  if decide (len < RSP_HDR_SZ ∨ RSP_MAX < len) then None
  else
    '(payload, _) ← txp_read rest (len - RSP_HDR_SZ);
    Some (rsp_of_bytes (hdr ++ payload)).

(** [proto_recv_req(fd, out)] on the bytes in the listen FIFO: the request
    and the unread rest. *)
Definition proto_recv_req (fifo : list ascii) : option (request_t * list ascii) :=
  '(hdr, rest) ← txp_read fifo REQ_HDR_SZ;
  let len := le_u16 (byte_at hdr 0) (byte_at hdr 1) in
  if decide (len < REQ_HDR_SZ ∨ REQ_MAX < len) then None
  else
    '(payload, rest) ← txp_read rest (len - REQ_HDR_SZ);
    Some ({| req_hdr := {| req_len := len;
                           req_opcode := byte_at hdr 2;
                           req_pid := to_int32 (le_u32 (drop 3 hdr)) |};
             req_payload := payload |}, rest).

(** A frame of [len] bytes for the wire, from a built response. *)
Definition wire_frame (op : ascii) (msg : list ascii) : list ascii :=
  proto_send_rsp (proto_build_simple_rsp op (Some (msg ++ [NUL]))).

(** [txp_reply(pid, buf, len)]: the frames delivered to the reply FIFO of
    [pid] (none when the parameters are refused). *)
Definition txp_reply (pid : Z) (buf : list ascii) (len : nat)
  : list (Z * list ascii) :=
  if decide (len = 0 ∨ TXP_MAX < len ∨ (pid ≤ 0)%Z) then []
  else [(pid, take len buf)].

End Transport.
Import Transport.

(* ===================================================================== *)
(** ** cache/cache_lru.c: the LRU response cache *)
(* ===================================================================== *)

Module Cache.

(** Maximum length of a cache key *)
Definition MAX_KEY_LEN : nat := 255.

(** Addresses of [malloc]'ed entries. *)
Abbreviation loc := nat.

Record entry_t := {
  key : list ascii;      (* char *key: the owned C string *)
  rsp : response_t;
  prev : option loc;     (* NULL is [None] *)
  next : option loc
}.

(** The file-scope variables of cache_lru.c, with the allocator's heap of
    entries: [brk] is the next address [malloc] hands out (addresses are
    not reused after [free]). *)
Record cache_t := {
  heap : gmap loc entry_t;
  brk : loc;
  ht : option (gmap (list ascii) loc);   (* GHashTable *ht, keyed by string *)
  head : option loc;
  tail : option loc;
  cap : nat;
  count : nat
}.

Definition uninit : cache_t :=
  {| heap := ∅; brk := 0; ht := None; head := None; tail := None;
     cap := 0; count := 0 |}.

(** Field reads and writes through an entry pointer.  A pointer that is
    not live reads as NULL and is not written; the invariant [lru_wf]
    below shows that none is ever followed. *)
Definition get_prev (h : gmap loc entry_t) (e : loc) : option loc :=
  h !! e ≫= prev.
Definition get_next (h : gmap loc entry_t) (e : loc) : option loc :=
  h !! e ≫= next.
Definition set_prev (h : gmap loc entry_t) (e : loc) (p : option loc)
  : gmap loc entry_t :=
  alter (λ x, {| key := key x; rsp := rsp x; prev := p; next := next x |}) e h.
Definition set_next (h : gmap loc entry_t) (e : loc) (n : option loc)
  : gmap loc entry_t :=
  alter (λ x, {| key := key x; rsp := rsp x; prev := prev x; next := n |}) e h.
Definition set_rsp (h : gmap loc entry_t) (e : loc) (r : response_t)
  : gmap loc entry_t :=
  alter (λ x, {| key := key x; rsp := r; prev := prev x; next := next x |}) e h.

Definition with_heap (c : cache_t) (h : gmap loc entry_t) : cache_t :=
  {| heap := h; brk := brk c; ht := ht c; head := head c; tail := tail c;
     cap := cap c; count := count c |}.

(** [g_hash_table_lookup(ht, kw)] *)
Definition ht_lookup (c : cache_t) (kw : list ascii) : option loc :=
  ht c ≫= λ m, m !! c_str kw.

Definition move_front (c : cache_t) (e : option loc) : cache_t :=
  match e with
  | None => c
  | Some e =>
      if decide (Some e = head c) then c
      else
        let h := heap c in
        (* Remove from current position *)
        let h := match get_prev h e with
                 | Some p => set_next h p (get_next h e)
                 | None => h
                 end in
        let h := match get_next h e with
                 | Some n => set_prev h n (get_prev h e)
                 | None => h
                 end in
        let tl := if decide (Some e = tail c) then get_prev h e else tail c in
        (* Move to front *)
        let h := set_prev h e None in
        let h := set_next h e (head c) in
        let h := match head c with
                 | Some hd => set_prev h hd (Some e)
                 | None => h
                 end in
        {| heap := h; brk := brk c; ht := ht c;
           head := Some e;
           tail := match tl with None => Some e | Some _ => tl end;
           cap := cap c; count := count c |}
  end.

(** One iteration of the loop of [evict]; [None] when its condition
    [cap && count > cap && tail] is false. *)
Definition evict_step (c : cache_t) : option cache_t :=
  if decide (cap c ≠ 0 ∧ cap c < count c) then
    match tail c with
    | None => None
    | Some old =>
        let tl := get_prev (heap c) old in
        let h := match tl with
                 | Some t => set_next (heap c) t None
                 | None => heap c
                 end in
        let hd := match tl with Some _ => head c | None => None end in
        (* g_hash_table_remove(ht, old->key); free(old); --count *)
        let m := match heap c !! old with
                 | Some o => delete (key o) <$> ht c
                 | None => ht c
                 end in
        Some {| heap := delete old h; brk := brk c; ht := m;
                head := hd; tail := tl; cap := cap c; count := count c - 1 |}
    end
  else None.

Fixpoint evict_loop (fuel : nat) (c : cache_t) : cache_t :=
  match fuel with
  | 0 => c
  | S fuel' =>
      match evict_step c with
      | Some c' => evict_loop fuel' c'
      | None => c
      end
  end.

(** Every iteration lowers [count], so [count] iterations reach the end
    of the loop. *)
Definition evict (c : cache_t) : cache_t := evict_loop (count c) c.

(** The tail shared by [load_from_disk] and [cache_put]: allocate an
    entry, link it in front of [head], enter it into the table, and count
    it.  (When the table already holds the key, [g_hash_table_insert]
    replaces the value and frees the key passed in; the model keeps the
    new entry's key readable.) *)
Definition push_front (c : cache_t) (k : list ascii) (r : response_t) : cache_t :=
  let e := brk c in
  let h := <[e := {| key := k; rsp := r; prev := None; next := head c |}]> (heap c) in
  let h := match head c with
           | Some hd => set_prev h hd (Some e)
           | None => h
           end in
  {| heap := h; brk := S (brk c);
     ht := insert k e <$> ht c;
     head := Some e;
     tail := match tail c with None => Some e | Some t => Some t end;
     cap := cap c; count := S (count c) |}.

(** *** The persistence file [tmp/cache_lru.bin] *)

(** One record of the file: [(key buffer, response)], or [None] where the
    loop of [load_from_disk] breaks. *)
Definition read_record (rest : list ascii)
  : option (list ascii * response_t * list ascii) :=
  '(kl, rest) ← txp_read rest 2;
  let klen := le_u16 (byte_at kl 0) (byte_at kl 1) in
  if decide (klen = 0 ∨ MAX_KEY_LEN < klen) then None
  else
    '(kbytes, rest) ← txp_read rest klen;
    let kbuf := kbytes ++ [NUL] in
    '(rl, rest) ← txp_read rest 2;
    let rlen := le_u16 (byte_at rl 0) (byte_at rl 1) in
    if decide (RSP_MAX < rlen) then None
    else
      '(rbytes, rest) ← txp_read rest rlen;
      Some (kbuf, rsp_of_bytes rbytes, rest).

(** The [for (i = 0; i < n && count < cap; ++i)] loop.  A record takes at
    least five bytes, so the length of the file bounds the iterations. *)
Fixpoint load_loop (fuel : nat) (i n : Z) (rest : list ascii) (c : cache_t) : cache_t :=
  match fuel with
  | 0 => c
  | S fuel' =>
      if decide ((i < n)%Z ∧ count c < cap c) then
        match read_record rest with
        | None => c
        | Some (kbuf, r, rest') =>
            load_loop fuel' (i + 1)%Z n rest' (push_front c (c_str kbuf) r)
        end
      else c
  end.

(** [file] is the content of the persistence file, [None] if there is
    none. *)
Definition load_from_disk (file : option (list ascii)) (c : cache_t) : cache_t :=
  match file with
  | None => c
  | Some bytes =>
      match txp_read bytes 4 with
      | None => c
      | Some (nb, rest) => load_loop (length rest) 0 (le_u32 nb) rest c
      end
  end.

(** The entries from [e] on, following [next]; [None] if the chain does
    not end within [fuel] entries. *)
Fixpoint chain (fuel : nat) (h : gmap loc entry_t) (e : option loc)
  : option (list entry_t) :=
  match e with
  | None => Some []
  | Some l =>
      match fuel with
      | 0 => None
      | S fuel' =>
          match h !! l with
          | None => Some []
          | Some x => cons x <$> chain fuel' h (next x)
          end
      end
  end.

(** The entries of the list, most recently used first. *)
Definition entries (c : cache_t) : option (list entry_t) :=
  chain (size (heap c)) (heap c) (head c).

Definition dump_record (x : entry_t) : list ascii :=
  let klen := strlen (key x ++ [NUL]) mod U16_MOD in
  let rlen := rsp_len (rsp_hdr (rsp x)) in
  u16_le klen ++ take klen (key x) ++ u16_le rlen ++ take rlen (rsp_bytes (rsp x)).

(** The file [dump_to_disk] writes ([None]: the list does not end). *)
Definition dump_to_disk (c : cache_t) : option (list ascii) :=
  xs ← entries c;
  Some (u32_le (to_uint32 (Z.of_nat (count c))) ++ mjoin (dump_record <$> xs)).

(** *** Public functions *)

Definition cache_init (c : cache_t) (max_entries : nat) (file : option (list ascii))
  : status * cache_t :=
  match ht c with
  | Some _ => (OS_ERROR, c)
  | None =>
      let c := {| heap := heap c; brk := brk c; ht := Some ∅;
                  head := None; tail := None; cap := max_entries; count := 0 |} in
      (OS_OK, if decide (cap c ≠ 0) then load_from_disk file c else c)
  end.

(** [cache_get(kw, out)]: status, [*out], and the cache afterwards. *)
Definition cache_get (c : cache_t) (kw : list ascii)
  : status * option response_t * cache_t :=
  match ht_lookup c kw with
  | None => (OS_ERROR, None, c)
  | Some e =>
      let c := move_front c (Some e) in
      (OS_OK, rsp <$> heap c !! e, c)
  end.

Definition cache_put (c : cache_t) (kw : list ascii) (r : response_t) : cache_t :=
  if decide (cap c = 0) then c
  else
    match ht_lookup c kw with
    | Some e => move_front (with_heap c (set_rsp (heap c) e r)) (Some e)
    | None => evict (push_front c (c_str kw) r)
    end.

(** The cache afterwards and the file written, if any. *)
Definition cache_cleanup (c : cache_t) : cache_t * option (list ascii) :=
  (uninit, if decide (cap c ≠ 0) then dump_to_disk c else None).

(** The keys of the list, most recently used first. *)
Definition keys (c : cache_t) : list (list ascii) :=
  from_option (fmap key) [] (entries c).

(** *** The invariant of the list and the table *)

(** The address of the first of [es], or [n] behind the last. *)
Definition hd_loc (es : list (loc * list ascii)) (n : option loc) : option loc :=
  match es with
  | [] => n
  | (l, _) :: _ => Some l
  end.

(** The address of the last of [es], or [p] in front of the first. *)
Definition last_loc (es : list (loc * list ascii)) (p : option loc) : option loc :=
  match list.last es with
  | Some (l, _) => Some l
  | None => p
  end.

(** The entries at the addresses [es], with the keys [es], are linked in
    this order, [p] in front of the first and [n] behind the last. *)
Fixpoint dll (h : gmap loc entry_t) (p : option loc) (es : list (loc * list ascii))
         (n : option loc) : Prop :=
  match es with
  | [] => True
  | (l, k) :: es' =>
      ∃ x, h !! l = Some x ∧ key x = k ∧ prev x = p ∧ next x = hd_loc es' n
           ∧ dll h (Some l) es' n
  end.

(** The state of an initialised cache whose list is [es], head first:
    distinct live entries with distinct keys, linked from [head] to
    [tail], counted by [count], and indexed by the table; nothing else is
    allocated. *)
Record lru_wf (c : cache_t) (es : list (loc * list ascii)) : Prop := {
  wf_locs : NoDup es.*1;
  wf_keys : NoDup es.*2;
  wf_dll : dll (heap c) None es None;
  wf_head : head c = hd_loc es None;
  wf_tail : tail c = last_loc es None;
  wf_count : count c = length es;
  wf_heap : ∀ l, is_Some (heap c !! l) ↔ l ∈ es.*1;
  wf_brk : ∀ l, l ∈ es.*1 → l < brk c;
  wf_ht : ∃ m, ht c = Some m ∧ ∀ k l, m !! k = Some l ↔ (l, k) ∈ es
}.

(** *** Sequences of operations and their access log *)

Inductive op :=
| Put (kw : list ascii) (r : response_t)
| Get (kw : list ascii).

Definition step (c : cache_t) (o : op) : cache_t :=
  match o with
  | Put kw r => cache_put c kw r
  | Get kw => (cache_get c kw).2
  end.

(** The key an operation accesses: the key of a [Put] that is not a
    no-op, the key of a [Get] that hits. *)
Definition access (c : cache_t) (o : op) : option (list ascii) :=
  match o with
  | Put kw _ => if decide (cap c = 0) then None else Some (c_str kw)
  | Get kw => match ht_lookup c kw with
              | Some _ => Some (c_str kw)
              | None => None
              end
  end.

(** Running a sequence of operations: the cache afterwards and the log of
    the accesses, the most recent one first. *)
Fixpoint run (c : cache_t) (log : list (list ascii)) (ops : list op)
  : cache_t * list (list ascii) :=
  match ops with
  | [] => (c, log)
  | o :: ops' =>
      run (step c o) (match access c o with Some k => k :: log | None => log end) ops'
  end.

(** The position of the most recent access of [k] in a log, counted back
    from now. *)
Definition rank (log : list (list ascii)) (k : list ascii) : option nat :=
  fst <$> list_find (λ x, x = k) log.

(** The most recent access of [k1] is earlier than that of [k2]. *)
Definition accessed_earlier (log : list (list ascii)) (k1 k2 : list ascii) : Prop :=
  ∃ i j, rank log k1 = Some i ∧ rank log k2 = Some j ∧ j < i.

(** The keys [ks] have all been accessed and stand in the order of their
    most recent accesses, the latest first. *)
Definition by_recency (log ks : list (list ascii)) : Prop :=
  StronglySorted (λ k1 k2, accessed_earlier log k2 k1) ks ∧ Forall (λ k, k ∈ log) ks.

(** The invariant of a cache of capacity [n] under [Put] and [Get]. *)
Definition lru_inv (n : nat) (c : cache_t) (log : list (list ascii)) : Prop :=
  ∃ es, lru_wf c es ∧ cap c = n ∧ length es ≤ n ∧ by_recency log es.*2.

End Cache.

(* ===================================================================== *)
(** ** dispatcher.c / dserver.c: validation, dispatch, the serve loop *)
(* ===================================================================== *)

Module Server.

(** The [for (i = 0; i < row->argc_max; i++)] loop of
    [dismantle_request], with [n] iterations left. *)
Fixpoint dismantle_loop (n i : nat) (row : cmd_row_t) (cur : proto_cursor_t)
         (args : list arg_val_t) : status * list arg_val_t :=
  match n with
  | 0 => (OS_OK, args)
  | S n' =>
      match proto_cursor_next cur with
      | End =>
          (* No more TLVs: ensure mandatory args were provided *)
          if decide (i < argc_min row) then (OS_ERROR, args) else (OS_OK, args)
      | Corrupt => (OS_ERROR, args)
      | More t v l cur' =>
          if decide (Some t ≠ types row !! i) then (OS_ERROR, args)
          else
            match arg_decoders t with
            | None => (OS_ERROR, args)
            | Some dec =>
                match dec v l with
                | None => (OS_ERROR, args)
                | Some a => dismantle_loop n' (S i) row cur' (<[i := a]> args)
                end
            end
      end
  end.

Definition dismantle_request (req : request_t) (row : cmd_row_t)
           (args : list arg_val_t) : status * list arg_val_t :=
  let cur := proto_cursor_init (req_payload req)
                               (req_len (req_hdr req) - REQ_HDR_SZ) in
  dismantle_loop (argc_max row) 0 row cur args.

Definition dispatch_request (e : env) (s : store) (req : request_t) (row : cmd_row_t)
  : outcome * store :=
  (* arg_val_t args[row->argc_max]; memset(args, 0, sizeof args) *)
  let args := replicate (argc_max row) (U32 0) in
  match dismantle_request req row args with
  | (OS_ERROR, _) => (Failed, s)
  | (_, args) =>
      match handlers !! opcode row with
      | Some h => h e s args
      | None => (Failed, s)
      end
  end.

Definition ERR : list ascii := B "ERR" ++ [NUL].

(** The child of [spawn_nonblock_child]: the bytes it hands back through
    the pipe ([None]: undefined).  Its copy of the store dies with it. *)
Definition child_frame (e : env) (s : store) (req : request_t) (cmd : cmd_row_t)
  : option (list ascii) :=
  match (dispatch_request e s req cmd).1 with
  | Overrun => None
  | Failed =>
      (* guarantee a reply frame *)
      Some (proto_send_rsp (proto_build_simple_rsp (op_byte (opcode cmd)) (Some ERR)))
  | Returned rc rsp => Some (proto_send_rsp rsp)
  end.

(** The dispatcher's own state. *)
Record server_t := {
  docs : store;
  cache : Cache.cache_t
}.

(** What one pass of the loop of [serve_requests] does with a received
    request: *)
Record served := {
  after : server_t;                 (* the state it leaves *)
  replies : list (Z * list ascii);  (* the frames delivered, by pid *)
  shutdown : bool                   (* whether the loop returns *)
}.

Definition req_op (req : request_t) : nat := nat_of_ascii (req_opcode (req_hdr req)).

(** The part of the loop body behind the cache check. *)
Definition serve_miss (e : env) (st : server_t) (req : request_t) (cmd : cmd_row_t)
  : option served :=
  let pid := req_pid (req_hdr req) in
  if negb (blocking cmd) then
    (* NON-blocking commands run in a worker *)
    pipe ← child_frame e (docs st) req cmd;
    match proto_recv_rsp pipe with
    | Some rsp =>
        let c :=
          if decide (req_op req = OP_S) then
            match proto_arg_first_str req 256 with
            | (OS_OK, kw) => Cache.cache_put (cache st) kw rsp
            | _ => cache st
            end
          else cache st in
        Some {| after := {| docs := docs st; cache := c |};
                replies := txp_reply pid (rsp_bytes rsp) (rsp_len (rsp_hdr rsp));
                shutdown := false |}
    | None => Some {| after := st; replies := []; shutdown := false |}
    end
  else
    (* blocking command handled in parent *)
    match dispatch_request e (docs st) req cmd with
    | (Overrun, _) => None
    | (Failed, s') =>
        Some {| after := {| docs := s'; cache := cache st |};
                replies := []; shutdown := false |}
    | (Returned rc rsp, s') =>
        Some {| after := {| docs := s'; cache := cache st |};
                replies := txp_reply pid (rsp_bytes rsp) (rsp_len (rsp_hdr rsp));
                shutdown := bool_decide (rc = OS_SHUTDOWN) |}
    end.

(** The quick cache check: the frame found for an S request whose first
    string argument is a key of the cache, and the cache after the
    lookup. *)
Definition cached_reply (st : server_t) (req : request_t)
  : option (response_t * Cache.cache_t) :=
  if decide (req_op req = OP_S) then
    match proto_arg_first_str req 256 with
    | (OS_OK, kw) =>
        match Cache.cache_get (cache st) kw with
        | (OS_OK, Some hit, c) => Some (hit, c)
        | _ => None
        end
    | _ => None
    end
  else None.

(** The loop body of [serve_requests] on a received request ([None]:
    undefined). *)
Definition serve_request (e : env) (st : server_t) (req : request_t)
  : option served :=
  match cmd_by_opcode (req_op req) with
  | None => Some {| after := st; replies := []; shutdown := false |}
  | Some cmd =>
      let pid := req_pid (req_hdr req) in
      (* QUICK cache HIT check before forking *)
      match cached_reply st req with
      | Some (hit, c) =>
          Some {| after := {| docs := docs st; cache := c |};
                  replies := txp_reply pid (rsp_bytes hit) (rsp_len (rsp_hdr hit));
                  shutdown := false |}
      | None => serve_miss e st req cmd
      end
  end.

End Server.
Import Server.

(* ===================================================================== *)
(** ** Concrete inputs used by the examples below *)
(* ===================================================================== *)

Module Fixtures.

(** The two TLVs of [-s "banana" 42] (protocol.h). *)
Definition banana_42 : list (ascii * list ascii) :=
  [(ARG_STR, B "banana"); (ARG_U32, u32_le 42)].

(** The record of [-a "T" "A" 2020 "f.txt"]. *)
Definition doc_T : document_t :=
  {| key := 0; title := B "T" ++ [NUL]; authors := B "A" ++ [NUL];
     path := B "f.txt" ++ [NUL]; year := 2020 |}.

Definition f_txt : list ascii := B "docs/f.txt".

(** A document root [docs] that holds the one file [f.txt]. *)
Definition env_f_txt (content : list ascii) : env :=
  {| g_doc_root := B "docs" ++ [NUL];
     files := λ p, if decide (p = f_txt) then Some content else None;
     nprocs := 4;
     sched := [] |}.

Definition newline : list ascii := ["010"%char].

(** The bytes of a request frame on the listen FIFO, and the request
    [proto_recv_req] makes of them. *)
Definition wire_request (op : nat) (pid : Z) (tlvs : list (ascii * list ascii))
  : list ascii :=
  u16_le (REQ_HDR_SZ + tlvs_size tlvs) ++ [op_byte op] ++ u32_le (to_uint32 pid)
  ++ tlvs_wire tlvs.

Definition received (op : nat) (pid : Z) (tlvs : list (ascii * list ascii))
  : request_t :=
  {| req_hdr := {| req_len := REQ_HDR_SZ + tlvs_size tlvs;
                   req_opcode := op_byte op; req_pid := pid |};
     req_payload := tlvs_wire tlvs |}.

(** Two reply frames of a search. *)
Definition rsp_none : response_t :=
  proto_build_simple_rsp (op_byte OP_S) (Some (B "[]" ++ [NUL])).
Definition rsp_zero : response_t :=
  proto_build_simple_rsp (op_byte OP_S) (Some (B "[0]" ++ [NUL])).

(** A persistence file of two records, with keys "k1" and "k2" in this
    order. *)
Definition two_records : list ascii :=
  u32_le 2
  ++ (u16_le 2 ++ B "k1" ++ u16_le 9 ++ wire_frame (op_byte OP_S) (B "[]"))
  ++ (u16_le 2 ++ B "k2" ++ u16_le 10 ++ wire_frame (op_byte OP_S) (B "[0]")).

(** A cache of capacity 2 after [Put "a"] and then [Put "b"]. *)
Definition cache_a_b : Cache.cache_t :=
  Cache.cache_put
    (Cache.cache_put (Cache.cache_init Cache.uninit 2 None).2 (B "a" ++ [NUL]) rsp_none)
    (B "b" ++ [NUL]) rsp_zero.

(** The rows of the command table for [-c], [-l] and [-s]. *)
Definition row_C : cmd_row_t := CMD_ROW "-c" 1 OP_C false [ARG_U32].
Definition row_L : cmd_row_t := CMD_ROW "-l" 2 OP_L false [ARG_U32; ARG_STR].
Definition row_S : cmd_row_t := CMD_ROW "-s" 1 OP_S false [ARG_STR; ARG_U32].

(** An S request whose only TLV announces five bytes and brings one. *)
Definition corrupt_S : request_t :=
  {| req_hdr := {| req_len := REQ_HDR_SZ + 4; req_opcode := op_byte OP_S;
                   req_pid := 1234 |};
     req_payload := ARG_STR :: u16_le 5 ++ B "x" |}.

(** An S request whose term is the single byte NUL. *)
Definition nul_term_S : request_t := received OP_S 1234 [(ARG_STR, [NUL])].

(** The store after one [-a "T" "A" 2020 "f.txt"]. *)
Definition store_T : store := (stg_add_doc [] doc_T).2.

(** The store after a second [-a] of the same record, and the
    surroundings of [env_f_txt] under a schedule of the scan workers. *)
Definition store_T2 : store := (stg_add_doc store_T doc_T).2.

Definition env_sched (content : list ascii) (sc : list nat) : env :=
  {| g_doc_root := g_doc_root (env_f_txt content);
     files := files (env_f_txt content);
     nprocs := nprocs (env_f_txt content);
     sched := sc |}.

(** A server over the store of one document, with an empty cache of
    capacity [n]. *)
Definition server_T (n : nat) : server_t :=
  {| docs := store_T; cache := (Cache.cache_init Cache.uninit n None).2 |}.

End Fixtures.
Import Fixtures.

(* ===================================================================== *)
(** ** arg_codec.c: the encoders *)
(* ===================================================================== *)

Module ArgEncoders.

(** [unsigned long] has 64 bits. *)
Definition ULONG_MAX : Z := 18446744073709551615.
Definition UINT32_MAX : Z := 4294967295.

(** [isspace] in the C locale: space and the control bytes 9 to 13. *)
Definition isspace (c : ascii) : bool :=
  let n := nat_of_ascii c in
  bool_decide (n = 32 ∨ 9 ≤ n ≤ 13).

Definition digit (c : ascii) : option Z :=
  let n := nat_of_ascii c in
  if decide (48 ≤ n ≤ 57) then Some (Z.of_nat (n - 48)) else None.

(** Number of leading white-space bytes. *)
Fixpoint skip_space (s : list ascii) : nat :=
  match s with
  | c :: s' => if isspace c then S (skip_space s') else 0
  | [] => 0
  end.

(** The run of decimal digits at the front of [s], continuing the value
    [acc]: the value and the number of digits. *)
Fixpoint read_digits (acc : Z) (s : list ascii) : Z * nat :=
  match s with
  | c :: s' =>
      match digit c with
      | Some d => let '(v, n) := read_digits (10 * acc + d) s' in (v, S n)
      | None => (acc, 0)
      end
  | [] => (acc, 0)
  end.

(** [strtoul(raw, &end, 10)]: the value and [end - raw].  White space is
    skipped, a sign is accepted, a value past [ULONG_MAX] saturates, a
    negated value wraps; without a digit nothing is converted and [end]
    is [raw]. *)
Definition strtoul (raw : list ascii) : Z * nat :=
  let sp := skip_space raw in
  let s := drop sp raw in
  let '(neg, sg) :=
    match s with
    | c :: _ => if decide (c = "-"%char) then (true, 1)
                else if decide (c = "+"%char) then (false, 1) else (false, 0)
    | [] => (false, 0)
    end in
  let '(v, n) := read_digits 0 (drop sg s) in
  if decide (n = 0) then (0%Z, 0)
  else
    ((if decide (ULONG_MAX < v)%Z then ULONG_MAX
      else if neg then ((- v) mod (ULONG_MAX + 1))%Z else v),
     sp + sg + n).

Definition enc_u32 (b : proto_builder_t) (raw : list ascii)
  : status * proto_builder_t :=
  let '(val, e) := strtoul raw in
  (* Check for conversion errors *)
  if decide (e = 0 ∨ byte_at raw e ≠ NUL) then (OS_ERROR, b)
  (* Check for overflow *)
  else if decide (UINT32_MAX < val)%Z then (OS_ERROR, b)
  else
    let v32 := to_uint32 val in
    proto_add_tlv b ARG_U32 (u32_le v32).

Definition enc_str (b : proto_builder_t) (raw : list ascii)
  : status * proto_builder_t :=
  let len := strlen raw in
  if decide (UINT16_MAX < len) then (OS_ERROR, b)
  else proto_add_tlv b ARG_STR (take len raw).

Definition arg_encoders (t : ascii)
  : option (proto_builder_t → list ascii → status * proto_builder_t) :=
  if decide (t = ARG_U32) then Some enc_u32
  else if decide (t = ARG_STR) then Some enc_str
  else None.

End ArgEncoders.
Import ArgEncoders.

(* ===================================================================== *)
(** ** commands.c: the command line *)
(* ===================================================================== *)

Module CommandLine.

(** The loop of [cmd_by_flag] over the rows from [rows] on;
    [strcmp(f, row.flag) == 0] compares the C string in [f]. *)
Fixpoint find_flag (f : list ascii) (rows : list cmd_row_t) : option cmd_row_t :=
  match rows with
  | [] => None
  | row :: rows' =>
      if decide (c_str f = B (flag row)) then Some row else find_flag f rows'
  end.

Definition cmd_by_flag (f : list ascii) : option cmd_row_t :=
  find_flag f cmd_table.

(** [command_parse(argc, argv)], with [argc = length argv]. *)
Definition command_parse (argv : list (list ascii)) : option cmd_row_t :=
  if decide (length argv < 2) then None
  else
    match cmd_by_flag (argv !!! 1) with
    | None => None
    | Some cmd =>
        (* Subtract program name and command flag *)
        let nargs := length argv - 2 in
        if decide (nargs < argc_min cmd) then None
        else if decide (argc_max cmd < nargs) then None
        else Some cmd
    end.

End CommandLine.
Import CommandLine.

(* ===================================================================== *)
(** ** dclient.c: the client, and the request side of protocol.c *)
(* ===================================================================== *)

Module Client.

(** The bytes of a [request_t] in memory (packed). *)
Definition req_bytes (r : request_t) : list ascii :=
  u16_le (req_len (req_hdr r))
  ++ [req_opcode (req_hdr r)] ++ u32_le (to_uint32 (req_pid (req_hdr r)))
  ++ req_payload r.

(** [proto_send_req(fd, req)]: the bytes written. *)
Definition proto_send_req (req : request_t) : list ascii :=
  take (req_len (req_hdr req)) (req_bytes req).

(** The loop of [build_request] from index [i] on, over the arguments
    left; [None] where [types[i]] would be read behind the array. *)
Fixpoint encode_args (b : proto_builder_t) (args : list (list ascii)) (i : nat)
         (tys : list ascii) : option (status * proto_builder_t) :=
  match args with
  | [] => Some (OS_OK, b)
  | a :: args' =>
      match tys !! i with
      | None => None
      | Some type =>
          match arg_encoders type with
          | None => Some (OS_ERROR, b)
          | Some enc =>
              match enc b a with
              | (OS_ERROR, b') => Some (OS_ERROR, b')
              | (_, b') => encode_args b' args' (S i) tys
              end
          end
      end
  end.

(** [build_request(req, argv, argc, opcode, types)]; [pid] is what
    [getpid()] returns. *)
Definition build_request (pid : Z) (argv : list (list ascii)) (op : ascii)
           (tys : list ascii) : option (status * request_t) :=
  let '(req, b) := proto_req_init op pid in
  match encode_args b argv 0 tys with
  | None => None
  | Some (OS_ERROR, b') =>
      Some (OS_ERROR, {| req_hdr := req_hdr req; req_payload := buf b' |})
  | Some (_, b') => Some (proto_req_finish req b')
  end.

(** The request [main] sends for a command line, if it gets that far. *)
Definition client_request (pid : Z) (argv : list (list ascii)) : option request_t :=
  match command_parse argv with
  | None => None
  | Some cmd =>
      match build_request pid (drop 2 argv) (op_byte (opcode cmd)) (types cmd) with
      | Some (OS_OK, req) => Some req
      | _ => None
      end
  end.

(** What [util_log] writes for one decoded TLV. *)
Definition log_line (a : arg_val_t) : list ascii :=
  match a with
  | STR s => c_str s ++ ["010"%char]     (* "%.*s\n" *)
  | U32 x => fmt_d x ++ ["010"%char]     (* "%u\n" *)
  end.

(** The loop of [dismantle_response]: the status and the lines logged.
    The outer [None] is a type byte that indexes behind [arg_decoders],
    or fuel that ran out. *)
Fixpoint print_tlvs (fuel : nat) (c : proto_cursor_t)
  : option (status * list (list ascii)) :=
  match fuel with
  | 0 => None
  | S fuel' =>
      match proto_cursor_next c with
      | More t v l c' =>
          if decide (t ≠ ARG_U32 ∧ t ≠ ARG_STR) then None
          else
            match arg_decoders t ≫= λ dec, dec v l with
            | None => Some (OS_ERROR, [])
            | Some a =>
                '(st, out) ← print_tlvs fuel' c';
                Some (st, log_line a :: out)
            end
      | _ => Some (OS_OK, [])
      end
  end.

Definition dismantle_response (rsp : response_t) : option (status * list (list ascii)) :=
  let payload_len := rsp_len (rsp_hdr rsp) - RSP_HDR_SZ in
  print_tlvs (S payload_len) (proto_cursor_init (rsp_payload rsp) payload_len).

End Client.
Import Client.

(* ===================================================================== *)
(** ** docroot.c *)
(* ===================================================================== *)

Module DocRoot.

(** docroot.c sees no [PATH_MAX] of the system and defines its own. *)
Definition PATH_MAX : nat := 512.

(** The zero-initialised [g_doc_root]. *)
Definition g_doc_root0 : list ascii := replicate PATH_MAX NUL.

(** [docroot_set(path)] on the buffer [root]: the status and the buffer
    afterwards. *)
Definition docroot_set (root path : list ascii) : status * list ascii :=
  let len := strlen path in
  if decide (PATH_MAX ≤ len) then (OS_ERROR, root)
  else
    (* Copy path including null terminator *)
    (OS_OK, memcpy root 0 (take len path ++ [NUL])).

Definition with_root (e : env) (root : list ascii) : env :=
  {| g_doc_root := root; files := files e; nprocs := nprocs e; sched := sched e |}.

End DocRoot.

(* ===================================================================== *)
(** ** Sequences of store operations and of requests *)
(* ===================================================================== *)

Module Runs.

(** The two operations that write the storage file. *)
Inductive store_op :=
| SAdd (doc : document_t)
| SDel (k : Z).

Definition store_step (s : store) (o : store_op) : store :=
  match o with
  | SAdd doc => (stg_add_doc s doc).2
  | SDel k => (stg_del_doc s k).2
  end.

Definition store_run (s : store) (ops : list store_op) : store :=
  foldl store_step s ops.

(** The loop of [serve_requests] over the requests [proto_recv_req]
    delivers, up to the one that shuts the server down: the state, the
    frames delivered in order, and whether the loop returned. *)
Fixpoint serve_requests (e : env) (st : server_t) (reqs : list request_t)
  : option (server_t * list (Z * list ascii) * bool) :=
  match reqs with
  | [] => Some (st, [], false)
  | req :: reqs' =>
      r ← serve_request e st req;
      if shutdown r then Some (after r, replies r, true)
      else
        '(st', out, down) ← serve_requests e (after r) reqs';
        Some (st', replies r ++ out, down)
  end.

End Runs.
Import Runs.

(* ===================================================================== *)
(** ** Reference notions the theorems compare the code with *)
(* ===================================================================== *)

Module Reference.

(** The value of a decimal numeral read from the left, continuing
    [acc]. *)
Fixpoint uint_val (acc : Z) (d : Decimal.uint) : Z :=
  match d with
  | Decimal.Nil => acc
  | Decimal.D0 d => uint_val (10 * acc + 0) d
  | Decimal.D1 d => uint_val (10 * acc + 1) d
  | Decimal.D2 d => uint_val (10 * acc + 2) d
  | Decimal.D3 d => uint_val (10 * acc + 3) d
  | Decimal.D4 d => uint_val (10 * acc + 4) d
  | Decimal.D5 d => uint_val (10 * acc + 5) d
  | Decimal.D6 d => uint_val (10 * acc + 6) d
  | Decimal.D7 d => uint_val (10 * acc + 7) d
  | Decimal.D8 d => uint_val (10 * acc + 8) d
  | Decimal.D9 d => uint_val (10 * acc + 9) d
  end.

(** The argument a command-line word stands for under a type of the
    command table, and the TLV that carries it. *)
Definition arg_of (t : ascii) (raw : list ascii) : arg_val_t :=
  if decide (t = ARG_U32) then U32 (strtoul raw).1 else STR (c_str raw).

Definition tlv_of (t : ascii) (raw : list ascii) : ascii * list ascii :=
  (t, if decide (t = ARG_U32) then u32_le (strtoul raw).1 else c_str raw).

(** The line the client logs for a TLV of a response. *)
Definition line_of (tv : ascii * list ascii) : list ascii :=
  (if decide (tv.1 = ARG_U32) then fmt_d (le_u32 tv.2) else c_str tv.2)
  ++ ["010"%char].

(** Every slot of the storage file holds the record of its own index or
    the tombstone. *)
Definition slots_ok (s : store) : Prop :=
  ∀ (i : nat) d, s !! i = Some d → key d = Z.of_nat i ∨ d = tomb.

(** The number of Adds in a sequence of store operations. *)
Fixpoint adds (ops : list store_op) : nat :=
  match ops with
  | [] => 0
  | SAdd _ :: ops' => S (adds ops')
  | SDel _ :: ops' => adds ops'
  end.

(** The first byte of a term occurs nowhere else in it. *)
Definition first_byte_unique (term : list ascii) : Prop :=
  ∀ i, 0 < i → i < length term → term !! i ≠ term !! 0.

(** The last [j] bytes of [seen] are the first [j] bytes of [term]. *)
Definition ends_with (term seen : list ascii) (j : nat) : Prop :=
  ∃ pre, seen = pre ++ take j term.

(** Between two bytes, [match] is the length of the longest prefix of
    the term that ends the bytes seen, the whole term apart. *)
Definition tracks (kw seen : list ascii) (st : scan_state) : Prop :=
  match_ st < strlen kw ∧ ends_with (c_str kw) seen (match_ st) ∧
  ∀ j, match_ st < j → j ≤ strlen kw → ¬ ends_with (c_str kw) seen j.

(** A file of whole lines: every line is followed by a newline. *)
Definition nl : ascii := "010"%char.
Definition terminated (lines : list (list ascii)) : list ascii :=
  mjoin ((λ l, l ++ [nl]) <$> lines).

(** [n] of the [lines] hold [term]. *)
Inductive counts (term : list ascii) : list (list ascii) → nat → Prop :=
| counts_nil : counts term [] 0
| counts_hit l ls n : contains term l → counts term ls n → counts term (l :: ls) (S n)
| counts_miss l ls n : ¬ contains term l → counts term ls n → counts term (l :: ls) n.

(** The scanner inside a line of which [seen] has been read: [match]
    tracks the longest proper prefix of the term that ends [seen], and the
    line flag tells whether [seen] holds the term. *)
Definition tracks_line (kw seen : list ascii) (st : scan_state) : Prop :=
  match_ st < strlen kw ∧ ends_with (c_str kw) seen (match_ st) ∧
  (∀ j, match_ st < j → j < strlen kw → ¬ ends_with (c_str kw) seen j) ∧
  (matched_line st = true ↔ contains (c_str kw) seen).

(** The cache as a map: the response stored under a key, found through
    the hash table. *)
Definition cached (c : Cache.cache_t) (k : list ascii) : option response_t :=
  Cache.ht c ≫= λ m, m !! k ≫= λ l, Cache.rsp <$> Cache.heap c !! l.

(** What an entry holds apart from its links. *)
Definition payload_of (h : gmap nat Cache.entry_t) (l : nat)
  : option (list ascii * response_t) :=
  (λ x, (Cache.key x, Cache.rsp x)) <$> h !! l.

(** The message of [handle_f]. *)
Definition bye : list ascii := B "Server is shutting down".

End Reference.
Import Reference.

(* ===================================================================== *)
(** ** A session: a search, a delete, the same search again *)
(* ===================================================================== *)

Module Session.

Definition banana_env : env := env_f_txt (B "a banana").

Definition search_1 : request_t := received OP_S 1234 banana_42.
Definition delete_0 : request_t := received OP_D 77 [(ARG_U32, u32_le 0)].
Definition search_2 : request_t := received OP_S 99 [(ARG_STR, B "banana")].

Definition idle : served :=
  {| after := server_T 2; replies := []; shutdown := false |}.

(** The first search, served over the store of one document. *)
Definition first_served : served :=
  default idle (serve_request banana_env (server_T 2) search_1).

(** The delete, served after the file has been emptied. *)
Definition then_served : server_t * list (Z * list ascii) * bool :=
  default (server_T 2, [], false)
          (serve_requests (env_f_txt []) (after first_served) [delete_0]).

(** A Finish request that carries four bytes that are no TLV. *)
Definition finish_junk : request_t :=
  {| req_hdr := {| req_len := REQ_HDR_SZ + 4; req_opcode := op_byte OP_F;
                   req_pid := 1234 |};
     req_payload := B "junk" |}.

End Session.
Import Session.

(* ===================================================================== *)
(** * Properties *)
(* ===================================================================== *)

(** ** Wire codec *)

Section BytesFacts.
Lemma le_u16_enc n :
  n < U16_MOD →
  le_u16 (ascii_of_nat (n mod 256)) (ascii_of_nat ((n / 256) mod 256)) = n.
Proof.
  unfold U16_MOD, le_u16. intros Hn.
  assert (n mod 256 < 256) by (apply Nat.mod_upper_bound; lia).
  assert (n / 256 < 256) by (apply Nat.Div0.div_lt_upper_bound; lia).
  rewrite (Nat.mod_small (n / 256)) by done.
  rewrite !nat_ascii_embedding by done.
  pose proof (Nat.div_mod_eq n 256). lia.
Qed.

Lemma memcpy_length dst off src :
  off + length src ≤ length dst → length (memcpy dst off src) = length dst.
Proof.
  intros H. unfold memcpy. rewrite !length_app, length_take, length_drop. lia.
Qed.

Lemma memcpy_take dst off src :
  off + length src ≤ length dst →
  take (off + length src) (memcpy dst off src) = take off dst ++ src.
Proof.
  intros H. unfold memcpy. rewrite app_assoc.
  rewrite take_app_length'; [done|].
  rewrite length_app, length_take. lia.
Qed.

Lemma memcpy_take_before dst off src n :
  n ≤ off → off ≤ length dst → take n (memcpy dst off src) = take n dst.
Proof.
  intros Hn Hoff. unfold memcpy.
  rewrite take_app_le by (rewrite length_take; lia).
  rewrite take_take. f_equal. lia.
Qed.
End BytesFacts.

Ltac sz :=
unfold tlv_size, TLV_HDR_SZ, RSP_HDR_SZ, REQ_HDR_SZ, UINT16_MAX, U16_MOD,
  RSP_MAX, REQ_MAX in *;
cbn [fst snd length] in *; lia.

Section BuilderFacts.

Lemma tlv_hdr_length t n : length (tlv_hdr t n) = TLV_HDR_SZ.
Proof. done. Qed.

Lemma tlv_wire_length tv : length (tlv_wire tv) = tlv_size tv.
Proof. unfold tlv_wire, tlv_size. by rewrite length_app, tlv_hdr_length. Qed.

Lemma tlvs_size_cons tv tlvs : tlvs_size (tv :: tlvs) = tlv_size tv + tlvs_size tlvs.
Proof. done. Qed.

Lemma tlvs_wire_cons tv tlvs : tlvs_wire (tv :: tlvs) = tlv_wire tv ++ tlvs_wire tlvs.
Proof. done. Qed.

Lemma tlvs_wire_length tlvs : length (tlvs_wire tlvs) = tlvs_size tlvs.
Proof.
  induction tlvs as [|tv tlvs IH]; [done|].
  by rewrite tlvs_wire_cons, tlvs_size_cons, length_app, tlv_wire_length, IH.
Qed.

Lemma proto_add_tlv_ok b t v :
  builder_wf b →
  used b + tlv_size (t, v) ≤ cap b →
  cap b ≤ UINT16_MAX →
  ∃ b', proto_add_tlv b t v = (OS_OK, b') ∧
        builder_wf b' ∧ cap b' = cap b ∧
        used b' = used b + tlv_size (t, v) ∧
        take (used b') (buf b') = take (used b) (buf b) ++ tlv_wire (t, v).
Proof.
  intros [Hlen Hused] Hfit Hcap.
  unfold proto_add_tlv.
  destruct (decide (UINT16_MAX < length v)) as [Hbig|_]; [sz|].
  destruct (decide (cap b < used b + (TLV_HDR_SZ + length v))) as [Hover|_]; [sz|].
  eexists. split; [done|]. cbn [buf cap used snd].
  set (buf1 := memcpy (buf b) (used b) (tlv_hdr t (length v))).
  assert (Hlen1 : length buf1 = length (buf b)).
  { apply memcpy_length. rewrite tlv_hdr_length. sz. }
  assert (Hlen2 : length (memcpy buf1 (used b + TLV_HDR_SZ) v) = length (buf b)).
  { rewrite memcpy_length; sz. }
  split_and!; try done.
  - split; cbn [buf cap used]; sz.
  - rewrite Nat.add_assoc, memcpy_take by sz.
    rewrite <- (tlv_hdr_length t (length v)) at 1.
    subst buf1. rewrite memcpy_take by (rewrite tlv_hdr_length; sz).
    unfold tlv_wire. by rewrite <- app_assoc.
Qed.

Lemma add_tlvs_ok tlvs : ∀ b,
  builder_wf b →
  used b + tlvs_size tlvs ≤ cap b →
  cap b ≤ UINT16_MAX →
  ∃ b', add_tlvs b tlvs = (OS_OK, b') ∧
        builder_wf b' ∧ cap b' = cap b ∧
        used b' = used b + tlvs_size tlvs ∧
        take (used b') (buf b') = take (used b) (buf b) ++ tlvs_wire tlvs.
Proof.
  induction tlvs as [|[t v] tlvs IH]; intros b Hwf Hfit Hcap.
  - exists b. unfold tlvs_size, tlvs_wire. simpl.
    rewrite Nat.add_0_r, app_nil_r. done.
  - rewrite tlvs_size_cons in Hfit.
    destruct (proto_add_tlv_ok b t v) as (b1 & Hadd & Hwf1 & Hcap1 & Hused1 & Hbuf1);
      [done|lia|done|].
    destruct (IH b1) as (b2 & Hadds & Hwf2 & Hcap2 & Hused2 & Hbuf2);
      [done|lia|lia|].
    exists b2. cbn [add_tlvs]. rewrite Hadd, Hadds.
    rewrite tlvs_size_cons, tlvs_wire_cons.
    split_and!; try done; try lia.
    rewrite Hbuf2, Hbuf1. by rewrite <- app_assoc.
Qed.

End BuilderFacts.

Section CursorFacts.

Lemma byte_at_drop m n i : byte_at (drop n m) i = byte_at m (n + i).
Proof. unfold byte_at. by rewrite lookup_drop. Qed.

Lemma byte_at_drop0 m n : byte_at (drop n m) 0 = byte_at m n.
Proof. by rewrite byte_at_drop, Nat.add_0_r. Qed.

(** A cursor standing in front of the wire image of [tlvs], which ends
    exactly at [c_end], yields them in order and then [End]. *)
Lemma cursor_walk_wire tlvs : ∀ c rest fuel,
  drop (cur c) (mem c) = tlvs_wire tlvs ++ rest →
  c_end c = cur c + tlvs_size tlvs →
  Forall (λ tv, length tv.2 < U16_MOD) tlvs →
  length tlvs < fuel →
  cursor_walk fuel c = Some (tlvs, OS_OK).
Proof.
  induction tlvs as [|[t v] tlvs IH]; intros c rest fuel Hmem Hend Hall Hfuel.
  - destruct fuel as [|fuel]; [simpl in Hfuel; lia|].
    cbn [cursor_walk]. unfold proto_cursor_next.
    unfold tlvs_size in Hend. simpl in Hend.
    destruct (decide _) as [_|Hno]; [done|]. unfold TLV_HDR_SZ in Hno. lia.
  - destruct fuel as [|fuel]; [simpl in Hfuel; lia|].
    apply Forall_cons in Hall as [Hv Hall]. simpl in Hv.
    rewrite tlvs_size_cons in Hend. rewrite tlvs_wire_cons in Hmem.
    unfold tlv_wire, tlv_hdr, u16_le in Hmem. cbn [fst snd] in Hmem.
    rewrite (Nat.mod_small (length v)) in Hmem by done.
    cbn [cursor_walk]. unfold proto_cursor_next.
    destruct (decide (c_end c < cur c + TLV_HDR_SZ)) as [Hlt|_]; [sz|].
    assert (Ht : byte_at (mem c) (cur c) = t).
    { rewrite <- byte_at_drop0, Hmem. done. }
    assert (Hlo : byte_at (mem c) (cur c + 1) = ascii_of_nat (length v mod 256)).
    { rewrite <- byte_at_drop, Hmem. done. }
    assert (Hhi : byte_at (mem c) (cur c + 2) = ascii_of_nat ((length v / 256) mod 256)).
    { rewrite <- byte_at_drop, Hmem. done. }
    rewrite Ht, Hlo, Hhi, le_u16_enc by done.
    destruct (decide (c_end c < cur c + (TLV_HDR_SZ + length v))) as [Hlt|_]; [sz|].
    assert (Hdrop : drop (cur c + TLV_HDR_SZ) (mem c) = v ++ tlvs_wire tlvs ++ rest).
    { rewrite <- drop_drop, Hmem. simpl. by rewrite <- app_assoc. }
    erewrite (IH _ rest fuel); cbn [mem cur c_end]; try done.
    + unfold slice. rewrite Hdrop, take_app_length. done.
    + rewrite Nat.add_assoc, <- drop_drop, Hdrop.
      by rewrite drop_app_length.
    + sz.
    + simpl in Hfuel. lia.
Qed.

End CursorFacts.

Section Framing.

Lemma tlvs_size_bound tlvs n :
  tlvs_size tlvs ≤ n → Forall (λ tv, length tv.2 ≤ n) tlvs.
Proof.
  induction tlvs as [|tv tlvs IH]; intros H; [constructor|].
  rewrite tlvs_size_cons in H. unfold tlv_size in H.
  constructor; [lia|]. apply IH. lia.
Qed.

(** Over a freshly initialised builder (zeroed buffer of [n] bytes, nothing
    used), a sequence of TLVs that fits is appended in full, and a cursor
    over the first [used] bytes reads it back. *)
Lemma builder_cursor_roundtrip n tlvs :
  n ≤ UINT16_MAX →
  tlvs_size tlvs ≤ n →
  ∃ b, add_tlvs {| buf := replicate n NUL; cap := n; used := 0 |} tlvs = (OS_OK, b) ∧
       used b = tlvs_size tlvs ∧
       take (used b) (buf b) = tlvs_wire tlvs ∧
       cursor_all (proto_cursor_init (buf b) (used b)) = Some (tlvs, OS_OK).
Proof.
  intros Hn Hfit.
  destruct (add_tlvs_ok tlvs {| buf := replicate n NUL; cap := n; used := 0 |})
    as (b & Hadd & [Hlen Hused] & Hcap & Hu & Hbuf); cbn [buf cap used]; try lia.
  { split; cbn [buf cap used]; [by rewrite length_replicate|lia]. }
  exists b. cbn [buf cap used] in *. rewrite take_0, app_nil_l in Hbuf.
  split_and!; [done|lia|done|].
  unfold cursor_all, proto_cursor_init. cbn [cur c_end mem].
  apply (cursor_walk_wire tlvs _ (drop (used b) (buf b))); cbn [cur c_end mem].
  - by rewrite drop_0, <- Hbuf, take_drop.
  - lia.
  - eapply Forall_impl; [by apply (tlvs_size_bound _ n)|].
    intros tv Htv. simpl in Htv. sz.
  - rewrite Nat.sub_0_r, Hu.
    clear. induction tlvs as [|tv tlvs IH]; [simpl; lia|].
    rewrite tlvs_size_cons. sz.
Qed.

(** C6 (framing): Add TLV calls that fit the response payload all succeed,
    Finish succeeds and stamps [header_size + sum (3 + len)], and a cursor
    over the finished frame's payload yields the same TLVs in order, then
    End. *)
Theorem framing_roundtrip (op st : ascii) (tlvs : list (ascii * list ascii)) :
  tlvs_size tlvs ≤ RSP_MAX - RSP_HDR_SZ →
  ∃ b rsp,
    add_tlvs (proto_rsp_init op st).2 tlvs = (OS_OK, b) ∧
    proto_rsp_finish (proto_rsp_init op st).1 b = (OS_OK, rsp) ∧
    rsp_len (rsp_hdr rsp) = RSP_HDR_SZ + tlvs_size tlvs ∧
    rsp_opcode (rsp_hdr rsp) = op ∧ rsp_status (rsp_hdr rsp) = st ∧
    cursor_all (proto_cursor_init (rsp_payload rsp)
                                  (rsp_len (rsp_hdr rsp) - RSP_HDR_SZ))
      = Some (tlvs, OS_OK).
Proof.
  intros Hfit.
  destruct (builder_cursor_roundtrip (RSP_MAX - RSP_HDR_SZ) tlvs)
    as (b & Hadd & Hused & _ & Hcur); [sz|done|].
  exists b. eexists. split; [exact Hadd|].
  unfold proto_rsp_finish, check_cap.
  destruct (decide (RSP_MAX < RSP_HDR_SZ + used b)) as [Hbad|_]; [sz|].
  assert (Hmod : (RSP_HDR_SZ + used b) mod U16_MOD = RSP_HDR_SZ + used b).
  { apply Nat.mod_small. sz. }
  split; [done|]. cbn [rsp_hdr rsp_len rsp_opcode rsp_status rsp_payload fst].
  rewrite Hmod. split_and!; try done; [lia|].
  replace (RSP_HDR_SZ + used b - RSP_HDR_SZ) with (used b) by lia. done.
Qed.

(** The same for the request builder. *)
Lemma framing_roundtrip_req (op : ascii) (pid : Z) (tlvs : list (ascii * list ascii)) :
  tlvs_size tlvs ≤ REQ_MAX - REQ_HDR_SZ →
  ∃ b req,
    add_tlvs (proto_req_init op pid).2 tlvs = (OS_OK, b) ∧
    proto_req_finish (proto_req_init op pid).1 b = (OS_OK, req) ∧
    req_len (req_hdr req) = REQ_HDR_SZ + tlvs_size tlvs ∧
    req_opcode (req_hdr req) = op ∧ req_pid (req_hdr req) = pid ∧
    cursor_all (proto_cursor_init (req_payload req)
                                  (req_len (req_hdr req) - REQ_HDR_SZ))
      = Some (tlvs, OS_OK).
Proof.
  intros Hfit.
  destruct (builder_cursor_roundtrip (REQ_MAX - REQ_HDR_SZ) tlvs)
    as (b & Hadd & Hused & _ & Hcur); [sz|done|].
  exists b. eexists. split; [exact Hadd|].
  unfold proto_req_finish, check_cap.
  destruct (decide (REQ_MAX < REQ_HDR_SZ + used b)) as [Hbad|_]; [sz|].
  assert (Hmod : (REQ_HDR_SZ + used b) mod U16_MOD = REQ_HDR_SZ + used b).
  { apply Nat.mod_small. sz. }
  split; [done|]. cbn [req_hdr req_len req_opcode req_pid req_payload fst].
  rewrite Hmod. split_and!; try done; [lia|].
  replace (REQ_HDR_SZ + used b - REQ_HDR_SZ) with (used b) by lia. done.
Qed.

Lemma framing_roundtrip_witness :
  ∃ b rsp,
    add_tlvs (proto_rsp_init "004" zero).2 banana_42 = (OS_OK, b) ∧
    proto_rsp_finish (proto_rsp_init "004" zero).1 b = (OS_OK, rsp) ∧
    rsp_len (rsp_hdr rsp) = RSP_HDR_SZ + tlvs_size banana_42 ∧
    rsp_opcode (rsp_hdr rsp) = "004"%char ∧ rsp_status (rsp_hdr rsp) = zero ∧
    cursor_all (proto_cursor_init (rsp_payload rsp)
                                  (rsp_len (rsp_hdr rsp) - RSP_HDR_SZ))
      = Some (banana_42, OS_OK).
Proof.
  apply (framing_roundtrip "004" zero banana_42).
  apply Nat.leb_le. vm_compute. reflexivity.
Defined.

End Framing.

(** ** Document store *)

Section StoreFacts.
Local Open Scope Z_scope.

Lemma to_int32_small x : -2147483648 ≤ x < 2147483648 → to_int32 x = x.
Proof. intros H. unfold to_int32. rewrite Z.mod_small; lia. Qed.

Lemma end_off_slots (s : store) : end_off s / DOC_SZ = Z.of_nat (length s).
Proof. unfold end_off, DOC_SZ. by rewrite Z.div_mul. Qed.

Lemma get_offset_slot k : Z.to_nat (get_offset k / DOC_SZ) = Z.to_nat k.
Proof. unfold get_offset, DOC_SZ. by rewrite Z.div_mul. Qed.

(** [stg_get_doc] in terms of the row at index [k]. *)
Lemma stg_get_doc_Some s k d :
  stg_get_doc s k = Some d ↔ 0 ≤ k ∧ s !! Z.to_nat k = Some d ∧ key d = k.
Proof.
  unfold stg_get_doc. rewrite get_offset_slot.
  destruct (decide (k < 0)) as [Hneg|Hpos].
  { split; [done|]. intros (? & _). lia. }
  destruct (decide (end_off s < get_offset k + DOC_SZ)) as [Hr|Hr].
  { split; [done|]. intros (_ & Hl & _). apply lookup_lt_Some in Hl.
    unfold end_off, get_offset, DOC_SZ in Hr. lia. }
  destruct (s !! Z.to_nat k) as [out|]; [|by intuition].
  destruct (decide (key out ≠ k)) as [Hne|Heq].
  - split; [done|]. intros (_ & [= ->] & ?). done.
  - apply dec_stable in Heq. split.
    + intros [= ->]. split_and!; [lia|done|done].
    + by intros (_ & [= ->] & _).
Qed.

Lemma stg_add_docs_keys docs : ∀ s,
  Z.of_nat (length s + length docs) ≤ 2147483648 →
  (stg_add_docs s docs).1 = seqZ (Z.of_nat (length s)) (Z.of_nat (length docs)).
Proof.
  induction docs as [|d docs IH]; intros s Hlen; [done|].
  cbn [stg_add_docs stg_add_doc]. rewrite end_off_slots.
  simpl length in *.
  rewrite to_int32_small by lia.
  specialize (IH (s ++ [with_key d (Z.of_nat (length s))])).
  destruct (stg_add_docs _ docs) as [ks s2]. cbn [fst] in *.
  replace (Z.of_nat (S (length docs))) with (Z.succ (Z.of_nat (length docs))) by lia.
  rewrite seqZ_cons by lia. f_equal.
  rewrite IH.
  - rewrite length_app. simpl. f_equal; lia.
  - rewrite length_app. simpl. lia.
Qed.

(** C7 (store key assignment): from the empty store, successive Adds
    return 0, 1, 2, ... (while the slot count fits the [int] key); and
    deleting a live key [k] makes [Get k] fail, leaves every other [Get]
    as it was, and leaves [Total] unchanged. *)
Theorem store_key_assignment (docs : list document_t) (s : store) (k : Z) (d : document_t) :
  Z.of_nat (length docs) ≤ 2147483648 →
  stg_get_doc s k = Some d →
  (stg_add_docs [] docs).1 = seqZ 0 (Z.of_nat (length docs)) ∧
  ∃ s', stg_del_doc s k = (OS_OK, s') ∧
        stg_get_doc s' k = None ∧
        (∀ k', k' ≠ k → stg_get_doc s' k' = stg_get_doc s k') ∧
        stg_total s' = stg_total s.
Proof.
  intros Hlen Hget. split.
  { by rewrite stg_add_docs_keys. }
  pose proof Hget as Hlive. apply stg_get_doc_Some in Hlive as (Hk & Hrow & Hkey).
  pose proof (lookup_lt_Some _ _ _ Hrow) as Hin.
  exists (<[Z.to_nat k := tomb]> s). split_and!.
  - unfold stg_del_doc. rewrite get_offset_slot.
    destruct (decide (k < 0)); [lia|].
    destruct (decide (end_off s < get_offset k + DOC_SZ)) as [Hr|_].
    { unfold end_off, get_offset, DOC_SZ in Hr. lia. }
    rewrite Hrow. destruct (decide (key d ≠ k)); [done|done].
  - destruct (stg_get_doc (<[_:=_]> s) k) as [d'|] eqn:Hd'; [|done].
    apply stg_get_doc_Some in Hd' as (_ & Hrow' & Hkey').
    rewrite list_lookup_insert_eq in Hrow' by done.
    injection Hrow' as <-. simpl in Hkey'. lia.
  - intros k' Hne.
    destruct (stg_get_doc s k') as [d'|] eqn:Hd'.
    + apply stg_get_doc_Some. apply stg_get_doc_Some in Hd' as (? & ? & ?).
      split_and!; [done| |done].
      rewrite list_lookup_insert_ne by lia. done.
    + destruct (stg_get_doc (<[_:=_]> s) k') as [d'|] eqn:Hd''; [|done].
      apply stg_get_doc_Some in Hd'' as (? & Hrow' & ?).
      rewrite list_lookup_insert_ne in Hrow' by lia.
      assert (stg_get_doc s k' = Some d') as Hx by (by apply stg_get_doc_Some).
      congruence.
  - unfold stg_total, end_off. by rewrite length_insert.
Qed.

Lemma store_key_assignment_witness :
  let s := (stg_add_docs [] [doc_T; doc_T; doc_T]).2 in
  (stg_add_docs [] [doc_T; doc_T; doc_T]).1 = [0; 1; 2] ∧
  ∃ s', stg_del_doc s 1 = (OS_OK, s') ∧
        stg_get_doc s' 1 = None ∧
        (∀ k', k' ≠ 1 → stg_get_doc s' k' = stg_get_doc s k') ∧
        stg_total s' = stg_total s.
Proof.
  apply (store_key_assignment [doc_T; doc_T; doc_T] _ 1 (with_key doc_T 1)).
  - vm_compute. discriminate.
  - vm_compute. reflexivity.
Defined.

End StoreFacts.

(** ** Keyword scanner *)

Section ScanFacts.
Context (kw : list ascii) (kw_len : nat) (stop_at_first : bool).

Lemma scan_buf_app l1 : ∀ st l2,
  scan_buf kw kw_len stop_at_first st (l1 ++ l2) =
  match scan_buf kw kw_len stop_at_first st l1 with
  | inl r => inl r
  | inr st' => scan_buf kw kw_len stop_at_first st' l2
  end.
Proof.
  induction l1 as [|c l1 IH]; intros st l2; [done|].
  simpl. destruct (scan_byte _ _ _ st c); [done|]. apply IH.
Qed.

(** Reading the file in [BUF_SZ] pieces is one pass over its bytes, and the
    fuel [doc_count_keyword] gives the loop is never used up. *)
Lemma read_loop_scan_buf fuel : ∀ st rest,
  length rest < fuel →
  read_loop fuel kw kw_len stop_at_first st rest =
  Some (scan_buf kw kw_len stop_at_first st rest).
Proof.
  assert (HB : 0 < BUF_SZ) by (unfold BUF_SZ; lia).
  induction fuel as [|fuel IH]; intros st rest Hlen; [lia|].
  cbn [read_loop].
  destruct (decide (length (take BUF_SZ rest) = 0)) as [Hz|Hnz].
  - rewrite length_take in Hz.
    destruct rest; [done|simpl in Hz; lia].
  - replace (scan_buf kw kw_len stop_at_first st rest)
      with (scan_buf kw kw_len stop_at_first st (take BUF_SZ rest ++ drop BUF_SZ rest))
      by (by rewrite take_drop).
    rewrite scan_buf_app.
    destruct (scan_buf _ _ _ st (take BUF_SZ rest)); [done|].
    apply IH. rewrite length_take in Hnz. rewrite length_drop. lia.
Qed.

End ScanFacts.

Section ScanSound.
Context (kw : list ascii).
Let kw_len := strlen kw.

Lemma strlen_le (s : list ascii) : strlen s ≤ length s.
Proof. induction s as [|c s IH]; simpl; [lia|]. destruct (decide _); lia. Qed.

Lemma byte_at_lookup (l : list ascii) i : i < length l → l !! i = Some (byte_at l i).
Proof.
  intros Hi. unfold byte_at. destruct (l !! i) eqn:E; [done|].
  apply lookup_ge_None in E. lia.
Qed.

Lemma scan_byte_sound seen st c :
  scan_inv kw seen st →
  match scan_byte kw kw_len true st c with
  | inl r => r = 1 ∧ contains (c_str kw) (seen ++ [c])
  | inr st' => scan_inv kw (seen ++ [c]) st'
  end.
Proof.
  intros [Hm [pre Hseen]]. pose proof (strlen_le kw) as Hle. fold kw_len in Hle.
  unfold scan_byte.
  destruct (decide (c = byte_at kw (match_ st))) as [Hc|Hc].
  - assert (Hlk : kw !! match_ st = Some c).
    { rewrite Hc. apply byte_at_lookup. lia. }
    assert (Hext : seen ++ [c] = pre ++ take (S (match_ st)) kw).
    { rewrite Hseen, (take_S_r _ _ c) by done. by rewrite <- app_assoc. }
    destruct (decide (S (match_ st) = kw_len)) as [Hfull|Hpart].
    + split; [done|]. exists pre, []. rewrite app_nil_r.
      unfold c_str. fold kw_len. by rewrite <- Hfull.
    + destruct (decide (c = "010"%char));
        (split; cbn [match_]; [lia|by exists pre]).
  - assert (Hnew : scan_inv kw (seen ++ [c])
              {| match_ := if decide (c = byte_at kw 0) then 1 else 0;
                 matched_line := matched_line st; out := out st |}).
    { destruct (decide (c = byte_at kw 0)) as [Hc0|Hc0]; split; cbn [match_].
      - destruct (decide (match_ st = 0)) as [Hz|Hz]; [|lia].
        rewrite Hz in Hc. done.
      - exists seen. f_equal. rewrite (take_S_r _ _ c); [done|].
        rewrite Hc0. apply byte_at_lookup. lia.
      - lia.
      - exists (seen ++ [c]). by rewrite take_0, app_nil_r. }
    destruct (decide (c = "010"%char)); [|done].
    destruct Hnew as [? ?]. split; done.
Qed.

Lemma scan_buf_sound buf : ∀ seen st,
  scan_inv kw seen st →
  match scan_buf kw kw_len true st buf with
  | inl r => r = 1 ∧ contains (c_str kw) (seen ++ buf)
  | inr st' => scan_inv kw (seen ++ buf) st'
  end.
Proof.
  induction buf as [|c buf IH]; intros seen st Hinv.
  - simpl. by rewrite app_nil_r.
  - simpl. pose proof (scan_byte_sound seen st c Hinv) as Hstep.
    destruct (scan_byte kw kw_len true st c) as [r|st'].
    + destruct Hstep as [-> (pre & post & Heq)]. split; [done|].
      exists pre, (post ++ buf).
      rewrite (cons_middle c), app_assoc, Heq. by rewrite <- !app_assoc.
    + specialize (IH (seen ++ [c]) st' Hstep).
      by rewrite <- app_assoc in IH.
Qed.

(** With [stop_at_first] set, a pass that does not return early has seen
    no completed match: the line flag and the counter are still clear. *)
Lemma scan_buf_stop_quiet buf : ∀ st,
  out st = 0 → matched_line st = false →
  match scan_buf kw kw_len true st buf with
  | inl _ => True
  | inr st' => out st' = 0 ∧ matched_line st' = false
  end.
Proof.
  induction buf as [|c buf IH]; intros st Ho Hml; [done|].
  simpl. unfold scan_byte.
  destruct (decide (c = byte_at kw (match_ st)));
    [destruct (decide (S (match_ st) = kw_len))|];
    destruct (decide (c = "010"%char)); try done;
    apply IH; cbn [out matched_line]; rewrite ?Hml; done.
Qed.

(** The scanner reports no false hit: a containment result of 1 is only
    given for a file that holds the keyword. *)
Lemma doc_contains_keyword_sound (e : env) (path : list ascii) :
  doc_contains_keyword e path kw = 1%Z →
  ∃ content, files e path = Some content ∧ contains (c_str kw) content.
Proof.
  unfold doc_contains_keyword, doc_count_keyword. fold kw_len.
  destruct (files e path) as [content|]; [|done].
  intros H. exists content. split; [done|].
  destruct (decide (kw_len = 0)) as [Hz|Hnz]; [done|].
  rewrite read_loop_scan_buf in H by lia.
  set (st0 := {| match_ := 0; matched_line := false; out := 0 |}) in *.
  pose proof (scan_buf_sound content [] st0) as Hs.
  pose proof (scan_buf_stop_quiet content st0 eq_refl eq_refl) as Hq.
  destruct (scan_buf kw kw_len true st0 content) as [r|st].
  - apply Hs. split; cbn [match_ st0]; [lia|]. by exists [].
  - destruct Hq as [Ho Hml]. rewrite Ho, Hml in H.
    by destruct (decide (0 < match_ st)).
Qed.

End ScanSound.

Section ScanExamples.

(** Scenario 4 of the specification: two lines of [f.txt] hold "apple". *)
Example list_count_apple :
  doc_count_keyword (env_f_txt (B "apple banana" ++ newline ++ B "apple" ++ newline))
                    f_txt (B "apple" ++ [NUL]) false = (OS_OK, 2).
Proof. vm_compute. reflexivity. Qed.

(** C1 (per-document scan): the property fails on the code.  The live
    document 0 holds "aaab", which contains the term "aab", yet the scan
    reports containment 0 and leaves bit 0 of the bitmap clear: after the
    mismatch on the third byte the matcher falls back to a match length of
    1 instead of 2. *)
Theorem scan_misses_term_after_partial_match :
  let e := env_f_txt (B "aaab") in
  let kw := B "aab" ++ [NUL] in
  stg_get_doc store_T 0 = Some doc_T ∧
  doc_build_path e store_T 0 PATH_MAX = Some f_txt ∧
  contains (c_str kw) (B "aaab") ∧
  doc_key_contains_keyword e store_T 0 kw = 0%Z ∧
  bmp_test (scan_parallel e store_T kw 1 1 [0%Z]).2 0 = false ∧
  sent (handle_s e store_T [STR (B "aab"); U32 1]).1
    = Some (OS_OK, wire_frame (op_byte OP_S) (B "[]")).
Proof.
  split_and!; try (vm_compute; reflexivity).
  exists (B "a"), []. reflexivity.
Qed.

(** C4 (final line without newline): the property fails on the code.  A file
    that is the single unterminated line "apple" has a completed match of
    "apple" on its last line, and the counter returns 0: the test at end
    of file also asks for [match > 0], which a completed match has just
    reset.  The line is counted when it is terminated, or when the file
    happens to end inside a new partial match. *)
Theorem unterminated_last_line_not_counted :
  let kw := B "apple" ++ [NUL] in
  doc_count_keyword (env_f_txt (B "apple")) f_txt kw false = (OS_OK, 0) ∧
  doc_count_keyword (env_f_txt (B "apple pie")) f_txt kw false = (OS_OK, 0) ∧
  doc_count_keyword (env_f_txt (B "apple" ++ newline)) f_txt kw false = (OS_OK, 1) ∧
  doc_count_keyword (env_f_txt (B "apple a")) f_txt kw false = (OS_OK, 1).
Proof. split_and!; vm_compute; reflexivity. Qed.

End ScanExamples.

(** ** Handlers *)

Section KeywordBuffer.

Lemma copy_kw_short term : length term ≤ 255 → copy_kw term = term ++ [NUL].
Proof.
  intros H. unfold copy_kw.
  destruct (decide (256 ≤ length term)); [lia|]. by rewrite firstn_all.
Qed.

Lemma copy_kw_long term : 255 < length term → copy_kw term = take 255 term ++ [NUL].
Proof. intros H. unfold copy_kw. destruct (decide (256 ≤ length term)); [done|lia]. Qed.

End KeywordBuffer.

Section Bitmap.
Local Open Scope Z_scope.

Lemma testbit_1 i : Z.testbit 1 i = bool_decide (i = 0).
Proof.
  destruct (decide (i = 0)) as [->|Hne]; [done|].
  rewrite bool_decide_eq_false_2 by done.
  destruct (decide (i < 0)); [apply Z.testbit_neg_r; lia|].
  apply Z.bits_above_log2; simpl; lia.
Qed.

Lemma land_mask_testbit b m :
  0 ≤ m → Z.land b (Z.shiftl 1 m) = if Z.testbit b m then Z.shiftl 1 m else 0.
Proof.
  intros Hm. apply Z.bits_inj'. intros n Hn.
  rewrite Z.land_spec, Z.shiftl_spec, testbit_1 by done.
  destruct (decide (n - m = 0)) as [Heq|Hne].
  - assert (n = m) as -> by lia. rewrite bool_decide_eq_true_2, andb_true_r by done.
    destruct (Z.testbit b m) eqn:Hb; [|by rewrite Z.bits_0].
    by rewrite Z.shiftl_spec, Z.sub_diag.
  - rewrite bool_decide_eq_false_2, andb_false_r by done.
    destruct (Z.testbit b m); [|by rewrite Z.bits_0].
    by rewrite Z.shiftl_spec, testbit_1, bool_decide_eq_false_2.
Qed.

Lemma shiftl_1_nonzero m : 0 ≤ m → Z.shiftl 1 m ≠ 0.
Proof. intros Hm. rewrite Z.shiftl_1_l. apply Z.pow_nonzero; lia. Qed.

Lemma mask_bit k : 0 ≤ Z.land k 7.
Proof. apply Z.land_nonneg. lia. Qed.

(** [bmp_test] reads bit [k & 7] of byte [k >> 3]. *)
Lemma bmp_test_testbit bmp k :
  bmp_test bmp k =
  Z.testbit (default 0 (bmp !! Z.to_nat (BITSET_BYTE k))) (Z.land k 7).
Proof.
  unfold bmp_test, BITSET_MASK. rewrite land_mask_testbit by apply mask_bit.
  destruct (Z.testbit _ _); [|done].
  pose proof (shiftl_1_nonzero (Z.land k 7) (mask_bit k)) as Hnz.
  destruct (Z.eqb_spec (Z.shiftl 1 (Z.land k 7)) 0); [done|done].
Qed.

Lemma key_split k : 0 ≤ k → k = 8 * BITSET_BYTE k + Z.land k 7.
Proof.
  intros Hk. unfold BITSET_BYTE. rewrite Z.shiftr_div_pow2 by lia.
  change 7 with (Z.ones 3). rewrite Z.land_ones by lia.
  change (2 ^ 3) with 8. apply Z.div_mod. lia.
Qed.

Lemma bmp_set_length bmp k : length (bmp_set bmp k) = length bmp.
Proof. unfold bmp_set. apply length_insert. Qed.

Lemma bmp_test_set bmp k j :
  0 ≤ k → 0 ≤ j → (Z.to_nat (BITSET_BYTE k) < length bmp)%nat →
  bmp_test (bmp_set bmp k) j = bmp_test bmp j || bool_decide (j = k).
Proof.
  intros Hk Hj Hin. rewrite !bmp_test_testbit. unfold bmp_set.
  assert (0 ≤ BITSET_BYTE k ∧ 0 ≤ BITSET_BYTE j) as [Hbk Hbj].
  { unfold BITSET_BYTE. rewrite !Z.shiftr_nonneg. done. }
  destruct (decide (BITSET_BYTE j = BITSET_BYTE k)) as [Heq|Hne].
  - rewrite Heq, list_lookup_insert_eq by done. cbn [default from_option id].
    rewrite Z.lor_spec. f_equal.
    unfold BITSET_MASK. rewrite Z.shiftl_spec by apply mask_bit.
    pose proof (key_split k Hk). pose proof (key_split j Hj).
    pose proof (mask_bit k). pose proof (mask_bit j).
    rewrite testbit_1. apply bool_decide_ext. lia.
  - rewrite list_lookup_insert_ne by lia.
    rewrite bool_decide_eq_false_2 by congruence. by rewrite orb_false_r.
Qed.

Lemma bmp_test_zero n k : bmp_test (replicate n 0) k = false.
Proof.
  rewrite bmp_test_testbit.
  destruct (replicate n 0 !! _) as [b|] eqn:E; cbn [default from_option].
  - apply lookup_replicate in E as [-> _]. apply Z.bits_0.
  - apply Z.bits_0.
Qed.

End Bitmap.

Section Workers.
Context (e : env) (s : store) (kw : list ascii) (total : Z).
Local Open Scope Z_scope.

Let step (st : shared * worker) : shared * worker :=
  worker_step e s kw total st.1 st.2.

(** The counter is an [int]. *)
Local Abbreviation counter_ok sh := (-2147483648 ≤ next_key sh < 2147483648).

Lemma to_int32_range x : -2147483648 ≤ to_int32 x < 2147483648.
Proof. unfold to_int32. pose proof (Z.mod_pos_bound (x + 2147483648) 4294967296). lia. Qed.

Lemma step_exit sh : step (sh, W_exit) = (sh, W_exit).
Proof. done. Qed.

Lemma iter_exit n sh : Nat.iter n step (sh, W_exit) = (sh, W_exit).
Proof. induction n as [|n IH]; [done|]. by rewrite Nat.iter_succ, IH. Qed.

Lemma iter_succ_r n st : Nat.iter (S n) step st = Nat.iter n step (step st).
Proof. apply Nat.iter_succ_r. Qed.

Lemma iter_add n m st : Nat.iter (n + m) step st = Nat.iter m step (Nat.iter n step st).
Proof. rewrite Nat.add_comm. apply Nat.iter_add. Qed.

Lemma step_counter_ok st : counter_ok st.1 → counter_ok (step st).1.
Proof.
  destruct st as [sh w]. unfold step, worker_step. cbn [fst snd].
  intros Hok. pose proof (to_int32_range (next_key sh + 1)).
  destruct w; repeat (case_match || case_decide); cbn [fst next_key]; done.
Qed.

Lemma iter_counter_ok n st : counter_ok st.1 → counter_ok (Nat.iter n step st).1.
Proof.
  induction n as [|n IH]; [done|]. intros Hok. rewrite Nat.iter_succ.
  by apply step_counter_ok, IH.
Qed.

(** Every step of a worker that has not exited brings it nearer to its
    exit. *)
Lemma steps_left_decreases sh w :
  total < 2147483648 → counter_ok sh → w ≠ W_exit →
  (steps_left total (step (sh, w)).1 (step (sh, w)).2 < steps_left total sh w)%nat.
Proof.
  intros Htot Hok Hw. unfold step, worker_step in *. cbn [fst snd].
  destruct w; try done;
    repeat (case_match || case_decide); cbn [fst snd steps_left next_key]; try lia.
  all: rewrite to_int32_small by lia; lia.
Qed.

Lemma iter_reaches_exit n : ∀ st,
  total < 2147483648 → counter_ok st.1 →
  (steps_left total st.1 st.2 ≤ n)%nat → (Nat.iter n step st).2 = W_exit.
Proof.
  induction n as [|n IH]; intros [sh w] Htot Hok Hn; cbn [fst snd] in *.
  - destruct w; cbn [steps_left] in Hn; try lia. done.
  - assert (w = W_exit ∨ w ≠ W_exit) as [->|Hw] by (destruct w; auto);
      [by rewrite iter_exit|].
    rewrite iter_succ_r. apply IH; [done|by apply (step_counter_ok (sh, w))|].
    pose proof (steps_left_decreases sh w Htot Hok Hw). lia.
Qed.

(** A worker that runs alone exits. *)
Lemma run_alone_exits sh w :
  total < 2147483648 → counter_ok sh → (run_alone e s kw total sh w).2 = W_exit.
Proof. intros Htot Hok. by apply (iter_reaches_exit _ (sh, w)). Qed.

Lemma exits_agree n m st :
  (Nat.iter n step st).2 = W_exit → (Nat.iter m step st).2 = W_exit →
  Nat.iter n step st = Nat.iter m step st.
Proof.
  assert (Hle : ∀ n m, (n ≤ m)%nat → (Nat.iter n step st).2 = W_exit →
                       Nat.iter m step st = Nat.iter n step st).
  { clear. intros n m Hle Hn. replace m with (n + (m - n))%nat by lia.
    rewrite iter_add. destruct (Nat.iter n step st) as [sh w]. cbn [snd] in Hn. subst w.
    apply iter_exit. }
  intros Hn Hm. destruct (decide (n ≤ m)%nat).
  - symmetry. by apply Hle.
  - apply Hle; [lia|done].
Qed.

(** Where a worker that runs alone ends does not depend on how many of
    its steps it has taken already. *)
Lemma run_alone_step sh w :
  total < 2147483648 → counter_ok sh →
  run_alone e s kw total (step (sh, w)).1 (step (sh, w)).2 = run_alone e s kw total sh w.
Proof.
  intros Htot Hok. unfold run_alone. fold step.
  pose proof (step_counter_ok (sh, w) Hok) as Hok'.
  destruct (step (sh, w)) as [sh' w'] eqn:Hstep. cbn [fst snd] in *.
  pose proof (iter_reaches_exit _ (sh', w') Htot Hok' (Nat.le_refl _)) as H1.
  pose proof (iter_reaches_exit _ (sh, w) Htot Hok (Nat.le_refl _)) as H2.
  cbn [fst snd] in H1, H2. rewrite <- Hstep in H1 |- *. rewrite <- iter_succ_r in H1 |- *.
  by apply exits_agree.
Qed.

Lemma run_alone_iter n : ∀ sh w,
  total < 2147483648 → counter_ok sh →
  run_alone e s kw total (Nat.iter n step (sh, w)).1 (Nat.iter n step (sh, w)).2
  = run_alone e s kw total sh w.
Proof.
  induction n as [|n IH]; intros sh w Htot Hok; [done|].
  rewrite Nat.iter_succ.
  destruct (Nat.iter n step (sh, w)) as [sh1 w1] eqn:Hn.
  rewrite run_alone_step; [|done|].
  - specialize (IH sh w Htot Hok). by rewrite Hn in IH.
  - pose proof (iter_counter_ok n (sh, w) Hok) as H. by rewrite Hn in H.
Qed.

(** With one worker the schedule does not matter. *)
Lemma one_worker_schedule sc : ∀ sh w,
  total < 2147483648 → counter_ok sh →
  ∃ sh' w', foldl (sched_step e s kw total) (sh, [w]) sc = (sh', [w']) ∧
            run_alone e s kw total sh' w' = run_alone e s kw total sh w.
Proof.
  induction sc as [|i sc IH]; intros sh w Htot Hok; [by exists sh, w|].
  cbn [foldl].
  assert (Hone : ∃ sh1 w1, sched_step e s kw total (sh, [w]) i = (sh1, [w1]) ∧
                           counter_ok sh1 ∧
                           run_alone e s kw total sh1 w1 = run_alone e s kw total sh w).
  { unfold sched_step. cbn [fst snd].
    destruct i as [|i]; cbn [lookup list_lookup]; [|by exists sh, w].
    pose proof (run_alone_step sh w Htot Hok) as Hstep.
    pose proof (step_counter_ok (sh, w) Hok) as Hok'.
    unfold step in Hstep, Hok'. cbn [fst snd] in Hstep, Hok'.
    destruct (worker_step e s kw total sh w) as [sh' w']. cbn [fst snd] in *.
    by exists sh', w'. }
  destruct Hone as (sh1 & w1 & -> & Hok1 & Hrun).
  destruct (IH sh1 w1 Htot Hok1) as (sh' & w' & Hfold & Hrun').
  exists sh', w'. split; [done|]. by rewrite Hrun'.
Qed.

(** A worker that is alone handles the key it draws as [scan_key] says,
    and is back at the draw of the next key. *)
Lemma alone_key sh :
  0 ≤ next_key sh < total → total < 2147483648 →
  ∃ n sh', Nat.iter n step (sh, W_draw) = (sh', W_draw) ∧
           next_key sh' = next_key sh + 1 ∧
           bits sh' = scan_key e s kw (bits sh) (next_key sh).
Proof.
  intros Hk Htot. set (k := next_key sh) in *.
  unfold scan_key, doc_key_contains_keyword, doc_build_path, stg_get_doc.
  rewrite get_offset_slot.
  destruct (decide (PATH_MAX = 0%nat)) as [Hp|Hp]; [by vm_compute in Hp|].
  assert (Hdraw : step (sh, W_draw)
                  = match docroot_get e with
                    | None => ({| next_key := k + 1; stg_off := stg_off sh; bits := bits sh |},
                               W_draw)
                    | Some _ => ({| next_key := k + 1; stg_off := stg_off sh;
                                    bits := bits sh |}, W_seek_end k)
                    end).
  { unfold step, worker_step. cbn [fst snd]. fold k.
    rewrite to_int32_small by lia.
    destruct (decide (total ≤ k)); [lia|].
    destruct (decide (PATH_MAX = 0%nat)); [done|].
    destruct (docroot_get e); [|done]. destruct (decide (k < 0)); [lia|done]. }
  destruct (docroot_get e) as [root|] eqn:Hroot.
  2: { exists 1%nat. eexists. rewrite Nat.iter_succ. change (Nat.iter 0 step ?x) with x.
       rewrite Hdraw. split; [reflexivity|].
       cbn [next_key bits]. split; [done|]. by destruct (decide _). }
  destruct (decide (k < 0)) as [|_]; [lia|].
  destruct (decide (end_off s < get_offset k + DOC_SZ)) as [Hout|Hin].
  { exists 2%nat. eexists. rewrite !Nat.iter_succ. change (Nat.iter 0 step ?x) with x.
    rewrite Hdraw.
    unfold step, worker_step. cbn [fst snd].
    destruct (decide (end_off s < get_offset k + DOC_SZ)); [|done].
    split; [reflexivity|]. cbn [next_key bits]. split; [done|]. by destruct (decide _). }
  assert (Hread : Nat.iter 3 step (sh, W_draw)
                  = ({| next_key := k + 1; stg_off := get_offset k; bits := bits sh |},
                     W_read k)).
  { rewrite !Nat.iter_succ. change (Nat.iter 0 step ?x) with x.
    rewrite Hdraw. unfold step, worker_step. cbn [fst snd next_key bits].
    by destruct (decide (end_off s < get_offset k + DOC_SZ)). }
  assert (Hslot : Z.to_nat (get_offset k / DOC_SZ) = Z.to_nat k) by apply get_offset_slot.
  destruct (s !! Z.to_nat k) as [out|] eqn:Hrow.
  2: { exists 4%nat. eexists. rewrite (Nat.iter_succ 3), Hread.
       unfold step, worker_step. cbn [fst snd stg_off]. rewrite Hslot, Hrow.
       split; [reflexivity|]. cbn [next_key bits]. split; [done|]. by destruct (decide _). }
  assert (Hhit : hit_after_read e k out kw
                 = bool_decide
                     (match (if decide (key out ≠ k) then None else Some out) with
                      | Some doc =>
                          if decide (key doc = -1) then None
                          else if decide (PATH_MAX ≤ length (root ++ B "/" ++ c_str (path doc)))%nat
                               then None else Some (root ++ B "/" ++ c_str (path doc))
                      | None => None
                      end ≫= (λ p, Some (doc_contains_keyword e p kw)) = Some 1)).
  { unfold hit_after_read. rewrite Hroot.
    destruct (decide (key out ≠ k)); [by rewrite bool_decide_eq_false_2|].
    destruct (decide (key out = -1)); [by rewrite bool_decide_eq_false_2|].
    destruct (decide _); [by rewrite bool_decide_eq_false_2|].
    cbn [mbind option_bind]. apply bool_decide_ext. split; congruence. }
  assert (Hafter : step ({| next_key := k + 1; stg_off := get_offset k; bits := bits sh |},
                         W_read k)
                   = ({| next_key := k + 1; stg_off := get_offset k + DOC_SZ;
                         bits := bits sh |},
                      if hit_after_read e k out kw then W_or_load k else W_draw)).
  { unfold step, worker_step. cbn [fst snd stg_off next_key bits]. rewrite Hslot, Hrow.
    by destruct (hit_after_read e k out kw). }
  destruct (hit_after_read e k out kw) eqn:Hh.
  - exists 6%nat. eexists. rewrite (Nat.iter_succ 5), (Nat.iter_succ 4), (Nat.iter_succ 3).
    rewrite Hread, Hafter. unfold step, worker_step. cbn [fst snd next_key bits stg_off].
    split; [reflexivity|]. cbn [next_key bits]. split; [done|].
    symmetry in Hhit. apply bool_decide_eq_true in Hhit.
    destruct (decide (key out ≠ k)); [done|].
    destruct (decide (key out = -1)); [done|].
    destruct (decide _); [done|]. cbn [mbind option_bind] in Hhit.
    injection Hhit as Hhit. by destruct (decide _).
  - exists 4%nat. eexists. rewrite (Nat.iter_succ 3).
    rewrite Hread, Hafter. split; [reflexivity|]. cbn [next_key bits]. split; [done|].
    symmetry in Hhit. apply bool_decide_eq_false in Hhit.
    destruct (decide (key out ≠ k)); [by destruct (decide _)|].
    destruct (decide (key out = -1)); [by destruct (decide _)|].
    destruct (decide (PATH_MAX ≤ _)%nat); [by destruct (decide _)|].
    cbn [mbind option_bind] in Hhit.
    destruct (decide _) as [Hone|]; [|done]. destruct Hhit. exact (f_equal Some Hone).
Qed.

(** A worker that is alone from the draw of key [next_key] on handles the
    keys up to [total] one after the other. *)
Lemma alone_keys n : ∀ sh,
  Z.to_nat (total - next_key sh) = n → 0 ≤ next_key sh → total < 2147483648 →
  bits (run_alone e s kw total sh W_draw).1
  = foldl (scan_key e s kw) (bits sh) (seqZ (next_key sh) (total - next_key sh)).
Proof.
  induction n as [|n IH]; intros sh Hn Hk Htot.
  - rewrite seqZ_nil by lia. unfold run_alone. cbn [steps_left]. rewrite Hn.
    change (1 + 6 * 0)%nat with 1%nat. rewrite Nat.iter_succ.
    change (Nat.iter 0 ?f ?x) with x. unfold worker_step. cbn [fst snd].
    by destruct (decide (total ≤ next_key sh)); [|lia].
  - destruct (alone_key sh ltac:(lia) Htot) as (j & sh' & Hj & Hnext & Hbits).
    assert (Hok : counter_ok sh) by lia.
    pose proof (run_alone_iter j sh W_draw Htot Hok) as Hrun. fold step in Hrun.
    rewrite Hj in Hrun. cbn [fst snd] in Hrun. rewrite <- Hrun.
    rewrite IH by lia. rewrite Hbits, Hnext.
    rewrite (seqZ_cons (next_key sh)) by lia. cbn [foldl].
    by replace (Z.pred (total - next_key sh)) with (total - (next_key sh + 1)) by lia.
Qed.

(** [scan_parallel] with one effective worker: the keys are scanned one
    after the other, whatever the schedule. *)
Lemma scan_parallel_one_worker workers bmp :
  0 ≤ total < 2147483648 → effective_workers e total workers = 1 →
  scan_parallel e s kw total workers bmp
  = (OS_OK, foldl (scan_key e s kw) bmp (seqZ 0 total)).
Proof.
  intros Htot Hone. unfold scan_parallel. rewrite Hone.
  destruct (decide (1 = 0)) as [|_]; [done|]. cbv zeta. f_equal.
  change (replicate (Z.to_nat 1) W_draw) with [W_draw].
  destruct (one_worker_schedule (sched e)
              {| next_key := 0; stg_off := end_off s; bits := bmp |} W_draw)
    as (sh' & w' & -> & Hrun); [lia|cbn [next_key]; lia|].
  cbn [fst snd foldl]. rewrite Hrun.
  rewrite (alone_keys (Z.to_nat total)); cbn [next_key bits]; [|lia..].
  by rewrite Z.sub_0_r.
Qed.

End Workers.

Section ScanParallel.
Context (e : env) (s : store) (kw : list ascii).
Local Open Scope Z_scope.

Lemma scan_key_length bmp k : length (scan_key e s kw bmp k) = length bmp.
Proof. unfold scan_key. destruct (decide _); [apply bmp_set_length|done]. Qed.

(** After the workers have drawn the keys [ks], the bits set are those
    that were set before and those of the drawn keys whose scan hit. *)
Lemma scan_fold_test ks : ∀ bmp j,
  Forall (λ k, 0 ≤ k ∧ (Z.to_nat (BITSET_BYTE k) < length bmp)%nat) ks →
  0 ≤ j →
  bmp_test (foldl (scan_key e s kw) bmp ks) j =
  bmp_test bmp j
  || (bool_decide (j ∈ ks) && bool_decide (doc_key_contains_keyword e s j kw = 1)).
Proof.
  induction ks as [|k ks IH]; intros bmp j Hks Hj.
  - simpl. by rewrite orb_false_r.
  - apply Forall_cons in Hks as [[Hk Hin] Hks]. cbn [foldl].
    rewrite IH; [|by rewrite scan_key_length|done].
    unfold scan_key at 1.
    destruct (decide (j = k)) as [->|Hne].
    + rewrite (bool_decide_eq_true_2 (k ∈ k :: ks)) by constructor.
      destruct (decide (doc_key_contains_keyword e s k kw = 1)) as [Hhit|Hmiss].
      * rewrite bmp_test_set by done.
        rewrite (bool_decide_eq_true_2 (k = k)) by done.
        rewrite (bool_decide_eq_true_2 (doc_key_contains_keyword e s k kw = 1)) by done.
        by destruct (bmp_test bmp k), (bool_decide (k ∈ ks)).
      * rewrite (bool_decide_eq_false_2 (doc_key_contains_keyword e s k kw = 1)) by done.
        by destruct (bmp_test bmp k), (bool_decide (k ∈ ks)).
    + assert (bool_decide (j ∈ k :: ks) = bool_decide (j ∈ ks)) as ->.
      { apply bool_decide_ext. rewrite elem_of_cons.
        split; [intros [?|?]; [congruence|done]|by right]. }
      destruct (decide (doc_key_contains_keyword e s k kw = 1)); [|done].
      rewrite bmp_test_set, (bool_decide_eq_false_2 (j = k)) by done.
      by destruct (bmp_test bmp j), (bool_decide (j ∈ ks)).
Qed.

Lemma byte_of_key_in_bitmap total k :
  0 ≤ k < total → (Z.to_nat (BITSET_BYTE k) < Z.to_nat ((total + 7) / 8))%nat.
Proof.
  intros Hk. unfold BITSET_BYTE. rewrite Z.shiftr_div_pow2 by lia.
  change (2 ^ 3) with 8.
  assert (0 ≤ k / 8) by (apply Z.div_pos; lia).
  assert (k / 8 < (total + 7) / 8); [|lia].
  apply Z.div_lt_upper_bound; [lia|].
  pose proof (Z.mul_succ_div_gt (total + 7) 8). lia.
Qed.

(** [scan_parallel] on a zeroed bitmap of [ceil(total / 8)] bytes sets
    exactly the bits of the keys whose scan hit. *)
Lemma scan_parallel_bits total workers j :
  0 < total < 2147483648 →
  effective_workers e total workers = 1 →
  0 ≤ j < total →
  let bmp := replicate (Z.to_nat ((total + 7) / 8)) 0 in
  (scan_parallel e s kw total workers bmp).1 = OS_OK ∧
  bmp_test (scan_parallel e s kw total workers bmp).2 j
    = bool_decide (doc_key_contains_keyword e s j kw = 1).
Proof.
  intros Htot Hone Hj bmp.
  rewrite scan_parallel_one_worker by (done || lia). split; [done|]. cbn [snd].
  rewrite scan_fold_test; [|apply Forall_forall; intros k Hk|lia].
  - subst bmp. rewrite bmp_test_zero, orb_false_l.
    rewrite (bool_decide_eq_true_2 (j ∈ seqZ 0 total)); [done|].
    apply elem_of_seqZ. lia.
  - apply elem_of_seqZ in Hk. split; [lia|].
    subst bmp. rewrite length_replicate. apply byte_of_key_in_bitmap. lia.
Qed.

End ScanParallel.

Section ListText.
Local Open Scope Z_scope.

(** The printing loop of [handle_s] writes the set keys of [ks] in order,
    a separator in front of each but the first. *)
Lemma list_step_fold bmp ks : ∀ text first,
  foldl (list_step bmp) (text, first) ks =
  match filter (λ k, bmp_test bmp k = true) ks with
  | [] => (text, first)
  | hs => (text ++ (if first then [] else B ", ") ++ join_keys hs, false)
  end.
Proof.
  induction ks as [|k ks IH]; intros text first; [done|].
  cbn [foldl]. unfold list_step at 2. cbn [fst snd].
  destruct (bmp_test bmp k) eqn:Hk.
  - rewrite filter_cons_True by done. rewrite IH.
    destruct (filter _ ks) as [|h hs].
    + cbn [join_keys]. by rewrite app_nil_r.
    + cbn [join_keys]. f_equal. by rewrite <- !app_assoc.
  - rewrite filter_cons_False by (by rewrite Hk). apply IH.
Qed.

Lemma build_list_spec bmp total :
  build_list bmp total
  = spec_hit_list (filter (λ k, bmp_test bmp k = true) (seqZ 0 total)).
Proof.
  unfold build_list, spec_hit_list. rewrite list_step_fold.
  by destruct (filter _ _).
Qed.

Lemma filter_ext_elem_of {A} (P Q : A → Prop) `{!∀ x, Decision (P x), !∀ x, Decision (Q x)}
      (l : list A) :
  (∀ x, x ∈ l → P x ↔ Q x) → filter P l = filter Q l.
Proof.
  induction l as [|a l IH]; intros Hext; [done|].
  assert (filter P l = filter Q l) as Hl.
  { apply IH. intros x Hx. apply Hext. by right. }
  destruct (decide (P a)) as [HP|HP].
  - rewrite !filter_cons_True, Hl; [done| |done]. apply Hext; [by left|done].
  - rewrite !filter_cons_False, Hl; [done| |done].
    intros HQ. apply HP, Hext; [by left|done].
Qed.

Lemma seqZ_sorted m n : StronglySorted Z.lt (seqZ m n).
Proof.
  destruct (decide (0 ≤ n)) as [Hn|Hn]; [|rewrite seqZ_nil by lia; constructor].
  rewrite <- (Z2Nat.id n) by done. generalize (Z.to_nat n). clear. intros k.
  revert m. induction k as [|k IH]; intros m; [constructor|].
  rewrite seqZ_cons by lia. constructor.
  - replace (Z.pred (Z.of_nat (S k))) with (Z.of_nat k) by lia. apply IH.
  - apply Forall_forall. intros x Hx. apply elem_of_seqZ in Hx. lia.
Qed.

Lemma filter_sorted (P : Z → Prop) `{!∀ x, Decision (P x)} l :
  StronglySorted Z.lt l → StronglySorted Z.lt (filter P l).
Proof.
  induction 1 as [|a l Hl IH Ha]; [constructor|].
  destruct (decide (P a)).
  - rewrite filter_cons_True by done. constructor; [done|].
    apply Forall_forall. intros x Hx. apply list_elem_of_filter in Hx as [_ Hx].
    by eapply Forall_forall in Ha.
  - by rewrite filter_cons_False.
Qed.

End ListText.

Section NoNul.

Lemma strlen_no_nul l rest : no_nul l → strlen (l ++ NUL :: rest) = length l.
Proof.
  induction 1 as [|c l Hc _ IH]; simpl.
  - by destruct (decide (NUL = NUL)).
  - destruct (decide (c = NUL)); [done|]. by rewrite IH.
Qed.

Lemma c_str_no_nul l : no_nul l → c_str (l ++ [NUL]) = l.
Proof.
  intros H. unfold c_str. rewrite strlen_no_nul by done. by rewrite take_app_length.
Qed.

Lemma no_nul_app l1 l2 : no_nul l1 → no_nul l2 → no_nul (l1 ++ l2).
Proof. apply Forall_app_2. Qed.

Lemma uint_no_nul d : no_nul (list_ascii_of_string (NilEmpty.string_of_uint d)).
Proof.
  induction d; cbn [NilEmpty.string_of_uint list_ascii_of_string];
    [constructor|constructor; [done|assumption]..].
Qed.

Lemma fmt_d_no_nul k : no_nul (fmt_d k).
Proof.
  unfold fmt_d. destruct (Z.to_int k) as [d|d]; cbn [NilZero.string_of_int].
  - unfold NilZero.string_of_uint. destruct d; try apply uint_no_nul.
    by repeat constructor.
  - cbn [list_ascii_of_string]. constructor; [done|].
    unfold NilZero.string_of_uint. destruct d; try apply uint_no_nul.
    by repeat constructor.
Qed.

Lemma join_keys_no_nul ks : no_nul (join_keys ks).
Proof.
  induction ks as [|k ks IH]; [constructor|].
  cbn [join_keys]. apply no_nul_app; [apply fmt_d_no_nul|].
  destruct ks; [constructor|].
  apply no_nul_app; [by repeat constructor|done].
Qed.

Lemma spec_hit_list_no_nul ks : no_nul (spec_hit_list ks).
Proof.
  unfold spec_hit_list.
  repeat apply no_nul_app; [by repeat constructor|apply join_keys_no_nul|by repeat constructor].
Qed.

End NoNul.

Section SimpleResponse.

Lemma tlvs_size_single t v : tlvs_size [(t, v)] = TLV_HDR_SZ + length v.
Proof. rewrite tlvs_size_cons. unfold tlv_size, tlvs_size. simpl. lia. Qed.

(** [proto_build_simple_rsp] on a NUL-free text that fits the payload: the
    frame holds the one string TLV. *)
Lemma simple_rsp_text op text :
  no_nul text →
  length text ≤ RSP_MAX - RSP_HDR_SZ - TLV_HDR_SZ →
  let rsp := proto_build_simple_rsp op (Some (text ++ [NUL])) in
  rsp_opcode (rsp_hdr rsp) = op ∧
  rsp_status (rsp_hdr rsp) = zero ∧
  rsp_len (rsp_hdr rsp) = RSP_HDR_SZ + TLV_HDR_SZ + length text ∧
  cursor_all (proto_cursor_init (rsp_payload rsp) (rsp_len (rsp_hdr rsp) - RSP_HDR_SZ))
    = Some ([(ARG_STR, text)], OS_OK) ∧
  proto_send_rsp rsp
    = u16_le (RSP_HDR_SZ + TLV_HDR_SZ + length text) ++ [op; zero]
      ++ tlv_wire (ARG_STR, text).
Proof.
  intros Hnn Hfit rsp. subst rsp.
  unfold proto_build_simple_rsp, proto_rsp_init. cbv beta iota zeta.
  rewrite c_str_no_nul by done.
  destruct (builder_cursor_roundtrip (RSP_MAX - RSP_HDR_SZ) [(ARG_STR, text)])
    as (b & Hadd & Hused & Hwire & Hcur); [sz|rewrite tlvs_size_single; sz|].
  cbn [add_tlvs] in Hadd.
  destruct (proto_add_tlv _ ARG_STR text) as [st b'] eqn:Hone.
  assert (st = OS_OK ∧ b' = b) as [-> ->] by (destruct st; by simplify_eq).
  cbn [snd]. clear Hadd Hone.
  rewrite tlvs_size_single in Hused.
  unfold proto_rsp_finish, check_cap.
  destruct (decide (RSP_MAX < RSP_HDR_SZ + used b)) as [Hbad|_]; [sz|].
  assert (Hmod : (RSP_HDR_SZ + used b) mod U16_MOD = RSP_HDR_SZ + TLV_HDR_SZ + length text).
  { rewrite Nat.mod_small; sz. }
  cbn [snd rsp_hdr rsp_len rsp_opcode rsp_status rsp_payload]. rewrite Hmod.
  split_and!; try done.
  - replace (RSP_HDR_SZ + TLV_HDR_SZ + length text - RSP_HDR_SZ) with (used b) by lia.
    done.
  - unfold proto_send_rsp, rsp_bytes.
    cbn [rsp_hdr rsp_len rsp_opcode rsp_status rsp_payload].
    rewrite !app_assoc.
    rewrite take_app_ge by (cbn [length app u16_le]; sz).
    f_equal. cbn [length app u16_le].
    replace (RSP_HDR_SZ + TLV_HDR_SZ + length text - 4) with (used b) by sz.
    rewrite Hwire. unfold tlvs_wire. cbn [fmap list_fmap mjoin list_join].
    by rewrite app_nil_r.
Qed.

(** A response built from TLVs that fit: what [proto_rsp_finish] stamps,
    what a cursor reads back, and the bytes that go out. *)
Lemma rsp_of_tlvs op st tlvs :
  tlvs_size tlvs ≤ RSP_MAX - RSP_HDR_SZ →
  ∃ b, add_tlvs (proto_rsp_init op st).2 tlvs = (OS_OK, b) ∧
       let rsp := (proto_rsp_finish (proto_rsp_init op st).1 b).2 in
       rsp_opcode (rsp_hdr rsp) = op ∧
       rsp_status (rsp_hdr rsp) = st ∧
       rsp_len (rsp_hdr rsp) = RSP_HDR_SZ + tlvs_size tlvs ∧
       cursor_all (proto_cursor_init (rsp_payload rsp) (rsp_len (rsp_hdr rsp) - RSP_HDR_SZ))
         = Some (tlvs, OS_OK) ∧
       proto_send_rsp rsp
         = u16_le (RSP_HDR_SZ + tlvs_size tlvs) ++ [op; st] ++ tlvs_wire tlvs.
Proof.
  intros Hfit.
  destruct (builder_cursor_roundtrip (RSP_MAX - RSP_HDR_SZ) tlvs)
    as (b & Hadd & Hused & Hwire & Hcur); [sz|done|].
  exists b. split; [exact Hadd|]. clear Hadd.
  unfold proto_rsp_init. cbv beta iota zeta. cbn [fst].
  unfold proto_rsp_finish, check_cap.
  destruct (decide (RSP_MAX < RSP_HDR_SZ + used b)) as [Hbad|_]; [sz|].
  assert (Hmod : (RSP_HDR_SZ + used b) mod U16_MOD = RSP_HDR_SZ + tlvs_size tlvs).
  { rewrite Nat.mod_small; sz. }
  cbn [snd rsp_hdr rsp_len rsp_opcode rsp_status rsp_payload]. rewrite Hmod.
  split_and!; try done.
  - replace (RSP_HDR_SZ + tlvs_size tlvs - RSP_HDR_SZ) with (used b) by lia. done.
  - unfold proto_send_rsp, rsp_bytes.
    cbn [rsp_hdr rsp_len rsp_opcode rsp_status rsp_payload].
    rewrite !app_assoc.
    rewrite take_app_ge by (cbn [length app u16_le]; sz).
    f_equal. cbn [length app u16_le].
    replace (RSP_HDR_SZ + tlvs_size tlvs - 4) with (used b) by sz.
    done.
Qed.

End SimpleResponse.

Section Search.
Local Open Scope Z_scope.

(** On a store without slots [handle_s] gives up before scanning. *)
Lemma handle_s_no_slots e s argv : stg_total s ≤ 0 → handle_s e s argv = (Failed, s).
Proof. intros H. unfold handle_s. by destruct (decide (stg_total s ≤ 0)). Qed.

(** [handle_s] when the scan runs in one worker and the text fits. *)
Lemma handle_s_one_worker (e : env) (s : store) (argv : list arg_val_t) :
  let kw := copy_kw (v_str (argv !!! 0%nat)) in
  let workers := match argv !!! 1%nat with
                 | U32 x => if decide (x ≠ 0) then x else 1
                 | STR _ => 1
                 end in
  let text := spec_hit_list (hit_keys e s kw) in
  0 < stg_total s →
  effective_workers e (stg_total s) workers = 1 →
  (length text ≤ RSP_MAX - RSP_HDR_SZ - TLV_HDR_SZ)%nat →
  handle_s e s argv
  = (Returned OS_OK (proto_build_simple_rsp (op_byte OP_S) (Some (text ++ [NUL]))), s).
Proof.
  intros kw workers text Htot Hone Hfit.
  pose proof (to_int32_range (end_off s / DOC_SZ)) as Hrange.
  fold (stg_total s) in Hrange.
  set (bmp0 := replicate (Z.to_nat ((stg_total s + 7) / 8)) 0).
  destruct (scan_parallel e s kw (stg_total s) workers bmp0) as [st bmp] eqn:Hscan.
  assert (Hst : st = OS_OK).
  { pose proof (scan_parallel_bits e s kw (stg_total s) workers 0) as [H _];
      [lia|done|lia|].
    fold bmp0 in H. by rewrite Hscan in H. }
  assert (Hlist : build_list bmp (stg_total s) = text).
  { rewrite build_list_spec. unfold text, hit_keys. f_equal.
    apply filter_ext_elem_of. intros j Hj. apply elem_of_seqZ in Hj.
    pose proof (scan_parallel_bits e s kw (stg_total s) workers j) as [_ H];
      [lia|done|lia|].
    fold bmp0 in H. rewrite Hscan in H. cbn [snd] in H. rewrite H.
    apply bool_decide_eq_true. }
  unfold handle_s. fold kw workers.
  destruct (decide (stg_total s ≤ 0)); [lia|].
  fold bmp0. rewrite Hscan, Hst, Hlist.
  destruct (decide (LIST_CAP < length text + 1)%nat) as [Hover|_]; [|done].
  unfold LIST_CAP in Hover. sz.
Qed.

(** C5 (search reply), as amended: on a store with at least one slot,
    when the scan runs in one worker (the worker count of the request, 1
    when it is absent or 0, capped by ten times the number of processors
    and by Total, is 1) and the text fits the reply, a handled S request
    is answered with one string TLV that lists exactly the keys on which
    the scan of the document reports a hit, in ascending order, separated
    by ", ", in brackets, "[]" when there is none. *)
Theorem search_reply_lists_hit_keys (e : env) (s : store) (argv : list arg_val_t) :
  let kw := copy_kw (v_str (argv !!! 0%nat)) in
  let workers := match argv !!! 1%nat with
                 | U32 x => if decide (x ≠ 0) then x else 1
                 | STR _ => 1
                 end in
  let hits := hit_keys e s kw in
  let text := spec_hit_list hits in
  0 < stg_total s →
  effective_workers e (stg_total s) workers = 1 →
  (length text ≤ RSP_MAX - RSP_HDR_SZ - TLV_HDR_SZ)%nat →
  StronglySorted Z.lt hits ∧
  (hits = [] → text = B "[]") ∧
  ∃ rsp,
    handle_s e s argv = (Returned OS_OK rsp, s) ∧
    rsp_opcode (rsp_hdr rsp) = op_byte OP_S ∧
    cursor_all (proto_cursor_init (rsp_payload rsp)
                                  (rsp_len (rsp_hdr rsp) - RSP_HDR_SZ))
      = Some ([(ARG_STR, text)], OS_OK) ∧
    ∀ req, dismantle_request req row_S (replicate (argc_max row_S) (U32 0))
             = (OS_OK, argv) →
           child_frame e s req row_S
             = Some (u16_le (RSP_HDR_SZ + TLV_HDR_SZ + length text)
                     ++ [op_byte OP_S; zero] ++ tlv_wire (ARG_STR, text)).
Proof.
  intros kw workers hits text Htot Hone Hfit.
  split; [apply filter_sorted, seqZ_sorted|].
  split; [by intros Hnil; unfold text; rewrite Hnil|].
  destruct (simple_rsp_text (op_byte OP_S) text) as (Hop & _ & Hlen & Hcur & Hwire);
    [apply spec_hit_list_no_nul|done|].
  assert (Hs : handle_s e s argv
               = (Returned OS_OK (proto_build_simple_rsp (op_byte OP_S)
                                    (Some (text ++ [NUL]))), s))
    by exact (handle_s_one_worker e s argv Htot Hone Hfit).
  eexists. split; [exact Hs|]. split_and!; [done|done|].
  intros req Hargs. unfold child_frame, dispatch_request.
  rewrite Hargs. change (handlers !! opcode row_S) with (Some handle_s).
  cbv beta iota. rewrite Hs. cbn [fst]. by rewrite Hwire.
Qed.

End Search.

Section Truncation.
Local Open Scope Z_scope.

Lemma copy_kw_prefix term : (255 < length term)%nat → copy_kw term = copy_kw (take 255 term).
Proof.
  intros Hlong. rewrite copy_kw_long by done. rewrite copy_kw_short; [done|].
  rewrite length_take. lia.
Qed.

(** [handle_l] when the document has a path and its file can be read. *)
Lemma handle_l_counts (e : env) (s : store) (k : Z) (term path : list ascii) (n : nat) :
  doc_build_path e s (to_int32 k) PATH_MAX = Some path →
  doc_count_keyword e path (copy_kw term) false = (OS_OK, n) →
  ∃ rsp, handle_l e s [U32 k; STR term] = (Returned OS_OK rsp, s) ∧
         rsp_opcode (rsp_hdr rsp) = op_byte OP_L ∧
         cursor_all (proto_cursor_init (rsp_payload rsp)
                       (rsp_len (rsp_hdr rsp) - RSP_HDR_SZ))
         = Some ([(ARG_U32, u32_le (to_uint32 (Z.of_nat n)))], OS_OK).
Proof.
  intros Hpath Hcount.
  destruct (rsp_of_tlvs (op_byte OP_L) zero [(ARG_U32, u32_le (to_uint32 (Z.of_nat n)))])
    as (b & Hadd & Hop & _ & _ & Hcur & _).
  { rewrite tlvs_size_single. unfold RSP_MAX, RSP_HDR_SZ, TLV_HDR_SZ. cbn [length u32_le]. lia. }
  eexists.
  unfold handle_l. cbn [lookup_total list_lookup_total v_u32 v_str].
  assert (is_Some (stg_get_doc s (to_int32 k))) as [doc Hdoc].
  { unfold doc_build_path in Hpath. repeat (case_match || case_decide); try done. }
  rewrite Hdoc, Hpath, Hcount.
  revert Hadd Hop Hcur. unfold proto_rsp_init. cbv beta iota zeta. cbn [fst snd add_tlvs].
  destruct (proto_add_tlv _ ARG_U32 _) as [[] b1]; try done. intros [= ->] Hop Hcur.
  cbn [snd]. split; [reflexivity|]. by split.
Qed.

(** C9 (term truncation): a term of more than 255 bytes is cut to its
    first 255 bytes when the handler copies it, and no error comes of its
    length.  [handle_s] (on a store with a slot, for a scan in one worker
    and a text that fits) replies with the list of the keys whose
    documents hold the 255-byte prefix; [handle_l] (for a document with a
    path and a file that can be read) replies with the line count of the
    prefix; and each handler returns what it returns for the prefix as the
    term. *)
Theorem term_truncated_to_255_bytes
        (e : env) (s : store) (term : list ascii) (w : arg_val_t) (k : Z) :
  (255 < length term)%nat →
  let kw := take 255 term ++ [NUL] in
  let workers := match w with
                 | U32 x => if decide (x ≠ 0) then x else 1
                 | STR _ => 1
                 end in
  let text := spec_hit_list (hit_keys e s kw) in
  copy_kw term = kw ∧
  (0 < stg_total s → effective_workers e (stg_total s) workers = 1 →
   (length text ≤ RSP_MAX - RSP_HDR_SZ - TLV_HDR_SZ)%nat →
   ∃ rsp, handle_s e s [STR term; w] = (Returned OS_OK rsp, s) ∧
          cursor_all (proto_cursor_init (rsp_payload rsp)
                        (rsp_len (rsp_hdr rsp) - RSP_HDR_SZ))
          = Some ([(ARG_STR, text)], OS_OK)) ∧
  (∀ path n, doc_build_path e s (to_int32 k) PATH_MAX = Some path →
             doc_count_keyword e path kw false = (OS_OK, n) →
   ∃ rsp, handle_l e s [U32 k; STR term] = (Returned OS_OK rsp, s) ∧
          cursor_all (proto_cursor_init (rsp_payload rsp)
                        (rsp_len (rsp_hdr rsp) - RSP_HDR_SZ))
          = Some ([(ARG_U32, u32_le (to_uint32 (Z.of_nat n)))], OS_OK)) ∧
  handle_s e s [STR term; w] = handle_s e s [STR (take 255 term); w] ∧
  handle_l e s [U32 k; STR term] = handle_l e s [U32 k; STR (take 255 term)].
Proof.
  intros Hlong kw workers text.
  pose proof (copy_kw_long term Hlong) as Hcut. fold kw in Hcut.
  pose proof (copy_kw_prefix term Hlong) as Hkw.
  split_and!.
  - done.
  - intros Htot Hone Hfit.
    assert (Hs : handle_s e s [STR term; w]
                 = (Returned OS_OK (proto_build_simple_rsp (op_byte OP_S)
                                      (Some (text ++ [NUL]))), s)).
    { pose proof (handle_s_one_worker e s [STR term; w]) as Hs.
      cbn [lookup_total list_lookup_total v_str] in Hs. rewrite Hcut in Hs.
      exact (Hs Htot Hone Hfit). }
    destruct (simple_rsp_text (op_byte OP_S) text) as (_ & _ & _ & Hcur & _);
      [apply spec_hit_list_no_nul|done|].
    eexists. split; [exact Hs|exact Hcur].
  - intros path n Hpath Hcount. rewrite <- Hcut in Hcount.
    destruct (handle_l_counts e s k term path n Hpath Hcount) as (rsp & Hl & _ & Hcur).
    by exists rsp.
  - unfold handle_s. cbn [lookup_total list_lookup_total v_str]. by rewrite Hkw.
  - unfold handle_l. cbn [lookup_total list_lookup_total v_str v_u32]. by rewrite Hkw.
Qed.

End Truncation.

Section SearchExamples.

Lemma search_reply_lists_hit_keys_witness :
  ∃ rsp,
    handle_s (env_f_txt (B "x")) store_T [STR (B "x"); U32 0] = (Returned OS_OK rsp, store_T) ∧
    cursor_all (proto_cursor_init (rsp_payload rsp) (rsp_len (rsp_hdr rsp) - RSP_HDR_SZ))
      = Some ([(ARG_STR, B "[0]")], OS_OK).
Proof.
  destruct (search_reply_lists_hit_keys (env_f_txt (B "x")) store_T [STR (B "x"); U32 0])
    as (_ & _ & rsp & Hs & _ & Hcur & _).
  - vm_compute. reflexivity.
  - vm_compute. reflexivity.
  - apply Nat.leb_le. vm_compute. reflexivity.
  - exists rsp. split; [exact Hs|].
    replace (B "[0]")
      with (spec_hit_list (hit_keys (env_f_txt (B "x")) store_T (copy_kw (B "x"))))
      by (vm_compute; reflexivity).
    exact Hcur.
Defined.

(** C5 as stated fails on a store with zero documents: there [handle_s]
    returns an error, and the reply the child hands back is the "ERR"
    frame, not a frame with the text "[]". *)
Lemma search_on_empty_store_replies_ERR :
  let e := env_f_txt (B "x") in
  let tlvs := [(ARG_STR, B "x")] in
  proto_recv_req (wire_request OP_S 1234 tlvs) = Some (received OP_S 1234 tlvs, []) ∧
  cmd_by_opcode (req_op (received OP_S 1234 tlvs)) = Some row_S ∧
  stg_total [] = 0%Z ∧
  child_frame e [] (received OP_S 1234 tlvs) row_S
    = Some (wire_frame (op_byte OP_S) (B "ERR")) ∧
  wire_frame (op_byte OP_S) (B "ERR") ≠ wire_frame (op_byte OP_S) (B "[]").
Proof.
  split_and!; try (vm_compute; reflexivity).
  vm_compute. discriminate.
Qed.

Lemma term_truncated_to_255_bytes_witness :
  let term := replicate 300 "x"%char in
  let e := env_f_txt (replicate 255 "x"%char ++ newline) in
  (∃ rsp, handle_s e store_T [STR term; U32 0] = (Returned OS_OK rsp, store_T) ∧
          cursor_all (proto_cursor_init (rsp_payload rsp)
                        (rsp_len (rsp_hdr rsp) - RSP_HDR_SZ))
          = Some ([(ARG_STR, B "[0]")], OS_OK)) ∧
  (∃ rsp, handle_l e store_T [U32 0; STR term] = (Returned OS_OK rsp, store_T) ∧
          cursor_all (proto_cursor_init (rsp_payload rsp)
                        (rsp_len (rsp_hdr rsp) - RSP_HDR_SZ))
          = Some ([(ARG_U32, u32_le 1)], OS_OK)).
Proof.
  intros term e.
  destruct (term_truncated_to_255_bytes e store_T term (U32 0) 0)
    as (_ & Hs & Hl & _ & _).
  { unfold term. rewrite length_replicate. lia. }
  split.
  - destruct Hs as (rsp & Hs & Hcur).
    + vm_compute. reflexivity.
    + vm_compute. reflexivity.
    + apply Nat.leb_le. vm_compute. reflexivity.
    + exists rsp. split; [exact Hs|].
      replace (B "[0]")
        with (spec_hit_list (hit_keys e store_T (take 255 term ++ [NUL])))
        by (vm_compute; reflexivity).
      exact Hcur.
  - destruct (Hl f_txt 1%nat) as (rsp & Hl' & Hcur).
    + vm_compute. reflexivity.
    + vm_compute. reflexivity.
    + exists rsp. split; [exact Hl'|exact Hcur].
Defined.

(** With two workers the scan can lose hits.  Both documents hold the
    term.  Left alone one after the other, the workers report both keys.
    When each of them has sought its record before either reads, the
    first reads the record of the second (the offset is shared), finds
    the wrong key and gives up, and the second reads at the end of the
    file: the reply lists no key. *)
Example two_workers_can_lose_hits :
  let argv := [STR (B "x"); U32 2] in
  hit_keys (env_f_txt (B "x")) store_T2 (copy_kw (B "x")) = [0; 1]%Z ∧
  effective_workers (env_f_txt (B "x")) (stg_total store_T2) 2 = 2%Z ∧
  sent (handle_s (env_sched (B "x") []) store_T2 argv).1
  = Some (OS_OK, wire_frame (op_byte OP_S) (B "[0, 1]")) ∧
  sent (handle_s (env_sched (B "x") [0; 0; 0; 1; 1; 1; 0; 1]) store_T2 argv).1
  = Some (OS_OK, wire_frame (op_byte OP_S) (B "[]")).
Proof. split_and!; vm_compute; reflexivity. Qed.

End SearchExamples.

(** ** LRU cache *)

Section DllFacts.
Import Cache.
Implicit Types (h : gmap loc entry_t) (es : list (loc * list ascii)).
Implicit Types (p n : option loc) (l : loc) (k : list ascii).

Lemma hd_loc_app es1 es2 n : hd_loc (es1 ++ es2) n = hd_loc es1 (hd_loc es2 n).
Proof. by destruct es1 as [|[??]?]. Qed.

Lemma last_loc_cons l k es p : last_loc ((l, k) :: es) p = last_loc es (Some l).
Proof.
  unfold last_loc. destruct es as [|e es]; [done|].
  rewrite last_cons_cons. destruct (list.last (e :: es)) as [[??]|] eqn:E; [done|].
  by apply last_None in E.
Qed.

Lemma last_loc_snoc es l k p : last_loc (es ++ [(l, k)]) p = Some l.
Proof. unfold last_loc. by rewrite last_snoc. Qed.

Lemma last_loc_app es1 es2 p : last_loc (es1 ++ es2) p = last_loc es2 (last_loc es1 p).
Proof.
  revert p. induction es1 as [|[l k] es1 IH]; intros p; [done|].
  rewrite <- app_comm_cons, !last_loc_cons. apply IH.
Qed.

(** The list only depends on the entries it names. *)
Lemma dll_frame h h' es : ∀ p n,
  (∀ l, l ∈ es.*1 → h' !! l = h !! l) → dll h p es n → dll h' p es n.
Proof.
  induction es as [|[l k] es IH]; intros p n Hsame; [done|].
  cbn [dll]. intros (x & Hl & Hk & Hp & Hn & Hrest).
  exists x. split_and!; try done.
  - rewrite Hsame; [done|]. cbn. by left.
  - apply IH; [|done]. intros l' Hl'. apply Hsame. cbn. by right.
Qed.

Lemma dll_app h es1 : ∀ es2 p n,
  dll h p (es1 ++ es2) n ↔ dll h p es1 (hd_loc es2 n) ∧ dll h (last_loc es1 p) es2 n.
Proof.
  induction es1 as [|[l k] es1 IH]; intros es2 p n.
  - cbn. tauto.
  - rewrite <- app_comm_cons. cbn [dll]. rewrite last_loc_cons, hd_loc_app.
    split.
    + intros (x & Hl & Hk & Hp & Hn & Hrest). apply IH in Hrest as [H1 H2].
      split; [|done]. by exists x.
    + intros [(x & Hl & Hk & Hp & Hn & H1) H2].
      exists x. split_and!; try done. apply IH. done.
Qed.

(** Reading the entry in the middle of a list. *)
Lemma dll_middle h es1 l k es2 p n :
  dll h p (es1 ++ (l, k) :: es2) n →
  ∃ x, h !! l = Some x ∧ key x = k ∧ prev x = last_loc es1 p ∧ next x = hd_loc es2 n.
Proof.
  intros H. apply dll_app in H as [_ H]. cbn [dll] in H.
  destruct H as (x & ? & ? & ? & ? & _). by exists x.
Qed.

Lemma get_prev_middle h es1 l k es2 p n :
  dll h p (es1 ++ (l, k) :: es2) n → get_prev h l = last_loc es1 p.
Proof.
  intros H. apply dll_middle in H as (x & Hx & _ & Hp & _).
  unfold get_prev. by rewrite Hx.
Qed.

Lemma get_next_middle h es1 l k es2 p n :
  dll h p (es1 ++ (l, k) :: es2) n → get_next h l = hd_loc es2 n.
Proof.
  intros H. apply dll_middle in H as (x & Hx & _ & _ & Hn).
  unfold get_next. by rewrite Hx.
Qed.

(** Writing the back pointer of the first entry. *)
Lemma dll_set_prev_hd h l k es p p' n :
  l ∉ es.*1 → dll h p ((l, k) :: es) n → dll (set_prev h l p') p' ((l, k) :: es) n.
Proof.
  intros Hl (x & Hx & Hk & Hp & Hn & Hrest). cbn [dll].
  eexists. unfold set_prev at 1. rewrite lookup_alter_eq, Hx. cbn.
  split_and!; try done.
  eapply dll_frame; [|done]. intros l' Hl'. unfold set_prev.
  apply lookup_alter_ne. intros ->. done.
Qed.

(** Writing the forward pointer of the last entry. *)
Lemma dll_set_next_last h es l k p n n' :
  l ∉ es.*1 → dll h p (es ++ [(l, k)]) n → dll (set_next h l n') p (es ++ [(l, k)]) n'.
Proof.
  intros Hl H. apply dll_app in H as [H1 H2]. apply dll_app. split.
  - cbn [hd_loc] in *. eapply dll_frame; [|done]. intros l' Hl'. unfold set_next.
    apply lookup_alter_ne. intros ->. done.
  - cbn [dll] in *. destruct H2 as (x & Hx & Hk & Hp & Hn & _).
    eexists. unfold set_next. rewrite lookup_alter_eq, Hx. cbn. done.
Qed.

Lemma dll_alter_other h f l es p n :
  l ∉ es.*1 → dll h p es n → dll (alter f l h) p es n.
Proof.
  intros Hl. apply dll_frame. intros l' Hl'. apply lookup_alter_ne. by intros ->.
Qed.

(** Taking an entry out of the list: its neighbours are linked to each
    other. *)
Lemma dll_unlink h es1 l k es2 p n :
  NoDup (es1 ++ (l, k) :: es2).*1 →
  dll h p (es1 ++ (l, k) :: es2) n →
  let h1 := match last_loc es1 None with
            | Some lp => set_next h lp (hd_loc es2 n)
            | None => h
            end in
  let h2 := match hd_loc es2 None with
            | Some ln => set_prev h1 ln (last_loc es1 p)
            | None => h1
            end in
  dll h2 p (es1 ++ es2) n ∧ h1 !! l = h !! l ∧ h2 !! l = h !! l.
Proof.
  intros Hnd H h1 h2.
  rewrite fmap_app, fmap_cons in Hnd. cbn [fst] in Hnd.
  apply NoDup_app in Hnd as (Hnd1 & Hdisj & Hnd2).
  apply NoDup_cons in Hnd2 as [Hl2 Hnd2].
  assert (Hl1 : l ∉ es1.*1). { intros Hin. apply (Hdisj l Hin). by left. }
  apply dll_app in H as [H1 H2]. cbn [dll hd_loc] in H1, H2.
  destruct H2 as (x & Hx & Hk & Hp & Hn & H2).
  (* step 1: the predecessor's forward pointer *)
  assert (Hh1 : dll h1 p es1 (hd_loc es2 n) ∧ dll h1 (Some l) es2 n ∧ h1 !! l = h !! l).
  { subst h1. destruct (list.last es1) as [[lp kp]|] eqn:Elast.
    - apply last_Some in Elast as [es1' ->].
      rewrite last_loc_snoc.
      rewrite fmap_app in Hnd1, Hl1, Hdisj.
      apply NoDup_app in Hnd1 as (_ & Hd1 & _).
      assert (lp ∉ es1'.*1).
      { intros Hin. apply (Hd1 lp Hin). cbn. by left. }
      assert (lp ≠ l). { intros ->. apply Hl1. apply elem_of_app. right. cbn. by left. }
      assert (lp ∉ es2.*1).
      { intros Hin. apply (Hdisj lp); [apply elem_of_app; right; cbn; by left|by right]. }
      split_and!.
      + eapply dll_set_next_last; [done|exact H1].
      + by apply dll_alter_other.
      + unfold set_next. by apply lookup_alter_ne.
    - apply last_None in Elast as ->. unfold last_loc. cbn. done. }
  destruct Hh1 as (H1' & H2' & Hl').
  (* step 2: the successor's back pointer *)
  split_and!; [|done|]; subst h2; destruct es2 as [|[ln kn] es2];
    try (cbn [hd_loc]; rewrite ?app_nil_r; done).
  - cbn [hd_loc]. cbn [fmap list_fmap fst] in Hl2, Hnd2, Hdisj.
    apply NoDup_cons in Hnd2 as [Hln Hnd2].
    assert (ln ≠ l). { intros ->. apply Hl2. by left. }
    assert (ln ∉ es1.*1).
    { intros Hin. apply (Hdisj ln Hin). right. by left. }
    apply dll_app. split.
    + cbn [hd_loc]. by apply dll_alter_other.
    + eapply dll_set_prev_hd; [done|exact H2'].
  - cbn [hd_loc]. cbn [fmap list_fmap fst] in Hl2.
    assert (ln ≠ l). { intros ->. apply Hl2. by left. }
    unfold set_prev. rewrite lookup_alter_ne by done. done.
Qed.

(** Putting an entry in front of the list. *)
Lemma dll_link_front h h1 es l k x :
  NoDup (l :: es.*1) →
  dll h None es None →
  (∀ l', l' ∈ es.*1 → h1 !! l' = h !! l') →
  h1 !! l = Some x → key x = k → prev x = None → next x = hd_loc es None →
  let h2 := match hd_loc es None with
            | Some hd => set_prev h1 hd (Some l)
            | None => h1
            end in
  dll h2 None ((l, k) :: es) None.
Proof.
  intros Hnd H Hsame Hx Hk Hp Hn h2.
  apply NoDup_cons in Hnd as [Hl Hnd].
  pose proof (dll_frame h h1 es None None Hsame H) as H1.
  subst h2. destruct es as [|[l0 k0] es]; cbn [hd_loc] in *.
  - by exists x.
  - cbn [fmap list_fmap fst] in *. apply NoDup_cons in Hnd as [Hl0 Hnd].
    assert (l0 ≠ l). { intros ->. apply Hl. by left. }
    cbn [dll]. exists x. split_and!; try done.
    + unfold set_prev. by rewrite lookup_alter_ne.
    + eapply dll_set_prev_hd; [done|exact H1].
Qed.

End DllFacts.

Section LruWf.
Import Cache.
Implicit Types (c : cache_t) (h : gmap loc entry_t) (es : list (loc * list ascii)).
Implicit Types (l : loc) (k : list ascii).

Lemma last_loc_nonempty es p p' : es ≠ [] → last_loc es p = last_loc es p'.
Proof.
  intros Hne. unfold last_loc. destruct (list.last es) as [[??]|] eqn:E; [done|].
  by apply last_None in E.
Qed.

Lemma last_loc_is_Some es p : es ≠ [] → ∃ t, last_loc es p = Some t.
Proof.
  intros Hne. unfold last_loc. destruct (list.last es) as [[t ?]|] eqn:E; [by exists t|].
  by apply last_None in E.
Qed.

Lemma elem_of_fst es l : l ∈ es.*1 ↔ ∃ k, (l, k) ∈ es.
Proof.
  rewrite list_elem_of_fmap. split.
  - intros ([l' k] & -> & Hin). by exists k.
  - intros (k & Hin). by exists (l, k).
Qed.

Lemma elem_of_snd es k : k ∈ es.*2 ↔ ∃ l, (l, k) ∈ es.
Proof.
  rewrite list_elem_of_fmap. split.
  - intros ([l k'] & -> & Hin). by exists l.
  - intros (l & Hin). by exists (l, k).
Qed.

Lemma cache_init_empty max_entries :
  cache_init uninit max_entries None
  = (OS_OK, {| heap := ∅; brk := 0; ht := Some ∅; head := None; tail := None;
               cap := max_entries; count := 0 |}).
Proof. unfold cache_init. cbn. by destruct (decide (max_entries ≠ 0)). Qed.

Lemma init_wf max_entries :
  lru_wf (cache_init uninit max_entries None).2 [] ∧
  cap (cache_init uninit max_entries None).2 = max_entries.
Proof.
  rewrite cache_init_empty. split; [|done]. split; cbn; try done; try apply NoDup_nil_2.
  - intros l. split; [intros [x Hx]; by rewrite lookup_empty in Hx|by intros ?%elem_of_nil].
  - by intros l ?%elem_of_nil.
  - exists ∅. split; [done|]. intros k l. rewrite lookup_empty.
    split; [done|by intros ?%elem_of_nil].
Qed.

(** The table finds exactly the entries of the list. *)
Lemma ht_lookup_wf c es kw l :
  lru_wf c es → ht_lookup c kw = Some l ↔ (l, c_str kw) ∈ es.
Proof.
  intros [_ _ _ _ _ _ _ _ (m & Hm & Hiff)]. unfold ht_lookup. rewrite Hm. cbn.
  apply Hiff.
Qed.

Lemma ht_lookup_None_wf c es kw :
  lru_wf c es → ht_lookup c kw = None ↔ c_str kw ∉ es.*2.
Proof.
  intros Hwf. rewrite elem_of_snd. split.
  - intros Hn (l & Hin). apply (ht_lookup_wf c es kw l Hwf) in Hin. congruence.
  - intros Hn. destruct (ht_lookup c kw) as [l|] eqn:E; [|done].
    exfalso. apply Hn. exists l. by apply (ht_lookup_wf c es kw l Hwf).
Qed.

Lemma push_front_wf c es k r :
  lru_wf c es → k ∉ es.*2 →
  lru_wf (push_front c k r) ((brk c, k) :: es) ∧ cap (push_front c k r) = cap c.
Proof.
  intros [Hlocs Hkeys Hdll Hhead Htail Hcount Hheap Hbrk (m & Hm & Hiff)] Hk.
  split; [|done].
  assert (Hfresh : brk c ∉ es.*1).
  { intros Hin. apply Hbrk in Hin. lia. }
  split; cbn [push_front heap brk ht head tail count cap fmap list_fmap fst snd].
  - by apply NoDup_cons.
  - by apply NoDup_cons.
  - rewrite Hhead.
    apply (dll_link_front (heap c) _ es (brk c) k
             {| key := k; rsp := r; prev := None; next := hd_loc es None |});
      [by apply NoDup_cons|done| |apply lookup_insert_eq|done..].
    intros l' Hl'. apply lookup_insert_ne. intros Heq. by rewrite <- Heq in Hl'.
  - done.
  - rewrite Htail, last_loc_cons. destruct es as [|e es]; [done|].
    rewrite (last_loc_nonempty (e :: es) (Some (brk c)) None) by done.
    by destruct (last_loc_is_Some (e :: es) None) as [t ->].
  - cbn. by rewrite Hcount.
  - intros l.
    assert (is_Some ((<[brk c := {| key := k; rsp := r; prev := None; next := head c |}]>
                        (heap c)) !! l) ↔ l ∈ brk c :: es.*1) as Hins.
    { rewrite lookup_insert_is_Some, elem_of_cons, <- Hheap.
      destruct (decide (brk c = l)) as [->|Hne]; [tauto|].
      split; [intros [?|[_ ?]]; [done|by right]|intros [?|?]; [by left|by right]];
        congruence. }
    destruct (head c); [|done].
    unfold set_prev. by rewrite lookup_alter_is_Some.
  - intros l [->|Hin]%elem_of_cons; [lia|]. apply Hbrk in Hin. lia.
  - exists (<[k := brk c]> m). rewrite Hm. split; [done|]. intros k' l'.
    rewrite elem_of_cons. destruct (decide (k = k')) as [<-|Hne].
    + rewrite lookup_insert_eq. split.
      * intros [= <-]. by left.
      * intros [[= ->]|Hin]; [done|].
        exfalso. apply Hk. apply elem_of_snd. by exists l'.
    + rewrite lookup_insert_ne by done. rewrite Hiff. split; [by right|].
      intros [[= ? ?]|Hin]; [congruence|done].
Qed.

Lemma hd_loc_nonempty es n n' : es ≠ [] → hd_loc es n = hd_loc es n'.
Proof. by destruct es as [|[??]?]. Qed.

(** One turn of the loop of [evict] takes the last entry off the list. *)
Lemma evict_step_wf c es l k :
  lru_wf c (es ++ [(l, k)]) → cap c ≠ 0 → cap c < count c →
  ∃ c', evict_step c = Some c' ∧ lru_wf c' es ∧ cap c' = cap c.
Proof.
  intros [Hlocs Hkeys Hdll Hhead Htail Hcount Hheap Hbrk (m & Hm & Hiff)] Hcap Hover.
  rewrite fmap_app in Hlocs. rewrite fmap_app in Hkeys.
  cbn [fmap list_fmap fst snd] in Hlocs, Hkeys.
  apply NoDup_app in Hlocs as (Hlocs & Hl & _).
  apply NoDup_app in Hkeys as (Hkeys & Hk & _).
  assert (Hl' : l ∉ es.*1). { intros Hin. apply (Hl l Hin). by left. }
  assert (Hk' : k ∉ es.*2). { intros Hin. apply (Hk k Hin). by left. }
  pose proof (dll_middle _ _ _ _ _ _ _ Hdll) as (o & Ho & Hok & Hop & _).
  pose proof Hdll as Hes. apply dll_app in Hes as [Hes _]. cbn [hd_loc] in Hes.
  rewrite last_loc_snoc in Htail. rewrite hd_loc_app in Hhead. cbn [hd_loc] in Hhead.
  unfold evict_step. destruct (decide _) as [_|Hno]; [|by destruct Hno].
  rewrite Htail. unfold get_prev at 1 2 3. rewrite Ho. cbn [mbind option_bind]. rewrite Hop, Hok.
  eexists. split; [reflexivity|]. split; [|done].
  split; cbn [heap brk ht head tail count cap].
  - done.
  - done.
  - eapply dll_frame; [intros l' Hin; apply lookup_delete_ne; by intros ->|].
    destruct (list.last es) as [[t kt]|] eqn:Elast.
    + apply last_Some in Elast as [es' ->]. rewrite last_loc_snoc.
      rewrite fmap_app in Hlocs. apply NoDup_app in Hlocs as (_ & Ht & _).
      eapply dll_set_next_last; [|exact Hes].
      intros Hin. apply (Ht t Hin). cbn. by left.
    + apply last_None in Elast as ->. done.
  - destruct es as [|e es]; [done|].
    destruct (last_loc_is_Some (e :: es) None) as [t ->]; [done|].
    rewrite Hhead. by destruct e.
  - done.
  - rewrite Hcount, length_app. cbn. lia.
  - intros l'. rewrite lookup_delete_is_Some.
    assert (is_Some (match last_loc es None with
                     | Some t => set_next (heap c) t None
                     | None => heap c
                     end !! l') ↔ is_Some (heap c !! l')) as ->.
    { destruct (last_loc es None); [|done]. unfold set_next. apply lookup_alter_is_Some. }
    rewrite Hheap, fmap_app, elem_of_app. cbn [fmap list_fmap fst].
    rewrite list_elem_of_singleton. split.
    + intros [Hne [?|?]]; [done|congruence].
    + intros Hin. split; [by intros ->|by left].
  - intros l'' Hin. apply Hbrk. rewrite fmap_app. apply elem_of_app. by left.
  - exists (delete k m). rewrite Hm. split; [done|]. intros k' l''.
    destruct (decide (k = k')) as [<-|Hne].
    + rewrite lookup_delete_eq. split; [done|].
      intros Hin. exfalso. apply Hk'. apply elem_of_snd. by exists l''.
    + rewrite lookup_delete_ne by done. rewrite Hiff, elem_of_app, list_elem_of_singleton.
      split; [intros [?|[= ? ?]]; [done|congruence]|by left].
Qed.

Lemma evict_step_within c es :
  lru_wf c es → length es ≤ cap c → evict_step c = None.
Proof.
  intros Hwf Hle. unfold evict_step. rewrite (wf_count _ _ Hwf).
  destruct (decide _) as [[_ ?]|_]; [lia|done].
Qed.

(** [evict] cuts the list down to the capacity, from the back; the fuel
    of its loop is enough. *)
Lemma evict_loop_wf fuel : ∀ c es,
  lru_wf c es → cap c ≠ 0 → length es ≤ fuel + cap c →
  lru_wf (evict_loop fuel c) (take (cap c) es) ∧
  cap (evict_loop fuel c) = cap c ∧
  evict_step (evict_loop fuel c) = None.
Proof.
  induction fuel as [|fuel IH]; intros c es Hwf Hcap Hlen.
  - cbn [evict_loop]. rewrite take_ge by lia.
    split_and!; [done|done|]. apply (evict_step_within c es); [done|lia].
  - cbn [evict_loop]. destruct (decide (length es ≤ cap c)) as [Hle|Hgt].
    + rewrite (evict_step_within c es) by done. rewrite take_ge by lia.
      split_and!; [done|done|]. by apply (evict_step_within c es).
    + destruct (list.last es) as [[l k]|] eqn:Elast.
      2:{ apply last_None in Elast as ->. cbn in Hgt. lia. }
      apply last_Some in Elast as [es' ->]. rewrite length_app in Hlen, Hgt. cbn in Hlen, Hgt.
      destruct (evict_step_wf c es' l k) as (c' & -> & Hwf' & Hcap'); [done|done| |].
      { rewrite (wf_count _ _ Hwf), length_app. cbn. lia. }
      destruct (IH c' es') as (H1 & H2 & H3); [done|congruence|lia|].
      rewrite Hcap' in H1, H2. rewrite take_app_le by lia. done.
Qed.

Lemma evict_wf c es :
  lru_wf c es → cap c ≠ 0 →
  lru_wf (evict c) (take (cap c) es) ∧ cap (evict c) = cap c.
Proof.
  intros Hwf Hcap. unfold evict.
  destruct (evict_loop_wf (count c) c es) as (? & ? & _); [done|done| |done].
  rewrite (wf_count _ _ Hwf). lia.
Qed.

(** An entry written in place keeps its links. *)
Lemma dll_set_rsp h l r es : ∀ p n, dll h p es n → dll (set_rsp h l r) p es n.
Proof.
  induction es as [|[l' k'] es IH]; intros p n; [done|].
  cbn [dll]. intros (x & Hx & Hk & Hp & Hn & Hrest).
  unfold set_rsp at 1. rewrite lookup_alter. destruct (decide (l = l')) as [->|Hne].
  - rewrite Hx. cbn. eexists. split; [done|]. cbn. split_and!; try done. by apply IH.
  - exists x. split_and!; try done. by apply IH.
Qed.

Lemma set_rsp_wf c es l r :
  lru_wf c es → lru_wf (with_heap c (set_rsp (heap c) l r)) es.
Proof.
  intros [Hlocs Hkeys Hdll Hhead Htail Hcount Hheap Hbrk Hht].
  split; cbn [with_heap heap brk ht head tail count cap]; try done.
  - by apply dll_set_rsp.
  - intros l'. unfold set_rsp. by rewrite lookup_alter_is_Some.
Qed.

Lemma last_loc_nil p : last_loc [] p = p.
Proof. done. Qed.

Lemma last_loc_elem es p t : es ≠ [] → last_loc es p = Some t → t ∈ es.*1.
Proof.
  intros Hne. unfold last_loc. destruct (list.last es) as [[t' k']|] eqn:E.
  - intros [= <-]. apply last_Some in E as [es' ->].
    rewrite fmap_app. apply elem_of_app. right. cbn. by left.
  - by apply last_None in E.
Qed.

Lemma is_Some_set_prev h l p l' : is_Some (set_prev h l p !! l') ↔ is_Some (h !! l').
Proof. unfold set_prev. apply lookup_alter_is_Some. Qed.

Lemma is_Some_set_next h l n l' : is_Some (set_next h l n !! l') ↔ is_Some (h !! l').
Proof. unfold set_next. apply lookup_alter_is_Some. Qed.

Lemma set_prev_ne h l p l' : l ≠ l' → set_prev h l p !! l' = h !! l'.
Proof. intros. unfold set_prev. by apply lookup_alter_ne. Qed.

Lemma set_next_ne h l n l' : l ≠ l' → set_next h l n !! l' = h !! l'.
Proof. intros. unfold set_next. by apply lookup_alter_ne. Qed.

(** [move_front] on an entry of the list brings it to the front and
    leaves the others in their order. *)
Lemma move_front_wf c es1 l k es2 :
  lru_wf c (es1 ++ (l, k) :: es2) →
  lru_wf (move_front c (Some l)) ((l, k) :: es1 ++ es2) ∧
  cap (move_front c (Some l)) = cap c ∧
  rsp <$> heap (move_front c (Some l)) !! l = rsp <$> heap c !! l.
Proof.
  intros Hwf. destruct es1 as [|[l1 k1] es1'].
  { cbn [app] in *. unfold move_front. rewrite (wf_head _ _ Hwf). cbn [hd_loc].
    by destruct (decide (Some l = Some l)). }
  set (es1 := (l1, k1) :: es1') in *.
  assert (Hne1 : es1 ≠ []) by done.
  destruct Hwf as [Hlocs Hkeys Hdll Hhead Htail Hcount Hheap Hbrk (m & Hm & Hiff)].
  assert (Hperm : (l, k) :: es1 ++ es2 ≡ₚ es1 ++ (l, k) :: es2)
    by apply Permutation_middle.
  assert (Hlocs' : NoDup ((l, k) :: es1 ++ es2).*1) by (by rewrite Hperm).
  assert (Hkeys' : NoDup ((l, k) :: es1 ++ es2).*2) by (by rewrite Hperm).
  assert (Hhd : head c = Some l1) by (by rewrite Hhead).
  assert (Hl1 : l ≠ l1).
  { intros ->. cbn [fmap list_fmap fst app es1] in Hlocs.
    apply NoDup_cons in Hlocs as [Hn _]. apply Hn.
    rewrite fmap_app. apply elem_of_app. right. cbn. by left. }
  pose proof (dll_middle _ _ _ _ _ _ _ Hdll) as (x & Hx & Hxk & Hxp & Hxn).
  pose proof (dll_unlink (heap c) es1 l k es2 None None Hlocs Hdll) as Hun.
  cbv zeta in Hun.
  destruct (last_loc_is_Some es1 None Hne1) as [lp Hlp].
  assert (Hgp : ∀ h, h !! l = heap c !! l → get_prev h l = Some lp).
  { intros h Hh. unfold get_prev. rewrite Hh, Hx. cbn. by rewrite Hxp. }
  assert (Hgn : ∀ h, h !! l = heap c !! l → get_next h l = hd_loc es2 None).
  { intros h Hh. unfold get_next. rewrite Hh, Hx. cbn. by rewrite Hxn. }
  unfold move_front. rewrite Hhd.
  destruct (decide (Some l = Some l1)) as [[= ?]|_]; [done|].
  cbv zeta. rewrite (Hgp (heap c)), (Hgn (heap c)) by done.
  rewrite Hlp in Hun.
  set (h1 := set_next (heap c) lp (hd_loc es2 None)) in *.
  destruct Hun as (Hdll2 & Hh1 & Hh2).
  rewrite (Hgn h1), (Hgp h1) by done.
  set (h2 := match hd_loc es2 None with
             | Some ln => set_prev h1 ln (Some lp)
             | None => h1
             end) in *.
  rewrite (Hgp h2) by done.
  set (h4 := set_next (set_prev h2 l None) l (Some l1)).
  assert (Hh4 : h4 !! l = Some {| key := key x; rsp := rsp x; prev := None;
                                  next := Some l1 |}).
  { subst h4. unfold set_next, set_prev. rewrite !lookup_alter_eq, Hh2, Hx. done. }
  assert (Hh4' : ∀ l', l' ≠ l → h4 !! l' = h2 !! l').
  { intros l' Hl'. subst h4. rewrite set_next_ne, set_prev_ne by done. done. }
  assert (HS : ∀ l', is_Some (set_prev h4 l1 (Some l) !! l') ↔ is_Some (heap c !! l')).
  { intros l'. rewrite is_Some_set_prev. subst h4.
    rewrite is_Some_set_next, is_Some_set_prev. subst h2.
    assert (is_Some (h1 !! l') ↔ is_Some (heap c !! l')) as H1
      by (subst h1; apply is_Some_set_next).
    destruct (hd_loc es2 None); [by rewrite is_Some_set_prev|done]. }
  split_and!; [|done|].
  2:{ cbn [heap]. rewrite set_prev_ne by done. by rewrite Hh4, Hx. }
  split; cbn [heap brk ht head tail count cap].
  - done.
  - done.
  - apply (dll_link_front h2 h4 (es1 ++ es2) l k
             {| key := key x; rsp := rsp x; prev := None; next := Some l1 |});
      try done.
    intros l' Hl'. apply Hh4'. intros ->.
    cbn [fmap list_fmap fst] in Hlocs'. apply NoDup_cons in Hlocs' as [Hn _]. done.
  - done.
  - rewrite last_loc_cons, last_loc_app.
    rewrite Htail, last_loc_app, last_loc_cons.
    destruct es2 as [|e2 es2'].
    + rewrite !last_loc_nil.
      destruct (decide (Some l = Some l)); [|done].
      by rewrite (last_loc_nonempty es1 (Some l) None), Hlp.
    + destruct (last_loc_is_Some (e2 :: es2') (Some l)) as [t Ht]; [done|].
      rewrite Ht. rewrite (last_loc_nonempty (e2 :: es2') _ (Some l)) by done.
      rewrite Ht. destruct (decide (Some l = Some t)) as [[= <-]|_]; [|done].
      exfalso. apply last_loc_elem in Ht; [|done].
      rewrite fmap_app, fmap_cons in Hlocs. cbn [fst] in Hlocs.
      apply NoDup_app in Hlocs as (_ & _ & Hn). apply NoDup_cons in Hn as [Hn _]. done.
  - rewrite Hcount. cbn [length]. rewrite !length_app. cbn [length]. lia.
  - intros l'. rewrite HS, Hheap. by rewrite Hperm.
  - intros l' Hin. apply Hbrk. by rewrite <- Hperm.
  - exists m. split; [done|]. intros k' l'. rewrite Hiff. by rewrite Hperm.
Qed.

Lemma chain_dll h es : ∀ p fuel,
  dll h p es None → length es ≤ fuel →
  ∃ xs, chain fuel h (hd_loc es None) = Some xs ∧ key <$> xs = es.*2.
Proof.
  induction es as [|[l k] es IH]; intros p fuel Hdll Hlen.
  - exists []. by destruct fuel.
  - destruct fuel as [|fuel]; [cbn in Hlen; lia|].
    cbn [dll] in Hdll. destruct Hdll as (x & Hx & Hk & _ & Hn & Hrest).
    destruct (IH (Some l) fuel Hrest) as (xs & Hxs & Hkeys); [cbn in Hlen; lia|].
    exists (x :: xs). cbn [hd_loc chain]. rewrite Hx, Hn, Hxs. cbn.
    by rewrite Hk, Hkeys.
Qed.

Lemma heap_size c es : lru_wf c es → size (heap c) = length es.
Proof.
  intros Hwf. rewrite <- (length_fmap fst es).
  rewrite <- (size_list_to_set (C := gset loc) es.*1) by apply (wf_locs _ _ Hwf).
  rewrite <- (size_dom (D := gset loc)). f_equal. apply set_eq. intros l.
  rewrite elem_of_dom, elem_of_list_to_set. apply (wf_heap _ _ Hwf).
Qed.

(** The keys of a well-formed cache, read off by following [next]. *)
Lemma keys_wf c es : lru_wf c es → keys c = es.*2.
Proof.
  intros Hwf. unfold keys, entries. rewrite (wf_head _ _ Hwf).
  destruct (chain_dll (heap c) es None (size (heap c))) as (xs & -> & Hxs).
  - apply (wf_dll _ _ Hwf).
  - by rewrite (heap_size c es).
  - done.
Qed.

(** [cache_get] and [cache_put] on the list. *)
Lemma cache_get_hit_wf c es1 l k es2 kw :
  lru_wf c (es1 ++ (l, k) :: es2) → c_str kw = k →
  ∃ r, cache_get c kw = (OS_OK, Some r, move_front c (Some l)) ∧
       lru_wf (move_front c (Some l)) ((l, k) :: es1 ++ es2) ∧
       cap (move_front c (Some l)) = cap c.
Proof.
  intros Hwf Hk.
  assert (Hl : ht_lookup c kw = Some l).
  { apply (ht_lookup_wf c _ kw l Hwf). rewrite Hk. apply elem_of_app. right. by left. }
  destruct (move_front_wf c es1 l k es2 Hwf) as (Hwf' & Hcap & Hrsp).
  pose proof (dll_middle _ _ _ _ _ _ _ (wf_dll _ _ Hwf)) as (x & Hx & _).
  unfold cache_get. rewrite Hl, Hrsp, Hx. by exists (rsp x).
Qed.

Lemma cache_get_miss_wf c es kw :
  lru_wf c es → c_str kw ∉ es.*2 → cache_get c kw = (OS_ERROR, None, c).
Proof.
  intros Hwf Hk. unfold cache_get.
  by rewrite (proj2 (ht_lookup_None_wf c es kw Hwf) Hk).
Qed.

Lemma cache_put_hit_wf c es1 l k es2 kw r :
  lru_wf c (es1 ++ (l, k) :: es2) → cap c ≠ 0 → c_str kw = k →
  lru_wf (cache_put c kw r) ((l, k) :: es1 ++ es2) ∧ cap (cache_put c kw r) = cap c.
Proof.
  intros Hwf Hcap Hk.
  assert (Hl : ht_lookup c kw = Some l).
  { apply (ht_lookup_wf c _ kw l Hwf). rewrite Hk. apply elem_of_app. right. by left. }
  unfold cache_put. destruct (decide (cap c = 0)); [done|]. rewrite Hl.
  pose proof (set_rsp_wf c _ l r Hwf) as Hwf1.
  destruct (move_front_wf _ es1 l k es2 Hwf1) as (Hwf' & Hcap' & _). done.
Qed.

Lemma cache_put_new_wf c es kw r :
  lru_wf c es → cap c ≠ 0 → c_str kw ∉ es.*2 →
  lru_wf (cache_put c kw r) (take (cap c) ((brk c, c_str kw) :: es)) ∧
  cap (cache_put c kw r) = cap c.
Proof.
  intros Hwf Hcap Hk. unfold cache_put. destruct (decide (cap c = 0)); [done|].
  rewrite (proj2 (ht_lookup_None_wf c es kw Hwf) Hk).
  destruct (push_front_wf c es (c_str kw) r Hwf Hk) as [Hwf1 Hcap1].
  destruct (evict_wf _ _ Hwf1) as [Hwf2 Hcap2]; [congruence|].
  rewrite Hcap1 in Hwf2. split; [done|congruence].
Qed.

End LruWf.

Section Recency.
Import Cache.
Implicit Types (log ks : list (list ascii)) (k : list ascii).

Lemma rank_cons_eq log k : rank (k :: log) k = Some 0.
Proof. unfold rank. cbn. by destruct (decide (k = k)). Qed.

Lemma rank_cons_ne log k k' : k ≠ k' → rank (k :: log) k' = S <$> rank log k'.
Proof.
  intros Hne. unfold rank. cbn. destruct (decide (k = k')); [done|].
  by destruct (list_find _ log) as [[??]|].
Qed.

Lemma rank_elem_of log k : k ∈ log → is_Some (rank log k).
Proof.
  intros Hin. unfold rank.
  destruct (list_find_elem_of (λ x, x = k) log k Hin eq_refl) as [[i x] ->].
  by exists i.
Qed.

Lemma accessed_earlier_now log k a : a ≠ k → a ∈ log → accessed_earlier (k :: log) a k.
Proof.
  intros Hne Hin. destruct (rank_elem_of log a Hin) as [i Hi].
  exists (S i), 0. rewrite rank_cons_eq, rank_cons_ne, Hi by done.
  split_and!; [done|done|lia].
Qed.

Lemma accessed_earlier_cons log k a b :
  a ≠ k → b ≠ k → accessed_earlier log a b → accessed_earlier (k :: log) a b.
Proof.
  intros Ha Hb (i & j & Hi & Hj & Hlt). exists (S i), (S j).
  rewrite !rank_cons_ne, Hi, Hj by done. split_and!; [done|done|lia].
Qed.

Lemma sorted_cons_log log k ks :
  k ∉ ks →
  StronglySorted (λ k1 k2, accessed_earlier log k2 k1) ks →
  StronglySorted (λ k1 k2, accessed_earlier (k :: log) k2 k1) ks.
Proof.
  intros Hk. induction 1 as [|a ks Hs IH Ha]; [constructor|].
  apply not_elem_of_cons in Hk as [Hka Hk].
  constructor; [by apply IH|].
  apply Forall_forall. intros b Hb. apply accessed_earlier_cons.
  - intros ->. done.
  - done.
  - by eapply Forall_forall in Ha.
Qed.

(** A key accessed now goes in front of the keys accessed before. *)
Lemma by_recency_front log k ks :
  k ∉ ks → by_recency log ks → by_recency (k :: log) (k :: ks).
Proof.
  intros Hk [Hs Hall]. split.
  - constructor; [by apply sorted_cons_log|].
    apply Forall_forall. intros a Ha. apply accessed_earlier_now.
    + intros ->. done.
    + by eapply Forall_forall in Hall.
  - constructor; [by left|]. eapply Forall_impl; [done|]. intros a Ha. by right.
Qed.

Lemma by_recency_remove log ks1 k ks2 :
  by_recency log (ks1 ++ k :: ks2) → by_recency log (ks1 ++ ks2).
Proof.
  intros [Hs Hall]. split.
  - apply StronglySorted_app in Hs as (H12 & H1 & H2).
    apply StronglySorted_cons in H2 as [_ H2].
    apply StronglySorted_app. split_and!; [|done|done].
    intros x1 x2 Hx1 Hx2. apply H12; [done|by right].
  - apply Forall_app in Hall as [H1 H2]. apply Forall_cons in H2 as [_ H2].
    by apply Forall_app.
Qed.

Lemma by_recency_take log ks n : by_recency log ks → by_recency log (take n ks).
Proof.
  intros [Hs Hall]. split; [|by apply Forall_take].
  rewrite <- (take_drop n ks) in Hs. by apply StronglySorted_app_1_l in Hs.
Qed.

(** The last key of the list is the one whose most recent access is the
    earliest. *)
Lemma by_recency_last log ks v k' :
  by_recency log (ks ++ [v]) → k' ∈ ks → accessed_earlier log v k'.
Proof.
  intros [Hs _] Hin. apply StronglySorted_app in Hs as (H12 & _ & _).
  apply H12; [done|by left].
Qed.

End Recency.

Section LruSteps.
Import Cache.
Implicit Types (c : cache_t) (log : list (list ascii)) (o : op).

(** What one operation does to the list of keys: it brings a key of the
    list to the front, or puts a new key in front and cuts the list to the
    capacity, or (a [Get] that misses) leaves the cache alone. *)
Lemma step_cases n c log o :
  0 < n → lru_inv n c log →
  lru_inv n (step c o) (match access c o with Some k => k :: log | None => log end) ∧
  ((∃ ks1 k ks2, keys c = ks1 ++ k :: ks2 ∧ access c o = Some k ∧
                 keys (step c o) = k :: ks1 ++ ks2)
   ∨ (∃ kw r, o = Put kw r ∧ access c o = Some (c_str kw) ∧ (c_str kw ∉ keys c) ∧
              keys (step c o) = take n (c_str kw :: keys c))
   ∨ (access c o = None ∧ step c o = c)).
Proof.
  intros Hn (es & Hwf & Hcap & Hlen & Hrec).
  rewrite (keys_wf c es Hwf).
  assert (Htouch : ∀ l k es1 es2 c',
    es = es1 ++ (l, k) :: es2 → lru_wf c' ((l, k) :: es1 ++ es2) → cap c' = cap c →
    lru_inv n c' (k :: log) ∧
    es.*2 = es1.*2 ++ k :: es2.*2 ∧ keys c' = k :: es1.*2 ++ es2.*2).
  { intros l k es1 es2 c' -> Hwf' Hcap'.
    assert (Hk2 : (es1 ++ (l, k) :: es2).*2 = es1.*2 ++ k :: es2.*2)
      by (by rewrite fmap_app).
    split_and!; [|done|].
    2:{ rewrite (keys_wf c' _ Hwf'). cbn [fmap list_fmap snd]. by rewrite fmap_app. }
    exists ((l, k) :: es1 ++ es2). split_and!; [done|congruence| |].
    - cbn [length]. rewrite length_app in *. cbn [length] in Hlen. lia.
    - cbn [fmap list_fmap snd]. rewrite fmap_app. rewrite Hk2 in Hrec.
      apply by_recency_front; [|by eapply by_recency_remove].
      pose proof (wf_keys _ _ Hwf) as Hnd. rewrite Hk2 in Hnd.
      apply NoDup_app in Hnd as (_ & Hd & Hnd). apply NoDup_cons in Hnd as [Hk _].
      intros [Hin|Hin]%elem_of_app; [|done]. apply (Hd k Hin). by left. }
  destruct o as [kw r|kw]; cbn [step access].
  - destruct (decide (cap c = 0)) as [?|Hcap0]; [lia|].
    destruct (decide (c_str kw ∈ es.*2)) as [Hin|Hnin].
    + apply elem_of_snd in Hin as [l Hin].
      apply list_elem_of_split in Hin as (es1 & es2 & Hes).
      destruct (cache_put_hit_wf c es1 l (c_str kw) es2 kw r) as [Hwf' Hcap'];
        [by rewrite <- Hes|done|done|].
      destruct (Htouch l (c_str kw) es1 es2 _ Hes Hwf' Hcap') as (Hinv & Hk & Hk').
      split; [done|]. left. by exists es1.*2, (c_str kw), es2.*2.
    + destruct (cache_put_new_wf c es kw r Hwf Hcap0 Hnin) as [Hwf' Hcap'].
      assert (Hkeys' : keys (cache_put c kw r) = take n (c_str kw :: es.*2)).
      { rewrite (keys_wf _ _ Hwf'), fmap_take, Hcap. done. }
      split.
      * eexists. split_and!; [exact Hwf'|congruence| |].
        -- rewrite length_take. lia.
        -- rewrite fmap_take, Hcap. cbn [fmap list_fmap snd].
           by apply by_recency_take, by_recency_front.
      * right. left. by exists kw, r.
  - destruct (ht_lookup c kw) as [l|] eqn:Hl.
    + apply (ht_lookup_wf c es kw l Hwf) in Hl.
      apply list_elem_of_split in Hl as (es1 & es2 & Hes).
      destruct (cache_get_hit_wf c es1 l (c_str kw) es2 kw) as (r & -> & Hwf' & Hcap');
        [by rewrite <- Hes|done|]. cbn [snd].
      destruct (Htouch l (c_str kw) es1 es2 _ Hes Hwf' Hcap') as (Hinv & Hk & Hk').
      split; [done|]. left. by exists es1.*2, (c_str kw), es2.*2.
    + apply (ht_lookup_None_wf c es kw Hwf) in Hl.
      rewrite (cache_get_miss_wf c es kw Hwf Hl). cbn [snd].
      split; [by exists es|]. right. right. done.
Qed.

Lemma run_inv n ops : ∀ c log,
  0 < n → lru_inv n c log → lru_inv n (run c log ops).1 (run c log ops).2.
Proof.
  induction ops as [|o ops IH]; intros c log Hn Hinv; [done|].
  cbn [run]. apply IH; [done|]. by apply step_cases.
Qed.

Lemma init_inv n : lru_inv n (cache_init uninit n None).2 [].
Proof.
  destruct (init_wf n) as [Hwf Hcap]. exists []. split_and!; [done|done|cbn; lia|].
  split; constructor.
Qed.

End LruSteps.

Section LruTheorem.
Import Cache.

(** C8 (LRU), as amended: for every capacity above zero and every
    sequence of Put and Get operations on a freshly initialised cache, after
    each further operation the entry count is at most the capacity (and is
    the length of the list); the key the operation accessed (a Put, or a
    Get that hit) is at the front of the list; and a key that leaves the
    cache does so on the insertion of a new key, was the last of the list,
    and is the one whose most recent access is the earliest among the keys
    that were cached. *)
Theorem lru_order_and_eviction (n : nat) (ops : list op) (o : op) :
  0 < n →
  let c0 := (cache_init uninit n None).2 in
  let c := (run c0 [] ops).1 in
  let log := (run c0 [] ops).2 in
  let c' := step c o in
  count c' ≤ n ∧
  count c' = length (keys c') ∧
  (∀ k, access c o = Some k → hd_error (keys c') = Some k) ∧
  (∀ v, v ∈ keys c → v ∉ keys c' →
        (∃ kw r, o = Put kw r ∧ c_str kw ∉ keys c) ∧
        list.last (keys c) = Some v ∧
        ∀ k', k' ∈ keys c → k' ≠ v → accessed_earlier log v k').
Proof.
  intros Hn c0 c log c'.
  pose proof (run_inv n ops c0 [] Hn (init_inv n)) as Hinv. fold c log in Hinv.
  destruct (step_cases n c log o Hn Hinv) as [Hinv' Hcases]. fold c' in Hinv', Hcases.
  destruct Hinv' as (es' & Hwf' & Hcap' & Hlen' & _).
  destruct Hinv as (es & Hwf & Hcap & Hlen & Hrec).
  rewrite (keys_wf c es Hwf) in *.
  split_and!.
  - by rewrite (wf_count _ _ Hwf').
  - by rewrite (keys_wf c' es' Hwf'), length_fmap, (wf_count _ _ Hwf').
  - intros k Hk.
    destruct Hcases as [(ks1 & k0 & ks2 & _ & Hacc & ->)
                       |[(kw & r & _ & Hacc & _ & ->)|[Hacc _]]]; [| |congruence].
    + cbn. congruence.
    + destruct n; [lia|]. cbn. congruence.
  - intros v Hv Hv'.
    destruct Hcases as [(ks1 & k0 & ks2 & Heq & _ & Hk')
                       |[(kw & r & Ho & _ & Hnew & Hk')|[_ Hsame]]].
    + exfalso. apply Hv'. rewrite Hk'. rewrite Heq in Hv.
      apply elem_of_app in Hv as [?|[->|?]%elem_of_cons].
      * right. apply elem_of_app. by left.
      * by left.
      * right. apply elem_of_app. by right.
    + split; [by exists kw, r|].
      destruct n as [|m]; [lia|]. rewrite Hk' in Hv'. cbn [take] in Hv'.
      apply not_elem_of_cons in Hv' as [_ Hv'].
      assert (Hsplit : es.*2 = take m es.*2 ++ [v]).
      { rewrite <- (take_drop m es.*2) in Hv.
        apply elem_of_app in Hv as [?|Hv]; [done|].
        rewrite <- (take_drop m es.*2) at 1. f_equal.
        assert (length (drop m es.*2) ≤ 1) as Hd
          by (rewrite length_drop, length_fmap; lia).
        destruct (drop m es.*2) as [|a [|b rest]]; [by apply elem_of_nil in Hv| |cbn in Hd; lia].
        by apply list_elem_of_singleton in Hv as ->. }
      split; [rewrite Hsplit; apply last_snoc|].
      intros k' Hk Hne. rewrite Hsplit in Hrec. eapply by_recency_last; [done|].
      rewrite Hsplit in Hk. apply elem_of_app in Hk as [?|Hk]; [done|].
      by apply list_elem_of_singleton in Hk.
    + exfalso. apply Hv'. fold c'. rewrite Hsame. by rewrite (keys_wf c es Hwf).
Qed.

End LruTheorem.

Section LruExamples.
Import Cache.

Lemma lru_order_and_eviction_witness :
  let ops := [Put (B "a" ++ [NUL]) rsp_none; Put (B "b" ++ [NUL]) rsp_zero;
              Get (B "a" ++ [NUL])] in
  let o := Put (B "c" ++ [NUL]) rsp_none in
  let c0 := (cache_init uninit 2 None).2 in
  let c := (run c0 [] ops).1 in
  let log := (run c0 [] ops).2 in
  let c' := step c o in
  count c' ≤ 2 ∧
  count c' = length (keys c') ∧
  (∀ k, access c o = Some k → hd_error (keys c') = Some k) ∧
  (∀ v, v ∈ keys c → v ∉ keys c' →
        (∃ kw r, o = Put kw r ∧ c_str kw ∉ keys c) ∧
        list.last (keys c) = Some v ∧
        ∀ k', k' ∈ keys c → k' ≠ v → accessed_earlier log v k').
Proof.
  apply (lru_order_and_eviction 2
           [Put (B "a" ++ [NUL]) rsp_none; Put (B "b" ++ [NUL]) rsp_zero;
            Get (B "a" ++ [NUL])]
           (Put (B "c" ++ [NUL]) rsp_none)).
  lia.
Defined.

(** A run at capacity 2: after a, b, and a read of a, inserting c
    evicts "b", whose last access is the earliest. *)
Example lru_run :
  let ops := [Put (B "a" ++ [NUL]) rsp_none; Put (B "b" ++ [NUL]) rsp_zero;
              Get (B "a" ++ [NUL])] in
  let c := (run (cache_init uninit 2 None).2 [] ops).1 in
  keys c = [B "a"; B "b"] ∧
  keys (step c (Put (B "c" ++ [NUL]) rsp_none)) = [B "c"; B "a"].
Proof. split; vm_compute; reflexivity. Qed.

(** C8 as stated fails for capacity 0: a Put is then a no-op, so the key
    it names is not at the front of the list, which stays empty. *)
Lemma put_on_capacity_zero_is_dropped :
  let c' := cache_put (cache_init uninit 0 None).2 (B "a" ++ [NUL]) rsp_none in
  keys c' = [] ∧ head c' = None ∧ count c' = 0 ∧ hd_error (keys c') ≠ Some (B "a").
Proof. split_and!; try (vm_compute; reflexivity). vm_compute. discriminate. Qed.

(** C3 (reload order): the property fails on the code.  [load_from_disk]
    links every record it reads in front of [head], so the list after
    loading is the file in reverse: of the two records "k1", "k2" the
    first one ends up at the tail.  [dump_to_disk] writes the list from
    [head] on, most recently used first, so a shutdown and restart turns
    the recency order around. *)
Theorem reload_reverses_file_order :
  keys (cache_init uninit 2 (Some two_records)).2 = [B "k2"; B "k1"] ∧
  keys (cache_init uninit 1 (Some two_records)).2 = [B "k1"] ∧
  keys cache_a_b = [B "b"; B "a"] ∧
  (file ← (cache_cleanup cache_a_b).2;
   Some (keys (cache_init uninit 2 (Some file)).2)) = Some [B "a"; B "b"].
Proof. split_and!; vm_compute; reflexivity. Qed.

End LruExamples.

(** ** Dispatcher *)

Section Dispatch.

(** A request that fails validation never reaches its handler; the child
    hands back the synthetic "ERR" frame. *)
Lemma child_frame_invalid e s req cmd :
  (dismantle_request req cmd (replicate (argc_max cmd) (U32 0))).1 = OS_ERROR →
  dispatch_request e s req cmd = (Failed, s) ∧
  child_frame e s req cmd = Some (wire_frame (op_byte (opcode cmd)) (B "ERR")).
Proof.
  intros H. unfold child_frame, dispatch_request.
  destruct (dismantle_request _ _ _) as [st args]. cbn [fst] in H. subst st.
  done.
Qed.

(** The "ERR" frame as the parent reads it back from the pipe and sends
    it on. *)
Lemma recv_ERR_frame (op : ascii) (pid : Z) :
  (0 < pid)%Z →
  ∃ rsp, proto_recv_rsp (wire_frame op (B "ERR")) = Some rsp ∧
         txp_reply pid (rsp_bytes rsp) (rsp_len (rsp_hdr rsp))
           = [(pid, wire_frame op (B "ERR"))].
Proof.
  intros Hpid.
  assert (Hw : wire_frame op (B "ERR")
               = u16_le 10 ++ [op; zero] ++ tlv_wire (ARG_STR, B "ERR")).
  { unfold wire_frame.
    destruct (simple_rsp_text op (B "ERR")) as (_ & _ & _ & _ & ->);
      [by repeat constructor|apply Nat.leb_le; by vm_compute|done]. }
  rewrite Hw. eexists. split; [by vm_compute|].
  unfold txp_reply. cbn [rsp_hdr rsp_len].
  destruct (decide _) as [[H|[H|H]]|_]; [by vm_compute in H| |lia|by vm_compute].
  exfalso. revert H. apply Nat.le_ngt, Nat.leb_le. by vm_compute.
Qed.

(** The frames [txp_reply] delivers. *)
Lemma txp_reply_frame (pid : Z) (rsp : response_t) :
  txp_reply pid (rsp_bytes rsp) (rsp_len (rsp_hdr rsp))
  = if decide ((0 < pid)%Z ∧ 0 < rsp_len (rsp_hdr rsp) ≤ TXP_MAX)
    then [(pid, proto_send_rsp rsp)] else [].
Proof.
  unfold txp_reply, proto_send_rsp.
  destruct (decide (rsp_len (rsp_hdr rsp) = 0 ∨ TXP_MAX < rsp_len (rsp_hdr rsp) ∨ (pid ≤ 0)%Z))
    as [Hbad|Hok].
  - destruct (decide _) as [Hgood|]; [|done]. lia.
  - destruct (decide _) as [|Hbad]; [done|]. destruct Hbad. lia.
Qed.

(** The "ERR" frame as the parent reads it back from the pipe and sends
    it on. *)
Lemma relay_ERR_frame (op : ascii) (pid : Z) :
  ∃ rsp, proto_recv_rsp (wire_frame op (B "ERR")) = Some rsp ∧
         txp_reply pid (rsp_bytes rsp) (rsp_len (rsp_hdr rsp))
           = if decide (0 < pid)%Z then [(pid, wire_frame op (B "ERR"))] else [].
Proof.
  destruct (decide (0 < pid)%Z) as [Hpid|Hpid]; [by apply recv_ERR_frame|].
  assert (Hw : wire_frame op (B "ERR")
               = u16_le 10 ++ [op; zero] ++ tlv_wire (ARG_STR, B "ERR")).
  { unfold wire_frame.
    destruct (simple_rsp_text op (B "ERR")) as (_ & _ & _ & _ & ->);
      [by repeat constructor|apply Nat.leb_le; by vm_compute|done]. }
  rewrite Hw. eexists. split; [by vm_compute|].
  unfold txp_reply. destruct (decide _) as [_|Hno]; [done|]. destruct Hno. right. right. lia.
Qed.

(** C2 (validation failure on a non-blocking command), as amended: the
    request is not dropped by the server.  The worker child answers with
    the synthetic "ERR" frame for the opcode, and the dispatcher sends it
    as the one reply to the requester when the pid of the request is above
    zero (for another pid nothing can be sent).  An S request whose first
    string hits the cache is answered from the cache before any
    validation: with the cached frame when the pid is above zero and the
    length field of the frame is between 1 and 65535, with nothing
    otherwise.  The store is left as it was and the loop goes on. *)
Theorem invalid_nonblocking_request_is_answered
        (e : env) (st : server_t) (req : request_t) (cmd : cmd_row_t) :
  cmd_by_opcode (req_op req) = Some cmd →
  blocking cmd = false →
  (dismantle_request req cmd (replicate (argc_max cmd) (U32 0))).1 = OS_ERROR →
  let pid := req_pid (req_hdr req) in
  ∃ c,
    serve_request e st req
    = Some {| after := {| docs := docs st; cache := c |};
              replies :=
                match cached_reply st req with
                | Some (hit, _) =>
                    if decide ((0 < pid)%Z ∧ 0 < rsp_len (rsp_hdr hit) ≤ TXP_MAX)
                    then [(pid, proto_send_rsp hit)] else []
                | None =>
                    if decide (0 < pid)%Z
                    then [(pid, wire_frame (op_byte (opcode cmd)) (B "ERR"))] else []
                end;
              shutdown := false |}.
Proof.
  intros Hcmd Hnb Hbad pid. unfold serve_request. rewrite Hcmd.
  destruct (cached_reply st req) as [[hit c]|].
  { exists c. fold pid. by rewrite txp_reply_frame. }
  unfold serve_miss. rewrite Hnb. cbn [negb].
  destruct (child_frame_invalid e (docs st) req cmd Hbad) as [_ ->].
  cbn [mbind option_bind]. fold pid.
  destruct (relay_ERR_frame (op_byte (opcode cmd)) pid) as (rsp & -> & ->).
  eexists. reflexivity.
Qed.

(** A blocking command that fails validation is dropped without reply. *)
Lemma invalid_blocking_request_is_dropped
      (e : env) (st : server_t) (req : request_t) (cmd : cmd_row_t) :
  cmd_by_opcode (req_op req) = Some cmd →
  blocking cmd = true →
  (dismantle_request req cmd (replicate (argc_max cmd) (U32 0))).1 = OS_ERROR →
  serve_request e st req
  = Some {| after := st; replies := []; shutdown := false |}.
Proof.
  intros Hcmd Hb Hbad. unfold serve_request. rewrite Hcmd.
  assert (cached_reply st req = None) as ->.
  { unfold cached_reply. destruct (decide (req_op req = OP_S)) as [Hop|]; [|done].
    rewrite Hop in Hcmd. vm_compute in Hcmd. simplify_eq. }
  unfold serve_miss. rewrite Hb. cbn [negb].
  destruct (child_frame_invalid e (docs st) req cmd Hbad) as [-> _].
  by destruct st.
Qed.

End Dispatch.

Section CacheKeys.

Lemma strlen_terminated (v : list ascii) : strlen (v ++ [NUL]) ≤ length v.
Proof.
  induction v as [|c v IH]; cbn; [by destruct (decide _)|].
  destruct (decide _); lia.
Qed.

(** The two ways a key reaches the cache, the S argument of a request
    and a record of the persistence file, both bound it by 255 bytes. *)
Lemma first_str_key_bound req kw :
  proto_arg_first_str req 256 = (OS_OK, kw) → length (c_str kw) ≤ 255.
Proof.
  unfold proto_arg_first_str, proto_cursor_next.
  cbn [proto_cursor_init mem cur c_end].
  repeat (case_decide; try done).
  intros [= <-]. unfold c_str. rewrite length_take.
  change (0 + 1) with 1 in *. change (0 + 2) with 2 in *.
  match goal with |- context [strlen (?v ++ [NUL])] =>
    pose proof (strlen_terminated v) as Hs end.
  unfold slice in *. rewrite length_take in Hs. lia.
Qed.

Lemma read_record_key_bound rest kbuf r rest' :
  Cache.read_record rest = Some (kbuf, r, rest') → length (c_str kbuf) ≤ 255.
Proof.
  unfold Cache.read_record, txp_read. intros H.
  repeat (case_decide; simplify_option_eq; try done).
  unfold c_str. rewrite length_take.
  match goal with |- context [strlen (?v ++ [NUL])] =>
    pose proof (strlen_terminated v) as Hs end.
  rewrite length_take in Hs. unfold Cache.MAX_KEY_LEN in *. lia.
Qed.

End CacheKeys.

Section DispatchExamples.

Lemma invalid_nonblocking_request_is_answered_witness :
  replies <$> serve_request (env_f_txt (B "x")) (server_T 1) (received OP_C 1234 [])
  = Some [(1234%Z, wire_frame (op_byte OP_C) (B "ERR"))].
Proof.
  destruct (invalid_nonblocking_request_is_answered
              (env_f_txt (B "x")) (server_T 1) (received OP_C 1234 []) row_C)
    as [c Hc].
  - vm_compute. reflexivity.
  - reflexivity.
  - vm_compute. reflexivity.
  - rewrite Hc. vm_compute. reflexivity.
Defined.

(** C2 as stated fails: a C request without its mandatory argument, an L
    request whose first argument has the wrong type, and an S request with
    a corrupt TLV all fail validation, and each is answered with the "ERR"
    frame. *)
Lemma invalid_C_L_S_requests_get_a_reply :
  let e := env_f_txt (B "x") in
  let req_C := received OP_C 1234 [] in
  let req_L := received OP_L 1234 [(ARG_STR, B "x"); (ARG_STR, B "x")] in
  proto_recv_req (wire_request OP_C 1234 []) = Some (req_C, []) ∧
  cmd_by_opcode (req_op req_C) = Some row_C ∧
  cmd_by_opcode (req_op req_L) = Some row_L ∧
  cmd_by_opcode (req_op corrupt_S) = Some row_S ∧
  (dismantle_request req_C row_C [U32 0]).1 = OS_ERROR ∧
  (dismantle_request req_L row_L [U32 0; U32 0]).1 = OS_ERROR ∧
  (dismantle_request corrupt_S row_S [U32 0; U32 0]).1 = OS_ERROR ∧
  replies <$> serve_request e (server_T 1) req_C
    = Some [(1234%Z, wire_frame (op_byte OP_C) (B "ERR"))] ∧
  replies <$> serve_request e (server_T 1) req_L
    = Some [(1234%Z, wire_frame (op_byte OP_L) (B "ERR"))] ∧
  replies <$> serve_request e (server_T 1) corrupt_S
    = Some [(1234%Z, wire_frame (op_byte OP_S) (B "ERR"))].
Proof. split_and!; vm_compute; reflexivity. Qed.

(** C10 (cache keys are non-empty): the property fails on the code.  An S
    request whose term is the one byte NUL passes first-string extraction
    (its length is 1), but the key handed to the cache is the C string in
    the buffer, which is empty: after the request the cache holds the
    empty key.  [dump_to_disk] then writes a key length of 0, which
    [load_from_disk] refuses, cutting the reload short. *)
Theorem empty_key_enters_cache :
  let e := env_f_txt (B "x") in
  proto_recv_req (wire_request OP_S 1234 [(ARG_STR, [NUL])]) = Some (nul_term_S, []) ∧
  proto_arg_first_str nul_term_S 256 = (OS_OK, [NUL; NUL]) ∧
  (r ← serve_request e (server_T 2) nul_term_S;
   Some (Cache.keys (cache (after r)))) = Some [[]] ∧
  (r ← serve_request e (server_T 2) nul_term_S;
   file ← (Cache.cache_cleanup (cache (after r))).2;
   Some (take 6 file, Cache.keys (Cache.cache_init Cache.uninit 2 (Some file)).2))
  = Some (u32_le 1 ++ u16_le 0, []).
Proof. split_and!; vm_compute; reflexivity. Qed.

End DispatchExamples.

(** ** Builder, cursor and frames on arbitrary inputs *)

Section ScalarCodec.

Lemma nat_of_ascii_bound c : nat_of_ascii c < 256.
Proof. apply nat_ascii_bounded. Qed.

Lemma le_u16_bound lo hi : le_u16 lo hi < U16_MOD.
Proof.
  unfold le_u16, U16_MOD.
  pose proof (nat_of_ascii_bound lo). pose proof (nat_of_ascii_bound hi). lia.
Qed.

Lemma u16_le_dec lo hi : u16_le (le_u16 lo hi) = [lo; hi].
Proof.
  unfold u16_le, le_u16.
  pose proof (nat_of_ascii_bound lo) as Hlo. pose proof (nat_of_ascii_bound hi) as Hhi.
  rewrite <- (Nat.mod_unique (nat_of_ascii lo + 256 * nat_of_ascii hi) 256
                (nat_of_ascii hi) (nat_of_ascii lo)) by lia.
  rewrite <- (Nat.div_unique (nat_of_ascii lo + 256 * nat_of_ascii hi) 256
                (nat_of_ascii hi) (nat_of_ascii lo)) by lia.
  rewrite (Nat.mod_small (nat_of_ascii hi)) by done.
  by rewrite !ascii_nat_embedding.
Qed.

Lemma N_of_ascii_of_N_small n : (n < 256)%N → N_of_ascii (ascii_of_N n) = n.
Proof. apply N_ascii_embedding. Qed.

Lemma le_u32_enc x : (0 ≤ x < 4294967296)%Z → le_u32 (u32_le x) = x.
Proof.
  intros Hx. unfold le_u32, u32_le, byte_at. cbn [lookup list_lookup default from_option id].
  rewrite !N_ascii_embedding.
  2-5: apply N2Z.inj_lt; rewrite Z2N.id; [apply Z.mod_pos_bound; lia|apply Z.mod_pos_bound; lia].
  rewrite !Z2N.id by (apply Z.mod_pos_bound; lia).
  assert (E2 : (x / 65536 = x / 256 / 256)%Z) by (by rewrite Z.div_div by lia).
  assert (E3 : (x / 16777216 = x / 256 / 256 / 256)%Z) by (by rewrite !Z.div_div by lia).
  rewrite E2, E3.
  pose proof (Z.div_mod x 256 ltac:(lia)).
  pose proof (Z.div_mod (x / 256) 256 ltac:(lia)).
  pose proof (Z.div_mod (x / 256 / 256) 256 ltac:(lia)).
  assert (x / 256 / 256 / 256 < 256)%Z.
  { rewrite <- E3. apply Z.div_lt_upper_bound; lia. }
  assert (0 ≤ x / 256 / 256 / 256)%Z by (rewrite <- E3; apply Z.div_pos; lia).
  rewrite (Z.mod_small (x / 256 / 256 / 256)) by lia.
  lia.
Qed.

Lemma pid_roundtrip pid :
  (-2147483648 ≤ pid < 2147483648)%Z →
  to_int32 (le_u32 (u32_le (to_uint32 pid))) = pid.
Proof.
  intros Hp. rewrite le_u32_enc by (unfold to_uint32; apply Z.mod_pos_bound; lia).
  unfold to_int32, to_uint32.
  rewrite Zplus_mod_idemp_l.
  rewrite Z.mod_small by lia. lia.
Qed.

End ScalarCodec.

Section BuilderWindow.

Lemma memcpy_drop_after dst off src n :
  off + length src ≤ length dst → off + length src ≤ n →
  drop n (memcpy dst off src) = drop n dst.
Proof.
  intros Hfit Hn. unfold memcpy. rewrite app_assoc.
  rewrite drop_app_ge by (rewrite length_app, length_take; lia).
  rewrite length_app, length_take, drop_drop. f_equal. lia.
Qed.

(** X1 (proto_add_tlv): a successful call writes the three header bytes
    and the value at [used] and nothing else: the bytes before and behind
    that window, the capacity and the size of the buffer stay as they
    were, and [used] moves to the end of the window.  A refused call (the
    value is longer than 65535 bytes, or the window would pass the
    capacity) leaves the builder as it was. *)
Theorem add_tlv_writes_only_its_window (b : proto_builder_t) (t : ascii) (v : list ascii) :
  builder_wf b →
  match proto_add_tlv b t v with
  | (OS_OK, b') =>
      length v ≤ UINT16_MAX ∧
      used b' = used b + TLV_HDR_SZ + length v ∧ used b' ≤ cap b' ∧
      cap b' = cap b ∧ length (buf b') = length (buf b) ∧
      take (used b) (buf b') = take (used b) (buf b) ∧
      slice (buf b') (used b) (TLV_HDR_SZ + length v) = tlv_hdr t (length v) ++ v ∧
      drop (used b') (buf b') = drop (used b') (buf b)
  | (_, b') =>
      b' = b ∧ (UINT16_MAX < length v ∨ cap b < used b + TLV_HDR_SZ + length v)
  end.
Proof.
  intros [Hlen Hused]. unfold proto_add_tlv.
  destruct (decide (UINT16_MAX < length v)) as [Hbig|Hsmall]; [by auto|].
  destruct (decide (cap b < used b + (TLV_HDR_SZ + length v))) as [Hover|Hfit].
  { split; [done|]. right. lia. }
  cbn [buf cap used].
  set (buf1 := memcpy (buf b) (used b) (tlv_hdr t (length v))).
  assert (Hlen1 : length buf1 = length (buf b)).
  { apply memcpy_length. rewrite tlv_hdr_length. lia. }
  split_and!; try lia.
  - rewrite memcpy_length; lia.
  - rewrite memcpy_take_before by lia.
    subst buf1. by rewrite memcpy_take_before by lia.
  - unfold slice. rewrite take_drop_commute.
    rewrite Nat.add_assoc, memcpy_take by lia.
    rewrite <- (tlv_hdr_length t (length v)) at 1.
    subst buf1. rewrite memcpy_take by (rewrite tlv_hdr_length; lia).
    rewrite <- app_assoc, drop_app_length'; [done|].
    rewrite length_take. lia.
  - rewrite memcpy_drop_after by lia.
    subst buf1. rewrite memcpy_drop_after; [done|rewrite tlv_hdr_length; lia..].
Qed.

Lemma add_tlv_writes_only_its_window_witness :
  match proto_add_tlv {| buf := replicate 8 NUL; cap := 8; used := 0 |} ARG_STR (B "ab") with
  | (OS_OK, b') =>
      2 ≤ UINT16_MAX ∧
      used b' = 0 + TLV_HDR_SZ + 2 ∧ used b' ≤ cap b' ∧
      cap b' = 8 ∧ length (buf b') = 8 ∧
      take 0 (buf b') = take 0 (replicate 8 NUL) ∧
      slice (buf b') 0 (TLV_HDR_SZ + 2) = tlv_hdr ARG_STR 2 ++ B "ab" ∧
      drop (used b') (buf b') = drop (used b') (replicate 8 NUL)
  | (_, b') =>
      b' = {| buf := replicate 8 NUL; cap := 8; used := 0 |} ∧
      (UINT16_MAX < 2 ∨ 8 < 0 + TLV_HDR_SZ + 2)
  end.
Proof.
  apply (add_tlv_writes_only_its_window
           {| buf := replicate 8 NUL; cap := 8; used := 0 |} ARG_STR (B "ab")).
  split; reflexivity || (cbn; lia).
Defined.

End BuilderWindow.

Section CursorAnyBytes.

Lemma take_3_bytes m i :
  i + 3 ≤ length m →
  take 3 (drop i m) = [byte_at m i; byte_at m (i + 1); byte_at m (i + 2)].
Proof.
  intros Hi.
  destruct (drop i m) as [|a [|b [|c l]]] eqn:E;
    try (apply (f_equal length) in E; rewrite length_drop in E; simpl in E; lia).
  rewrite <- !byte_at_drop, <- byte_at_drop0, E. done.
Qed.

Lemma cursor_walk_prefix fuel : ∀ c,
  cur c ≤ c_end c → c_end c ≤ length (mem c) →
  c_end c - cur c < fuel →
  ∃ tlvs st,
    cursor_walk fuel c = Some (tlvs, st) ∧
    (st = OS_OK ∨ st = OS_ERROR) ∧
    tlvs_size tlvs ≤ c_end c - cur c ∧
    tlvs_wire tlvs = take (tlvs_size tlvs) (drop (cur c) (mem c)) ∧
    Forall (λ tv, length tv.2 < U16_MOD) tlvs ∧
    (st = OS_OK → c_end c - cur c - tlvs_size tlvs < TLV_HDR_SZ).
Proof.
  induction fuel as [|fuel IH]; intros c Hcur Hend Hfuel; [lia|].
  cbn [cursor_walk]. unfold proto_cursor_next.
  destruct (decide (c_end c < cur c + TLV_HDR_SZ)) as [Hshort|Hhdr].
  { exists [], OS_OK. unfold tlvs_size, tlvs_wire. cbn.
    split_and!; auto; try lia. }
  set (l := le_u16 (byte_at (mem c) (cur c + 1)) (byte_at (mem c) (cur c + 2))).
  destruct (decide (c_end c < cur c + (TLV_HDR_SZ + l))) as [Hcut|Hfit].
  { exists [], OS_ERROR. unfold tlvs_size, tlvs_wire. cbn.
    split_and!; auto; try lia; done. }
  unfold TLV_HDR_SZ in *.
  destruct (IH {| mem := mem c; cur := cur c + (3 + l); c_end := c_end c |})
    as (tlvs & st & Hwalk & Hst & Hsize & Hwire & Hall & Hrest);
    cbn [mem cur c_end]; try lia.
  cbn [mem cur c_end] in *. rewrite Hwalk.
  set (v := slice (mem c) (cur c + 3) l).
  assert (Hv : length v = l).
  { unfold v, slice. rewrite length_take, length_drop. lia. }
  assert (Hl : l < U16_MOD) by apply le_u16_bound.
  exists ((byte_at (mem c) (cur c), v) :: tlvs), st.
  rewrite tlvs_size_cons, tlvs_wire_cons. unfold tlv_size. cbn [snd fst].
  unfold TLV_HDR_SZ. rewrite Hv.
  split_and!; try done; try lia.
  - rewrite <- take_take_drop. f_equal.
    + unfold tlv_wire, tlv_hdr. cbn [fst snd]. rewrite Hv, Nat.mod_small by done.
      unfold l at 1. rewrite u16_le_dec.
      rewrite <- take_take_drop, take_3_bytes by lia.
      cbn [app]. do 3 f_equal. unfold v, slice. by rewrite drop_drop.
    + by rewrite Hwire, drop_drop.
  - constructor; [cbn [snd]; lia|done].
  - intros Hok. specialize (Hrest Hok). lia.
Qed.

(** X2 (proto_cursor_next, walked to its end): over any bytes at all, a
    cursor whose window lies inside its buffer stops after finitely many
    steps, with End or with the corruption error; the TLVs it yields are,
    byte for byte, a prefix of the window (re-encoding them gives the
    bytes read), so no value reaches past the window; and it reports End
    only when fewer than three bytes are left. *)
Theorem cursor_reads_a_prefix_of_any_payload (c : proto_cursor_t) :
  cur c ≤ c_end c → c_end c ≤ length (mem c) →
  ∃ tlvs st,
    cursor_all c = Some (tlvs, st) ∧
    (st = OS_OK ∨ st = OS_ERROR) ∧
    tlvs_size tlvs ≤ c_end c - cur c ∧
    tlvs_wire tlvs = take (tlvs_size tlvs) (drop (cur c) (mem c)) ∧
    (st = OS_OK → c_end c - cur c - tlvs_size tlvs < TLV_HDR_SZ).
Proof.
  intros Hcur Hend.
  destruct (cursor_walk_prefix (S (c_end c - cur c)) c)
    as (tlvs & st & Hwalk & Hst & Hsize & Hwire & _ & Hrest); try lia.
  by exists tlvs, st.
Qed.

Lemma cursor_reads_a_prefix_of_any_payload_witness :
  let c := proto_cursor_init (req_payload corrupt_S) 4 in
  ∃ tlvs st,
    cursor_all c = Some (tlvs, st) ∧
    (st = OS_OK ∨ st = OS_ERROR) ∧
    tlvs_size tlvs ≤ c_end c - cur c ∧
    tlvs_wire tlvs = take (tlvs_size tlvs) (drop (cur c) (mem c)) ∧
    (st = OS_OK → c_end c - cur c - tlvs_size tlvs < TLV_HDR_SZ).
Proof.
  apply (cursor_reads_a_prefix_of_any_payload
           (proto_cursor_init (req_payload corrupt_S) 4)); cbn; lia.
Defined.

End CursorAnyBytes.

Section FramesOnTheWire.

Lemma N_of_ascii_bound c : (N_of_ascii c < 256)%N.
Proof.
  pose proof (nat_of_ascii_bound c) as H. unfold nat_of_ascii in H. lia.
Qed.

Lemma u32_le_dec a b c d : u32_le (le_u32 [a; b; c; d]) = [a; b; c; d].
Proof.
  unfold le_u32, u32_le, byte_at. cbn [lookup list_lookup default from_option id].
  pose proof (N_of_ascii_bound a). pose proof (N_of_ascii_bound b).
  pose proof (N_of_ascii_bound c). pose proof (N_of_ascii_bound d).
  set (x := (Z.of_N (N_of_ascii a) + 256 * Z.of_N (N_of_ascii b)
             + 65536 * Z.of_N (N_of_ascii c) + 16777216 * Z.of_N (N_of_ascii d))%Z).
  assert (E0 : (x mod 256 = Z.of_N (N_of_ascii a))%Z).
  { symmetry. apply (Z.mod_unique_pos x 256
      (Z.of_N (N_of_ascii b) + 256 * Z.of_N (N_of_ascii c) + 65536 * Z.of_N (N_of_ascii d)));
      subst x; lia. }
  assert (D1 : (x / 256 = Z.of_N (N_of_ascii b) + 256 * Z.of_N (N_of_ascii c)
                          + 65536 * Z.of_N (N_of_ascii d))%Z).
  { symmetry. apply (Z.div_unique_pos x 256 _ (Z.of_N (N_of_ascii a))); subst x; lia. }
  assert (D2 : (x / 65536 = Z.of_N (N_of_ascii c) + 256 * Z.of_N (N_of_ascii d))%Z).
  { symmetry. apply (Z.div_unique_pos x 65536 _
      (Z.of_N (N_of_ascii a) + 256 * Z.of_N (N_of_ascii b))); subst x; lia. }
  assert (D3 : (x / 16777216 = Z.of_N (N_of_ascii d))%Z).
  { symmetry. apply (Z.div_unique_pos x 16777216 _
      (Z.of_N (N_of_ascii a) + 256 * Z.of_N (N_of_ascii b) + 65536 * Z.of_N (N_of_ascii c)));
      subst x; lia. }
  assert (E1 : ((x / 256) mod 256 = Z.of_N (N_of_ascii b))%Z).
  { rewrite D1. symmetry.
    apply (Z.mod_unique_pos _ 256 (Z.of_N (N_of_ascii c) + 256 * Z.of_N (N_of_ascii d))); lia. }
  assert (E2 : ((x / 65536) mod 256 = Z.of_N (N_of_ascii c))%Z).
  { rewrite D2. symmetry. apply (Z.mod_unique_pos _ 256 (Z.of_N (N_of_ascii d))); lia. }
  assert (E3 : ((x / 16777216) mod 256 = Z.of_N (N_of_ascii d))%Z).
  { rewrite D3. apply Z.mod_small. lia. }
  rewrite E0, E1, E2, E3, !N2Z.id, !ascii_N_embedding. done.
Qed.

Lemma le_u32_range bs : (0 ≤ le_u32 bs < 4294967296)%Z.
Proof.
  unfold le_u32.
  pose proof (N_of_ascii_bound (byte_at bs 0)). pose proof (N_of_ascii_bound (byte_at bs 1)).
  pose proof (N_of_ascii_bound (byte_at bs 2)). pose proof (N_of_ascii_bound (byte_at bs 3)).
  lia.
Qed.

Lemma to_uint32_of_int32 x : (0 ≤ x < 4294967296)%Z → to_uint32 (to_int32 x) = x.
Proof.
  intros Hx. unfold to_uint32, to_int32.
  rewrite <- Zminus_mod_idemp_l, Z.mod_mod by lia.
  replace ((x + 2147483648 - 2147483648))%Z with x by lia.
  rewrite <- (Z.mod_small x 4294967296) at 2 by lia.
  rewrite Zminus_mod_idemp_l. f_equal. lia.
Qed.

Lemma list_of_length_7 (l : list ascii) :
  length l = 7 → ∃ a b c d e f g, l = [a; b; c; d; e; f; g].
Proof.
  destruct l as [|a [|b [|c [|d [|e [|f [|g [|h l]]]]]]]]; try done. eauto 10.
Qed.

(** X3 (proto_recv_req): whatever bytes arrive on the listen FIFO, a
    request that is accepted is one whole frame.  Its length field lies
    between the header size and [REQ_MAX], its payload has exactly the
    announced size, the process id is a 32-bit signed value, exactly the
    frame's bytes were consumed, and sending the request again writes
    those same bytes. *)
Theorem received_request_is_one_whole_frame
        (fifo : list ascii) (req : request_t) (rest : list ascii) :
  proto_recv_req fifo = Some (req, rest) →
  REQ_HDR_SZ ≤ req_len (req_hdr req) ≤ REQ_MAX ∧
  length (req_payload req) = req_len (req_hdr req) - REQ_HDR_SZ ∧
  (-2147483648 ≤ req_pid (req_hdr req) < 2147483648)%Z ∧
  fifo = proto_send_req req ++ rest ∧
  length (proto_send_req req) = req_len (req_hdr req).
Proof.
  unfold proto_recv_req, txp_read. intros H.
  destruct (decide (length fifo < REQ_HDR_SZ)) as [|Hhdr]; [done|].
  cbn [mbind option_bind] in H.
  set (len := le_u16 (byte_at (take REQ_HDR_SZ fifo) 0) (byte_at (take REQ_HDR_SZ fifo) 1)) in *.
  destruct (decide (len < REQ_HDR_SZ ∨ REQ_MAX < len)) as [|Hlen]; [done|].
  destruct (decide (length (drop REQ_HDR_SZ fifo) < len - REQ_HDR_SZ)) as [|Hpay]; [done|].
  cbn [mbind option_bind] in H. injection H as <- <-.
  cbn [req_hdr req_len req_pid req_opcode req_payload].
  rewrite length_drop in Hpay. unfold REQ_HDR_SZ, REQ_MAX in *.
  destruct (list_of_length_7 (take 7 fifo)) as (a & b & c & d & e & f & g & Hseven).
  { rewrite length_take. lia. }
  assert (Hsend : proto_send_req
            {| req_hdr := {| req_len := len; req_opcode := byte_at (take 7 fifo) 2;
                             req_pid := to_int32 (le_u32 (drop 3 (take 7 fifo))) |};
               req_payload := take (len - 7) (drop 7 fifo) |}
          = take 7 fifo ++ take (len - 7) (drop 7 fifo)).
  { unfold proto_send_req, req_bytes.
    cbn [req_hdr req_len req_pid req_opcode req_payload].
    rewrite to_uint32_of_int32 by apply le_u32_range.
    unfold len at 2. rewrite Hseven. cbn [drop byte_at lookup list_lookup default from_option id].
    rewrite u16_le_dec, u32_le_dec. cbn [app].
    replace len with (7 + (len - 7)) at 1 by lia.
    apply take_ge. cbn [length]. rewrite length_take, length_drop. lia. }
  pose proof (to_int32_range (le_u32 (drop 3 (take 7 fifo)))).
  split_and!; try lia.
  - rewrite length_take, length_drop. lia.
  - rewrite Hsend, <- app_assoc, (take_drop (len - 7)), take_drop. done.
  - rewrite Hsend, length_app, !length_take, length_drop. lia.
Qed.

Lemma received_request_is_one_whole_frame_witness :
  let fifo := wire_request OP_S 1234 [(ARG_STR, B "x")] ++ B "tail" in
  let req := received OP_S 1234 [(ARG_STR, B "x")] in
  REQ_HDR_SZ ≤ req_len (req_hdr req) ≤ REQ_MAX ∧
  length (req_payload req) = req_len (req_hdr req) - REQ_HDR_SZ ∧
  (-2147483648 ≤ req_pid (req_hdr req) < 2147483648)%Z ∧
  fifo = proto_send_req req ++ B "tail" ∧
  length (proto_send_req req) = req_len (req_hdr req).
Proof.
  apply (received_request_is_one_whole_frame
           (wire_request OP_S 1234 [(ARG_STR, B "x")] ++ B "tail")
           (received OP_S 1234 [(ARG_STR, B "x")]) (B "tail")).
  vm_compute. reflexivity.
Defined.

End FramesOnTheWire.

Section SendThenReceive.

Lemma u16_le_length n : length (u16_le n) = 2.
Proof. done. Qed.

Lemma le_u16_u16_le n : n < U16_MOD → ∃ lo hi, u16_le n = [lo; hi] ∧ le_u16 lo hi = n.
Proof. intros Hn. eexists _, _. split; [done|]. by apply le_u16_enc. Qed.

(** The bytes [proto_send_req] writes: the packed header and the
    announced part of the payload. *)
Lemma send_req_layout (req : request_t) :
  REQ_HDR_SZ ≤ req_len (req_hdr req) →
  proto_send_req req
  = (u16_le (req_len (req_hdr req)) ++ [req_opcode (req_hdr req)]
     ++ u32_le (to_uint32 (req_pid (req_hdr req))))
    ++ take (req_len (req_hdr req) - REQ_HDR_SZ) (req_payload req).
Proof.
  destruct req as [[len op pid] payload]. cbn [req_hdr req_len req_pid req_opcode req_payload].
  unfold REQ_HDR_SZ. intros Hlen. unfold proto_send_req, req_bytes.
  cbn [req_hdr req_len req_pid req_opcode req_payload].
  replace len with (7 + (len - 7)) at 1 by lia. done.
Qed.

(** What [proto_recv_req] makes of such bytes. *)
Lemma recv_req_layout (len : nat) (op : ascii) (pid : Z) (payload rest : list ascii) :
  REQ_HDR_SZ ≤ len ≤ REQ_MAX →
  length payload = len - REQ_HDR_SZ →
  (-2147483648 ≤ pid < 2147483648)%Z →
  proto_recv_req ((u16_le len ++ [op] ++ u32_le (to_uint32 pid)) ++ payload ++ rest)
  = Some ({| req_hdr := {| req_len := len; req_opcode := op; req_pid := pid |};
             req_payload := payload |}, rest).
Proof.
  unfold REQ_HDR_SZ, REQ_MAX. intros Hlen Hpay Hpid.
  destruct (le_u16_u16_le len) as (lo & hi & Hlo & Hdec); [unfold U16_MOD; lia|].
  assert (∃ p0 p1 p2 p3, u32_le (to_uint32 pid) = [p0; p1; p2; p3]) as (p0 & p1 & p2 & p3 & Hp)
    by (by eexists _, _, _, _).
  rewrite Hlo, Hp. cbn [app]. unfold proto_recv_req, txp_read.
  destruct (decide _) as [Hbad|_].
  { unfold REQ_HDR_SZ in Hbad. simpl in Hbad. lia. }
  cbn [mbind option_bind]. unfold REQ_HDR_SZ. cbn [app take drop].
  rewrite drop_0, take_0.
  cbn [byte_at lookup list_lookup default from_option id]. rewrite Hdec.
  destruct (decide (len < 7 ∨ REQ_MAX < len)) as [Hbad|_]; [unfold REQ_MAX in Hbad; lia|].
  destruct (decide _) as [Hbad|_].
  { rewrite length_app in Hbad. lia. }
  cbn [mbind option_bind].
  rewrite take_app_length', drop_app_length' by lia.
  rewrite <- Hp, pid_roundtrip by done. done.
Qed.

(** X4 (proto_send_req, proto_recv_req): a request whose length field is
    between the header size and [REQ_MAX] and covers no more than its
    payload array, sent by a process with a 32-bit id, is received from
    the FIFO as it was sent: same length, opcode and process id, and the
    announced part of the payload; the bytes behind the frame stay on the
    FIFO for the next read. *)
Theorem sent_request_is_received (req : request_t) (rest : list ascii) :
  REQ_HDR_SZ ≤ req_len (req_hdr req) ≤ REQ_MAX →
  req_len (req_hdr req) - REQ_HDR_SZ ≤ length (req_payload req) →
  (-2147483648 ≤ req_pid (req_hdr req) < 2147483648)%Z →
  proto_recv_req (proto_send_req req ++ rest)
  = Some ({| req_hdr := req_hdr req;
             req_payload := take (req_len (req_hdr req) - REQ_HDR_SZ) (req_payload req) |},
          rest).
Proof.
  intros Hlen Hpay Hpid. rewrite send_req_layout by lia.
  rewrite <- app_assoc, recv_req_layout; [by destruct req as [[]]|done| |done].
  rewrite length_take. lia.
Qed.

Lemma sent_request_is_received_witness :
  let req := received OP_S 1234 [(ARG_STR, B "x")] in
  proto_recv_req (proto_send_req req ++ B "tail")
  = Some ({| req_hdr := req_hdr req;
             req_payload := take (req_len (req_hdr req) - REQ_HDR_SZ) (req_payload req) |},
          B "tail").
Proof.
  apply (sent_request_is_received (received OP_S 1234 [(ARG_STR, B "x")]) (B "tail")).
  - split; apply Nat.leb_le; vm_compute; reflexivity.
  - apply Nat.leb_le. vm_compute. reflexivity.
  - cbn. lia.
Defined.

(** X5 (proto_send_rsp, proto_recv_rsp): a response whose length field
    is between the header size and [RSP_MAX] and covers no more than its
    payload array is read back from the pipe with the same header and the
    announced part of the payload, and sending what was read writes the
    very bytes the child wrote: the parent relays a worker's frame
    unchanged. *)
Theorem relayed_response_is_unchanged (rsp : response_t) :
  RSP_HDR_SZ ≤ rsp_len (rsp_hdr rsp) ≤ RSP_MAX →
  rsp_len (rsp_hdr rsp) - RSP_HDR_SZ ≤ length (rsp_payload rsp) →
  ∃ got, proto_recv_rsp (proto_send_rsp rsp) = Some got ∧
         rsp_hdr got = rsp_hdr rsp ∧
         rsp_payload got = take (rsp_len (rsp_hdr rsp) - RSP_HDR_SZ) (rsp_payload rsp) ∧
         proto_send_rsp got = proto_send_rsp rsp.
Proof.
  destruct rsp as [[len op st] payload].
  cbn [rsp_hdr rsp_len rsp_opcode rsp_status rsp_payload].
  unfold RSP_HDR_SZ, RSP_MAX. intros Hlen Hpay.
  destruct (le_u16_u16_le len) as (lo & hi & Hlo & Hdec); [unfold U16_MOD; lia|].
  assert (Hsend : proto_send_rsp {| rsp_hdr := {| rsp_len := len; rsp_opcode := op;
                                                  rsp_status := st |};
                                    rsp_payload := payload |}
                  = [lo; hi; op; st] ++ take (len - 4) payload).
  { unfold proto_send_rsp, rsp_bytes.
    cbn [rsp_hdr rsp_len rsp_opcode rsp_status rsp_payload]. rewrite Hlo. cbn [app].
    replace len with (4 + (len - 4)) at 1 by lia. done. }
  rewrite Hsend. unfold proto_recv_rsp, txp_read.
  destruct (decide _) as [Hbad|_].
  { unfold RSP_HDR_SZ in Hbad. simpl in Hbad. lia. }
  cbn [mbind option_bind]. unfold RSP_HDR_SZ. cbn [app take drop].
  rewrite drop_0, take_0.
  cbn [byte_at lookup list_lookup default from_option id]. rewrite Hdec.
  destruct (decide (len < 4 ∨ RSP_MAX < len)) as [Hbad|_]; [unfold RSP_MAX in Hbad; lia|].
  destruct (decide _) as [Hbad|_].
  { rewrite length_take in Hbad. lia. }
  cbn [mbind option_bind]. eexists. split; [done|].
  unfold rsp_of_bytes. cbn [app byte_at lookup list_lookup default from_option id].
  rewrite Hdec. unfold RSP_HDR_SZ. cbn [drop rsp_hdr rsp_payload].
  rewrite take_ge by (rewrite length_take; lia).
  split_and!; try done.
  unfold proto_send_rsp at 1, rsp_bytes.
  cbn [rsp_hdr rsp_len rsp_opcode rsp_status rsp_payload]. rewrite Hlo. cbn [app].
  replace len with (4 + (len - 4)) at 1 by lia. cbn [take Nat.add].
  do 4 f_equal. apply take_ge. rewrite length_take. lia.
Qed.

Lemma relayed_response_is_unchanged_witness :
  ∃ got, proto_recv_rsp (proto_send_rsp rsp_zero) = Some got ∧
         rsp_hdr got = rsp_hdr rsp_zero ∧
         rsp_payload got
         = take (rsp_len (rsp_hdr rsp_zero) - RSP_HDR_SZ) (rsp_payload rsp_zero) ∧
         proto_send_rsp got = proto_send_rsp rsp_zero.
Proof.
  apply (relayed_response_is_unchanged rsp_zero).
  - split; apply Nat.leb_le; vm_compute; reflexivity.
  - apply Nat.leb_le. vm_compute. reflexivity.
Defined.

End SendThenReceive.

Section SimpleFrames.

(** X6 (proto_build_simple_rsp): the frame carries the C string of the
    message as its one string TLV when that fits the payload (at most
    65528 bytes); a longer message is not reported as an error but
    dropped, and the frame sent is the bare four-byte header. *)
Theorem simple_rsp_carries_message_or_nothing (op : ascii) (msg : list ascii) :
  let text := c_str msg in
  proto_send_rsp (proto_build_simple_rsp op (Some msg))
  = if decide (length text ≤ RSP_MAX - RSP_HDR_SZ - TLV_HDR_SZ)
    then u16_le (RSP_HDR_SZ + TLV_HDR_SZ + length text) ++ [op; zero]
         ++ tlv_wire (ARG_STR, text)
    else u16_le RSP_HDR_SZ ++ [op; zero].
Proof.
  intros text. unfold proto_build_simple_rsp, proto_rsp_init. cbv beta iota zeta.
  fold text.
  destruct (decide (length text ≤ RSP_MAX - RSP_HDR_SZ - TLV_HDR_SZ)) as [Hfit|Hlong].
  - destruct (builder_cursor_roundtrip (RSP_MAX - RSP_HDR_SZ) [(ARG_STR, text)])
      as (b & Hadd & Hused & Hwire & _); [sz|rewrite tlvs_size_single; sz|].
    cbn [add_tlvs] in Hadd.
    destruct (proto_add_tlv _ ARG_STR text) as [st b'] eqn:Hone.
    assert (st = OS_OK ∧ b' = b) as [-> ->] by (destruct st; by simplify_eq).
    cbn [snd]. rewrite tlvs_size_single in Hused.
    unfold proto_rsp_finish, check_cap.
    destruct (decide (RSP_MAX < RSP_HDR_SZ + used b)) as [Hbad|_]; [sz|].
    unfold proto_send_rsp, rsp_bytes.
    cbn [snd rsp_hdr rsp_len rsp_opcode rsp_status rsp_payload].
    rewrite (Nat.mod_small (RSP_HDR_SZ + used b)) by sz.
    rewrite Hused, !app_assoc.
    rewrite take_app_ge by (cbn [length app u16_le]; sz).
    replace (RSP_HDR_SZ + (TLV_HDR_SZ + length text)) with (RSP_HDR_SZ + TLV_HDR_SZ + length text)
      by lia.
    f_equal. cbn [length app u16_le].
    replace (RSP_HDR_SZ + TLV_HDR_SZ + length text - 4) with (used b) by sz.
    rewrite Hwire. unfold tlvs_wire. cbn [fmap list_fmap mjoin list_join].
    by rewrite app_nil_r.
  - assert (Hrefused : (proto_add_tlv
              {| buf := replicate (RSP_MAX - RSP_HDR_SZ) NUL; cap := RSP_MAX - RSP_HDR_SZ;
                 used := 0 |} ARG_STR text).2
            = {| buf := replicate (RSP_MAX - RSP_HDR_SZ) NUL; cap := RSP_MAX - RSP_HDR_SZ;
                 used := 0 |}).
    { unfold proto_add_tlv. cbn [buf cap used].
      destruct (decide (UINT16_MAX < length text)); [done|].
      destruct (decide _) as [|Hroom]; [done|]. exfalso. sz. }
    rewrite Hrefused. unfold proto_rsp_finish, check_cap. cbn [used buf].
    destruct (decide (RSP_MAX < RSP_HDR_SZ + 0)) as [Hbad|_]; [sz|].
    unfold proto_send_rsp, rsp_bytes.
    cbn [snd rsp_hdr rsp_len rsp_opcode rsp_status rsp_payload].
    rewrite (Nat.mod_small (RSP_HDR_SZ + 0)) by sz.
    unfold RSP_HDR_SZ. cbn [Nat.add u16_le app take]. rewrite take_0. done.
Qed.

(** X7 (proto_arg_first_str): on a request whose payload begins with a
    whole TLV, the keyword is accepted exactly when that TLV is a string
    of at least one and fewer than [cap] bytes; the destination then
    holds the value followed by a NUL, which fits its [cap] bytes.  In
    every other case the call fails and the destination is not
    written. *)
Theorem first_str_takes_a_fitting_first_string
        (req : request_t) (t : ascii) (v rest : list ascii) (cap : nat) :
  req_payload req = tlv_wire (t, v) ++ rest →
  REQ_HDR_SZ + tlv_size (t, v) ≤ req_len (req_hdr req) →
  length v < U16_MOD →
  proto_arg_first_str req cap
  = (if decide (t = ARG_STR ∧ 0 < length v < cap) then (OS_OK, v ++ [NUL])
     else (OS_ERROR, [])) ∧
  length (proto_arg_first_str req cap).2 ≤ cap.
Proof.
  intros Hpay Hlen Hv.
  assert (Hres : proto_arg_first_str req cap
                 = if decide (t = ARG_STR ∧ 0 < length v < cap) then (OS_OK, v ++ [NUL])
                   else (OS_ERROR, [])).
  { unfold proto_arg_first_str, proto_cursor_next, proto_cursor_init.
    cbn [mem cur c_end]. rewrite Hpay.
    unfold tlv_wire, tlv_hdr. cbn [fst snd].
    rewrite (Nat.mod_small (length v)) by done.
    destruct (le_u16_u16_le (length v)) as (lo & hi & -> & Hdec); [done|].
    unfold tlv_size in Hlen. cbn [snd] in Hlen. cbn [app].
    destruct (decide _) as [Hbad|_]; [unfold TLV_HDR_SZ, REQ_HDR_SZ in *; lia|].
    cbn [byte_at lookup list_lookup default from_option id Nat.add].
    rewrite Hdec.
    destruct (decide _) as [Hbad|_]; [unfold TLV_HDR_SZ, REQ_HDR_SZ in *; lia|].
    unfold slice, TLV_HDR_SZ. cbn [drop Nat.add]. rewrite drop_0, take_app_length.
    destruct (decide (t = ARG_STR ∧ 0 < length v < cap)) as [(-> & Hpos & Hcap)|Hno].
    - destruct (decide (ARG_STR ≠ ARG_STR)) as [|_]; [done|].
      destruct (decide (length v = 0)) as [|_]; [lia|].
      destruct (decide (cap ≤ length v)) as [|_]; [lia|]. done.
    - destruct (decide (t ≠ ARG_STR)) as [|Ht]; [done|].
      destruct (decide (length v = 0)) as [|Hpos]; [done|].
      destruct (decide (cap ≤ length v)) as [|Hcap]; [done|].
      exfalso. apply Hno. split; [by apply dec_stable|lia]. }
  split; [done|]. rewrite Hres.
  case_decide as Hok; cbn [snd length]; [|lia].
  rewrite length_app. cbn [length]. lia.
Qed.

Lemma first_str_takes_a_fitting_first_string_witness :
  proto_arg_first_str (received OP_S 1234 banana_42) 256
  = (if decide (ARG_STR = ARG_STR ∧ 0 < length (B "banana") < 256)
     then (OS_OK, B "banana" ++ [NUL])
     else (OS_ERROR, [])) ∧
  length (proto_arg_first_str (received OP_S 1234 banana_42) 256).2 ≤ 256.
Proof.
  apply (first_str_takes_a_fitting_first_string
           (received OP_S 1234 banana_42) ARG_STR (B "banana")
           (tlv_wire (ARG_U32, u32_le 42))).
  - vm_compute. reflexivity.
  - apply Nat.leb_le. vm_compute. reflexivity.
  - apply Nat.ltb_lt. vm_compute. reflexivity.
Defined.

End SimpleFrames.

(** ** The client: numerals, the command line, and the request it sends *)

Section Numerals.
Local Open Scope Z_scope.

Lemma of_uint_acc_val d : ∀ p, Z.pos (Pos.of_uint_acc d p) = uint_val (Z.pos p) d.
Proof.
  induction d as [|d IH|d IH|d IH|d IH|d IH|d IH|d IH|d IH|d IH|d IH]; intros p;
    cbn [Pos.of_uint_acc uint_val]; [done|rewrite IH; f_equal; lia..].
Qed.

Lemma of_uint_val d : Z.of_N (Pos.of_uint d) = uint_val 0 d.
Proof.
  induction d as [|d IH|d IH|d IH|d IH|d IH|d IH|d IH|d IH|d IH|d IH];
    cbn [Pos.of_uint uint_val Z.of_N]; [done|exact IH|by rewrite of_uint_acc_val..].
Qed.

Lemma digit_Some c d : digit c = Some d →
  isspace c = false ∧ c ≠ "-"%char ∧ c ≠ "+"%char ∧ c ≠ NUL.
Proof.
  unfold digit, isspace. intros H. case_decide as Hc; [|done].
  split_and!.
  - apply bool_decide_eq_false. lia.
  - intros ->. vm_compute in Hc. lia.
  - intros ->. vm_compute in Hc. lia.
  - intros ->. vm_compute in Hc. lia.
Qed.

Lemma read_digits_uint d : ∀ acc c rest,
  digit c = None →
  read_digits acc (list_ascii_of_string (NilEmpty.string_of_uint d) ++ c :: rest)
  = (uint_val acc d, length (list_ascii_of_string (NilEmpty.string_of_uint d))).
Proof.
  induction d as [|d IH|d IH|d IH|d IH|d IH|d IH|d IH|d IH|d IH|d IH]; intros acc c rest Hc;
    cbn [NilEmpty.string_of_uint list_ascii_of_string app read_digits uint_val length].
  1: by rewrite Hc.
  all: match goal with |- context [digit ?ch] =>
         let v := eval vm_compute in (digit ch) in change (digit ch) with v end;
       cbv beta iota; by rewrite IH.
Qed.

Lemma uint_head d :
  d ≠ Decimal.Nil →
  ∃ h t v, list_ascii_of_string (NilEmpty.string_of_uint d) = h :: t ∧ digit h = Some v.
Proof.
  destruct d; [done|..]; intros _;
    cbn [NilEmpty.string_of_uint list_ascii_of_string]; eexists _, _, _; split; try done;
    vm_compute; reflexivity.
Qed.

(** The text [printf("%u")] writes for [n] is a run of digits that reads
    back as [n]. *)
Lemma fmt_d_digits n c rest :
  0 ≤ n → digit c = None →
  read_digits 0 (fmt_d n ++ c :: rest) = (n, length (fmt_d n)) ∧
  ∃ h t v, fmt_d n = h :: t ∧ digit h = Some v.
Proof.
  intros Hn Hc. unfold fmt_d. destruct n as [|p|p]; [| |lia].
  - cbn. rewrite Hc. split; [done|]. by eexists _, _, _.
  - cbn [Z.to_int NilZero.string_of_int]. unfold NilZero.string_of_uint.
    pose proof (Unsigned.to_uint_nonnil p) as Hnil.
    destruct (Pos.to_uint p) eqn:E; [done|..];
      rewrite <- E in *; (split; [|by apply uint_head]);
      rewrite read_digits_uint by done;
      by rewrite <- of_uint_val, DecimalPos.Unsigned.of_to.
Qed.

Lemma strtoul_fmt_d n c rest :
  0 ≤ n → digit c = None →
  strtoul (fmt_d n ++ c :: rest)
  = ((if decide (ULONG_MAX < n) then ULONG_MAX else n), length (fmt_d n)) ∧
  (0 < length (fmt_d n))%nat.
Proof.
  intros Hn Hc.
  destruct (fmt_d_digits n c rest Hn Hc) as (Hread & h & t & v & Hh & Hd).
  destruct (digit_Some h v Hd) as (Hsp & Hminus & Hplus & _).
  unfold strtoul. rewrite Hh in *. cbn [app skip_space]. rewrite Hsp.
  rewrite drop_0.
  destruct (decide (h = "-"%char)) as [|_]; [done|].
  destruct (decide (h = "+"%char)) as [|_]; [done|].
  rewrite drop_0. cbn [app] in Hread. rewrite Hread.
  cbn [length]. destruct (decide (S (length t) = 0)%nat) as [|_]; [done|].
  split; [|lia]. done.
Qed.

End Numerals.

Section EncodeU32.
Local Open Scope Z_scope.

Lemma byte_at_middle (l : list ascii) c rest : byte_at (l ++ c :: rest) (length l) = c.
Proof. unfold byte_at. by rewrite list_lookup_middle. Qed.

Lemma to_uint32_small x : 0 ≤ x ≤ UINT32_MAX → to_uint32 x = x.
Proof. unfold to_uint32, UINT32_MAX. intros. apply Z.mod_small. lia. Qed.

Lemma enc_u32_fmt_d b n c rest :
  0 ≤ n → digit c = None →
  enc_u32 b (fmt_d n ++ c :: rest)
  = if decide (c = NUL ∧ n ≤ UINT32_MAX) then proto_add_tlv b ARG_U32 (u32_le n)
    else (OS_ERROR, b).
Proof.
  intros Hn Hc. unfold enc_u32.
  destruct (strtoul_fmt_d n c rest Hn Hc) as [-> Hlen].
  rewrite byte_at_middle.
  destruct (decide (length (fmt_d n) = 0%nat ∨ c ≠ NUL)) as [[Hz|Hnul]|Hok].
  - lia.
  - destruct (decide (c = NUL ∧ n ≤ UINT32_MAX)) as [[? _]|_]; done.
  - assert (c = NUL) as -> by (apply dec_stable; tauto).
    unfold ULONG_MAX, UINT32_MAX in *.
    destruct (decide (18446744073709551615 < n)) as [Hsat|Hfits].
    + destruct (decide (4294967295 < 18446744073709551615)) as [_|]; [|lia].
      destruct (decide (NUL = NUL ∧ n ≤ 4294967295)) as [[_ ?]|_]; [lia|done].
    + destruct (decide (4294967295 < n)) as [Hbig|Hsmall].
      * destruct (decide (NUL = NUL ∧ n ≤ 4294967295)) as [[_ ?]|_]; [lia|done].
      * destruct (decide (NUL = NUL ∧ n ≤ 4294967295)) as [_|Hno];
          [|exfalso; apply Hno; split; [done|lia]].
        rewrite to_uint32_small by (unfold UINT32_MAX; lia). done.
Qed.

(** X8 (enc_u32, dec_u32): the decimal text of a number [n ≥ 0], as the
    client passes it on the command line, is encoded as the four
    little-endian bytes of [n] exactly when the text ends there and
    [n ≤ UINT32_MAX]; a trailing byte or a larger number is refused and
    the builder is left alone.  The server's decoder reads the four bytes
    back as [n]. *)
Theorem enc_u32_accepts_the_32_bit_numerals
        (b : proto_builder_t) (n : Z) (c : ascii) (rest : list ascii) :
  0 ≤ n → digit c = None →
  enc_u32 b (fmt_d n ++ c :: rest)
  = (if decide (c = NUL ∧ n ≤ UINT32_MAX) then proto_add_tlv b ARG_U32 (u32_le n)
     else (OS_ERROR, b)) ∧
  (n ≤ UINT32_MAX → dec_u32 (u32_le n) (length (u32_le n)) = Some (U32 n)).
Proof.
  intros Hn Hc. split; [by apply enc_u32_fmt_d|].
  intros Hmax. unfold dec_u32. cbn [length u32_le].
  destruct (decide (4 ≠ 4)%nat) as [|_]; [done|].
  rewrite le_u32_enc by (unfold UINT32_MAX in Hmax; lia). done.
Qed.

Lemma enc_u32_accepts_the_32_bit_numerals_witness :
  let b := (proto_req_init (op_byte OP_C) 1234).2 in
  enc_u32 b (fmt_d 42 ++ NUL :: [])
  = (if decide (NUL = NUL ∧ 42 ≤ UINT32_MAX) then proto_add_tlv b ARG_U32 (u32_le 42)
     else (OS_ERROR, b)) ∧
  (42 ≤ UINT32_MAX → dec_u32 (u32_le 42) (length (u32_le 42)) = Some (U32 42)).
Proof.
  apply (enc_u32_accepts_the_32_bit_numerals
           (proto_req_init (op_byte OP_C) 1234).2 42 NUL []); [lia|].
  vm_compute. reflexivity.
Defined.

(** A negated numeral wraps around 2^64: most are refused as too large,
    but the last 2^32 - 1 of them are taken as small numbers. *)
Example enc_u32_negated_numeral :
  (strtoul (B "-1" ++ [NUL])).1 = ULONG_MAX ∧
  (strtoul (B "-18446744073709551615" ++ [NUL])).1 = 1 ∧
  (strtoul (B " +7" ++ [NUL])) = (7, 3%nat) ∧
  (strtoul (B "x" ++ [NUL])) = (0, 0%nat).
Proof. split_and!; vm_compute; reflexivity. Qed.

End EncodeU32.

Section CommandTable.

(** What [command_parse] establishes about the row it returns. *)
Lemma command_parse_row (argv : list (list ascii)) (row : cmd_row_t) :
  command_parse argv = Some row →
  argc_min row ≤ length argv - 2 ∧ length argv - 2 ≤ argc_max row ∧
  argc_max row = length (types row) ∧
  cmd_by_opcode (nat_of_ascii (op_byte (opcode row))) = Some row.
Proof.
  unfold command_parse. intros H.
  destruct (decide (length argv < 2)) as [|_]; [done|].
  destruct (cmd_by_flag (argv !!! 1)) as [cmd|] eqn:Hflag; [|done].
  destruct (decide (length argv - 2 < argc_min cmd)) as [|Hmin]; [done|].
  destruct (decide (argc_max cmd < length argv - 2)) as [|Hmax]; [done|].
  injection H as <-. split; [lia|]. split; [lia|].
  assert (Hin : cmd ∈ cmd_table).
  { unfold cmd_by_flag in Hflag. revert Hflag. generalize (argv !!! 1). intros f.
    generalize cmd_table. intros rows. induction rows as [|r rows IH]; [done|].
    cbn [find_flag]. case_decide as Hf.
    - intros [= <-]. by left.
    - intros Hrest. right. by apply IH. }
  clear Hflag Hmin Hmax.
  unfold cmd_table in Hin. repeat (apply elem_of_cons in Hin as [->|Hin]);
    [..|by apply elem_of_nil in Hin]; by split.
Qed.


(** X9 (command_parse, cmd_by_flag, cmd_by_opcode, handlers): a command
    line the client accepts names a row of the table by its flag, with
    an argument count inside the row's bounds, which are those of its
    type list (never more than four); and the opcode the client puts in
    the frame leads the server back to this very row, to a handler, and
    to an encoder and a decoder for each of its argument types. *)
Theorem command_parse_finds_a_servable_row (argv : list (list ascii)) (row : cmd_row_t) :
  command_parse argv = Some row →
  c_str (argv !!! 1) = B (flag row) ∧
  argc_min row ≤ length argv - 2 ≤ argc_max row ∧
  argc_max row = length (types row) ∧ argc_max row ≤ 4 ∧
  cmd_by_opcode (nat_of_ascii (op_byte (opcode row))) = Some row ∧
  is_Some (handlers !! opcode row) ∧
  Forall (λ t, is_Some (arg_encoders t) ∧ is_Some (arg_decoders t)) (types row).
Proof.
  unfold command_parse. intros H.
  destruct (decide (length argv < 2)) as [|_]; [done|].
  destruct (cmd_by_flag (argv !!! 1)) as [cmd|] eqn:Hflag; [|done].
  destruct (decide (length argv - 2 < argc_min cmd)) as [|Hmin]; [done|].
  destruct (decide (argc_max cmd < length argv - 2)) as [|Hmax]; [done|].
  injection H as <-.
  assert (Hrow : c_str (argv !!! 1) = B (flag cmd) ∧ cmd ∈ cmd_table).
  { unfold cmd_by_flag in Hflag. revert Hflag. generalize (argv !!! 1). intros f.
    generalize cmd_table. intros rows. induction rows as [|r rows IH]; [done|].
    cbn [find_flag]. case_decide as Hf.
    - intros [= <-]. split; [done|]. by left.
    - intros Hrest. destruct (IH Hrest) as [? ?]. split; [done|]. by right. }
  destruct Hrow as [Hname Hin].
  split; [done|]. split; [lia|]. clear Hflag Hmin Hmax Hname.
  unfold cmd_table in Hin. repeat (apply elem_of_cons in Hin as [->|Hin]);
    [..|by apply elem_of_nil in Hin];
    (split_and!; [done|cbn; lia|done|by eexists|
                  repeat constructor; by eexists]).
Qed.

Lemma command_parse_finds_a_servable_row_witness :
  let argv := [B "dclient" ++ [NUL]; B "-s" ++ [NUL]; B "banana" ++ [NUL]; B "42" ++ [NUL]] in
  c_str (argv !!! 1) = B (flag row_S) ∧
  argc_min row_S ≤ length argv - 2 ≤ argc_max row_S ∧
  argc_max row_S = length (types row_S) ∧ argc_max row_S ≤ 4 ∧
  cmd_by_opcode (nat_of_ascii (op_byte (opcode row_S))) = Some row_S ∧
  is_Some (handlers !! opcode row_S) ∧
  Forall (λ t, is_Some (arg_encoders t) ∧ is_Some (arg_decoders t)) (types row_S).
Proof.
  apply (command_parse_finds_a_servable_row
           [B "dclient" ++ [NUL]; B "-s" ++ [NUL]; B "banana" ++ [NUL]; B "42" ++ [NUL]]
           row_S).
  vm_compute. reflexivity.
Defined.

End CommandTable.

Section CursorOnWire.

(** The step of a cursor that stands in front of the wire image of a
    TLV. *)
Lemma cursor_next_cons c t v rest :
  drop (cur c) (mem c) = tlv_wire (t, v) ++ rest →
  cur c + tlv_size (t, v) ≤ c_end c →
  length v < U16_MOD →
  proto_cursor_next c
  = More t v (length v)
         {| mem := mem c; cur := cur c + tlv_size (t, v); c_end := c_end c |} ∧
  drop (cur c + tlv_size (t, v)) (mem c) = rest.
Proof.
  intros Hmem Hend Hv. unfold tlv_size in *. cbn [snd] in *.
  unfold tlv_wire, tlv_hdr in Hmem. cbn [fst snd] in Hmem.
  rewrite (Nat.mod_small (length v)) in Hmem by done.
  destruct (le_u16_u16_le (length v)) as (lo & hi & Hlo & Hdec); [done|].
  rewrite Hlo in Hmem. cbn [app] in Hmem.
  unfold proto_cursor_next.
  destruct (decide (c_end c < cur c + TLV_HDR_SZ)) as [Hlt|_]; [lia|].
  assert (Ht : byte_at (mem c) (cur c) = t) by (by rewrite <- byte_at_drop0, Hmem).
  assert (H1 : byte_at (mem c) (cur c + 1) = lo) by (by rewrite <- byte_at_drop, Hmem).
  assert (H2 : byte_at (mem c) (cur c + 2) = hi) by (by rewrite <- byte_at_drop, Hmem).
  rewrite Ht, H1, H2, Hdec.
  destruct (decide (c_end c < cur c + (TLV_HDR_SZ + length v))) as [Hlt|_]; [lia|].
  assert (Hdrop : drop (cur c + TLV_HDR_SZ) (mem c) = v ++ rest).
  { rewrite <- drop_drop, Hmem. done. }
  split.
  - unfold slice. by rewrite Hdrop, take_app_length.
  - by rewrite Nat.add_assoc, <- drop_drop, Hdrop, drop_app_length.
Qed.

Lemma cursor_next_end c : c_end c = cur c → proto_cursor_next c = End.
Proof.
  intros H. unfold proto_cursor_next, TLV_HDR_SZ.
  destruct (decide _) as [|Hno]; [done|lia].
Qed.

End CursorOnWire.

Section EncodeArgs.

Lemma proto_add_tlv_inv b t v st b' :
  proto_add_tlv b t v = (st, b') →
  (st = OS_ERROR ∧ b' = b) ∨
  (st = OS_OK ∧ length v ≤ UINT16_MAX ∧ used b + tlv_size (t, v) ≤ cap b).
Proof.
  unfold proto_add_tlv, tlv_size. cbn [snd].
  destruct (decide _); [intros [= <- <-]; by left|].
  destruct (decide _); [intros [= <- <-]; by left|].
  intros [= <- <-]. right. split_and!; [done|lia..].
Qed.

Lemma strtoul_nonneg raw : (0 ≤ (strtoul raw).1)%Z.
Proof.
  assert (Hread : ∀ s acc, (0 ≤ acc)%Z → (0 ≤ (read_digits acc s).1)%Z).
  { induction s as [|c s IH]; intros acc Hacc; cbn [read_digits]; [done|].
    unfold digit. case_decide; [|done].
    specialize (IH (10 * acc + Z.of_nat (nat_of_ascii c - 48))%Z ltac:(lia)).
    by destruct (read_digits _ s). }
  unfold strtoul.
  destruct (match drop (skip_space raw) raw with
            | [] => (false, 0)
            | c :: _ => if decide (c = "-"%char) then (true, 1)
                        else if decide (c = "+"%char) then (false, 1) else (false, 0)
            end) as [neg sg].
  specialize (Hread (drop sg (drop (skip_space raw) raw)) 0%Z ltac:(lia)).
  destruct (read_digits 0 _) as [v n]. cbn [fst] in Hread.
  repeat case_decide; cbn [fst]; try done; try (unfold ULONG_MAX; lia).
  destruct neg; [|done]. apply Z.mod_pos_bound. unfold ULONG_MAX. lia.
Qed.

(** The TLVs [encode_args] appends for the words [args] under the types
    [tys] from index [i] on. *)
Lemma encode_args_tlvs args : ∀ b i tys b',
  encode_args b args i tys = Some (OS_OK, b') →
  length args ≤ length (drop i tys) ∧
  add_tlvs b (zip_with tlv_of (drop i tys) args) = (OS_OK, b') ∧
  Forall (λ ta, (ta.1 = ARG_U32 ∧ ((strtoul ta.2).1 ≤ UINT32_MAX)%Z) ∨ ta.1 = ARG_STR)
         (zip (drop i tys) args).
Proof.
  induction args as [|a args IH]; intros b i tys b' H.
  - cbn in H. injection H as <-. split; [cbn; lia|].
    rewrite !zip_with_nil_r. done.
  - cbn [encode_args] in H.
    destruct (tys !! i) as [t|] eqn:Ht; [|done].
    rewrite (drop_S _ _ _ Ht). cbn [zip_with length add_tlvs].
    unfold arg_encoders in H.
    assert (Hstep : ∃ b1, proto_add_tlv b (tlv_of t a).1 (tlv_of t a).2 = (OS_OK, b1) ∧
                          encode_args b1 args (S i) tys = Some (OS_OK, b') ∧
                          ((t = ARG_U32 ∧ ((strtoul a).1 ≤ UINT32_MAX)%Z) ∨ t = ARG_STR)).
    { unfold tlv_of. cbn [fst snd].
      destruct (decide (t = ARG_U32)) as [->|Hnu].
      - unfold enc_u32 in H. destruct (strtoul a) as [val e] eqn:Hs.
        pose proof (strtoul_nonneg a) as Hpos. rewrite Hs in Hpos. cbn [fst] in *.
        destruct (decide _); [done|].
        destruct (decide (UINT32_MAX < val)%Z) as [|Hmax]; [done|].
        rewrite to_uint32_small in H by lia.
        destruct (proto_add_tlv b ARG_U32 (u32_le val)) as [st b1] eqn:Hadd.
        apply proto_add_tlv_inv in Hadd as Hinv.
        destruct Hinv as [[-> ->]|(-> & _)]; [done|].
        exists b1. split_and!; [done|done|]. left. split; [done|lia].
      - destruct (decide (t = ARG_STR)) as [->|]; [|done].
        unfold enc_str in H. destruct (decide _); [done|].
        fold (c_str a) in H.
        destruct (proto_add_tlv b ARG_STR (c_str a)) as [st b1] eqn:Hadd.
        apply proto_add_tlv_inv in Hadd as Hinv.
        destruct Hinv as [[-> ->]|(-> & _)]; [done|].
        exists b1. split_and!; [done|done|]. by right. }
    destruct Hstep as (b1 & Hadd & Hrest & Hkind).
    destruct (IH _ _ _ _ Hrest) as (Hlen & Hadds & Hall).
    destruct (tlv_of t a) as [t' v'] eqn:Htlv. cbn [fst snd] in *.
    rewrite Hadd. split_and!; [lia|done|].
    constructor; [|done]. done.
Qed.

Lemma encode_args_status args : ∀ b i tys st b',
  encode_args b args i tys = Some (st, b') → st = OS_OK ∨ st = OS_ERROR.
Proof.
  induction args as [|a args IH]; intros b i tys st b' H.
  - cbn in H. injection H as <- <-. by left.
  - cbn [encode_args] in H.
    destruct (tys !! i) as [t|]; [|done].
    destruct (arg_encoders t) as [enc|]; [|injection H as <- <-; by right].
    destruct (enc b a) as [[] b1]; try by eapply IH.
    injection H as <- <-. by right.
Qed.

Lemma add_tlvs_fits tlvs : ∀ b b',
  used b ≤ cap b →
  add_tlvs b tlvs = (OS_OK, b') → used b + tlvs_size tlvs ≤ cap b ∧ cap b' = cap b.
Proof.
  induction tlvs as [|[t v] tlvs IH]; intros b b' Hwf H.
  - cbn in H. injection H as <-. unfold tlvs_size. cbn. lia.
  - cbn [add_tlvs] in H.
    destruct (proto_add_tlv b t v) as [st b1] eqn:Hadd.
    pose proof Hadd as Hinv. apply proto_add_tlv_inv in Hinv.
    destruct Hinv as [[-> ->]|(-> & Hv & Hfit)]; [done|].
    assert (used b1 = used b + tlv_size (t, v) ∧ cap b1 = cap b) as [Hu Hc].
    { unfold proto_add_tlv in Hadd. repeat case_decide; try done.
      simplify_eq. split; [|done]. unfold tlv_size. cbn [used snd]. lia. }
    destruct (IH b1 b' ltac:(lia) H) as [Hrest Hcap].
    rewrite tlvs_size_cons. lia.
Qed.

End EncodeArgs.

Section ClientToServer.

Lemma decode_tlv_of t a :
  (t = ARG_U32 ∧ ((strtoul a).1 ≤ UINT32_MAX)%Z) ∨ t = ARG_STR →
  (arg_decoders t ≫= λ dec, dec (tlv_of t a).2 (length (tlv_of t a).2)) = Some (arg_of t a).
Proof.
  unfold tlv_of, arg_of, arg_decoders. cbn [snd].
  intros [[-> Hmax]| ->].
  - destruct (decide (ARG_U32 = ARG_U32)) as [_|]; [|done]. cbn [mbind option_bind].
    unfold dec_u32. cbn [length u32_le].
    destruct (decide (4 ≠ 4)) as [|_]; [done|].
    pose proof (strtoul_nonneg a). unfold UINT32_MAX in Hmax.
    by rewrite le_u32_enc by lia.
  - destruct (decide (ARG_STR = ARG_U32)) as [|_]; [done|].
    destruct (decide (ARG_STR = ARG_STR)) as [_|]; [|done]. done.
Qed.

(** The loop of [dismantle_request] on a cursor that stands in front of
    the TLVs the client made of the words [raws], with [n] iterations
    left: the words are decoded into the slots from [i] on. *)
Lemma dismantle_loop_wire raws : ∀ n i row c rest args,
  length raws ≤ length (drop i (types row)) →
  Forall (λ ta, (ta.1 = ARG_U32 ∧ ((strtoul ta.2).1 ≤ UINT32_MAX)%Z) ∨ ta.1 = ARG_STR)
         (zip (drop i (types row)) raws) →
  Forall (λ tv, length tv.2 < U16_MOD) (zip_with tlv_of (drop i (types row)) raws) →
  drop (cur c) (mem c) = tlvs_wire (zip_with tlv_of (drop i (types row)) raws) ++ rest →
  c_end c = cur c + tlvs_size (zip_with tlv_of (drop i (types row)) raws) →
  i + n = length (types row) →
  argc_min row ≤ i + length raws →
  length args = length (types row) →
  dismantle_loop n i row c args
  = (OS_OK, take i args ++ zip_with arg_of (drop i (types row)) raws
            ++ drop (i + length raws) args).
Proof.
  induction raws as [|a raws IH]; intros n i row c rest args Hlen Hkind Hsz Hmem Hend Hn Hmin Hargs.
  - rewrite zip_with_nil_r in Hend. rewrite zip_with_nil_r. cbn [length] in *.
    rewrite Nat.add_0_r, app_nil_l, take_drop.
    destruct n as [|n]; [done|]. cbn [dismantle_loop].
    rewrite cursor_next_end by (unfold tlvs_size in Hend; cbn in Hend; lia).
    destruct (decide (i < argc_min row)); [lia|done].
  - destruct (drop i (types row)) as [|t ts] eqn:Hdrop; [cbn in Hlen; lia|].
    assert (Hti : types row !! i = Some t).
    { rewrite <- (Nat.add_0_r i), <- lookup_drop, Hdrop. done. }
    assert (Hts : drop (S i) (types row) = ts).
    { rewrite <- Nat.add_1_r, <- drop_drop, Hdrop. done. }
    cbn [zip_with length] in *.
    apply Forall_cons in Hkind as [Hk Hkind]. cbn [fst snd] in Hk.
    apply Forall_cons in Hsz as [Hv Hsz].
    rewrite tlvs_wire_cons, <- app_assoc in Hmem. rewrite tlvs_size_cons in Hend.
    destruct n as [|n].
    { apply (f_equal length) in Hdrop. rewrite length_drop in Hdrop. cbn in Hdrop. lia. }
    cbn [dismantle_loop].
    destruct (tlv_of t a) as [t' v] eqn:Htlv.
    assert (t' = t) as -> by (unfold tlv_of in Htlv; by injection Htlv).
    cbn [snd] in Hv.
    destruct (cursor_next_cons c t v _ Hmem ltac:(lia) Hv) as [-> Hnext].
    rewrite Hti. destruct (decide (Some t ≠ Some t)) as [|_]; [done|].
    pose proof (decode_tlv_of t a Hk) as Hdec. rewrite Htlv in Hdec. cbn [snd] in Hdec.
    destruct (arg_decoders t) as [dec|]; [|done]. cbn [mbind option_bind] in Hdec.
    rewrite Hdec.
    rewrite (IH n (S i) row _ rest); cbn [mem cur c_end]; rewrite ?Hts; try done; try lia.
    + assert (Hi : i < length args) by lia.
      rewrite (take_S_r _ _ (arg_of t a)) by (by rewrite list_lookup_insert_eq).
      rewrite take_insert_ge by lia. rewrite drop_insert_lt by lia.
      rewrite <- app_assoc. cbn [app].
      by replace (S i + length raws) with (i + S (length raws)) by lia.
    + by rewrite length_insert.
Qed.

End ClientToServer.

Section ClientRequest.

(** X10 (build_request, proto_send_req, proto_recv_req, cmd_by_opcode,
    dismantle_request): every request the client manages to build for a
    command line it accepts passes the server's validation.  The frame
    is received whole, its opcode selects the row the client used, and
    the decoded argument array holds the words of the command line in
    order, a number for a numeric slot and the text for a string slot,
    with the optional slots that were left out at zero. *)
Theorem client_request_passes_validation
        (pid : Z) (argv : list (list ascii)) (req : request_t) (rest : list ascii) :
  (-2147483648 ≤ pid < 2147483648)%Z →
  client_request pid argv = Some req →
  ∃ row got,
    command_parse argv = Some row ∧
    proto_recv_req (proto_send_req req ++ rest) = Some (got, rest) ∧
    req_pid (req_hdr got) = pid ∧
    cmd_by_opcode (req_op got) = Some row ∧
    dismantle_request got row (replicate (argc_max row) (U32 0))
    = (OS_OK, zip_with arg_of (types row) (drop 2 argv)
              ++ replicate (argc_max row - (length argv - 2)) (U32 0)).
Proof.
  intros Hpid Hreq. unfold client_request in Hreq.
  destruct (command_parse argv) as [row|] eqn:Hparse; [|done].
  destruct (command_parse_row argv row Hparse) as (Hmin & Hmax & Htys & Hop).
  unfold build_request, proto_req_init in Hreq. cbv beta iota zeta in Hreq.
  set (b0 := {| buf := replicate (REQ_MAX - REQ_HDR_SZ) NUL; used := 0;
                cap := REQ_MAX - REQ_HDR_SZ |}) in *.
  assert (Hb0 : length (buf b0) = cap b0 ∧ used b0 = 0 ∧ cap b0 = REQ_MAX - REQ_HDR_SZ).
  { split_and!; [apply length_replicate|reflexivity..]. }
  clearbody b0. destruct Hb0 as (Hbuf0 & Hused0 & Hcap0).
  destruct (encode_args b0 (drop 2 argv) 0 (types row)) as [[st b]|] eqn:Henc; [|done].
  destruct (encode_args_status _ _ _ _ _ _ Henc) as [->| ->]; [|done].
  apply encode_args_tlvs in Henc as (Hlen & Hadd & Hkind). rewrite drop_0 in *.
  set (tlvs := zip_with tlv_of (types row) (drop 2 argv)) in *.
  destruct (add_tlvs_fits tlvs b0 b) as [Hfit _]; [lia|done|].
  destruct (add_tlvs_ok tlvs b0) as (b' & Hadd' & _ & _ & Hused & Hbuf);
    [split; lia|lia|sz|].
  rewrite Hadd in Hadd'. injection Hadd' as <-.
  rewrite Hused0 in *. rewrite take_0, app_nil_l in Hbuf. cbn [Nat.add] in Hused, Hfit.
  unfold proto_req_finish, check_cap in Hreq.
  destruct (decide (REQ_MAX < REQ_HDR_SZ + used b)) as [|_]; [sz|].
  cbv beta iota in Hreq. apply (inj Some) in Hreq. subst req.
  cbn [req_hdr req_len req_opcode req_pid].
  rewrite (Nat.mod_small (REQ_HDR_SZ + used b)) by sz.
  exists row. eexists. split; [done|].
  rewrite send_req_layout by (cbn [req_hdr req_len]; lia).
  cbn [req_hdr req_len req_opcode req_pid req_payload].
  replace (REQ_HDR_SZ + used b - REQ_HDR_SZ) with (used b) by lia.
  rewrite Hbuf, <- app_assoc.
  rewrite recv_req_layout; [|sz|rewrite tlvs_wire_length; lia|done].
  split; [done|]. cbn [req_hdr req_pid]. split; [done|].
  split; [exact Hop|].
  unfold dismantle_request, proto_cursor_init. cbn [req_hdr req_len req_payload].
  replace (REQ_HDR_SZ + used b - REQ_HDR_SZ) with (tlvs_size tlvs) by lia.
  rewrite (dismantle_loop_wire (drop 2 argv) _ 0 row _ []); cbn [mem cur c_end];
    rewrite ?drop_0, ?length_drop, ?length_replicate; try done; try lia.
  - by rewrite take_0, app_nil_l, drop_replicate.
  - fold tlvs. eapply Forall_impl; [apply (tlvs_size_bound _ (REQ_MAX - REQ_HDR_SZ)); lia|].
    intros tv Htv. cbn in Htv. sz.
  - by rewrite app_nil_r.
Qed.

End ClientRequest.

Section ClientRequestExample.

Lemma client_request_passes_validation_witness :
  let argv := [B "dclient" ++ [NUL]; B "-s" ++ [NUL]; B "banana" ++ [NUL];
               B "42" ++ [NUL]] in
  let req := default (received OP_S 1234 []) (client_request 1234 argv) in
  ∃ row got,
    command_parse argv = Some row ∧
    proto_recv_req (proto_send_req req ++ B "next") = Some (got, B "next") ∧
    req_pid (req_hdr got) = 1234%Z ∧
    cmd_by_opcode (req_op got) = Some row ∧
    dismantle_request got row (replicate (argc_max row) (U32 0))
    = (OS_OK, zip_with arg_of (types row) (drop 2 argv)
              ++ replicate (argc_max row - (length argv - 2)) (U32 0)).
Proof.
  apply (client_request_passes_validation 1234
           [B "dclient" ++ [NUL]; B "-s" ++ [NUL]; B "banana" ++ [NUL]; B "42" ++ [NUL]]
           _ (B "next")); [lia|].
  assert (H : bool_decide (is_Some (client_request 1234
             [B "dclient" ++ [NUL]; B "-s" ++ [NUL]; B "banana" ++ [NUL];
              B "42" ++ [NUL]])) = true) by (vm_compute; reflexivity).
  apply bool_decide_eq_true_1 in H. destruct H as [r Hr]. rewrite Hr. reflexivity.
Defined.

(** What the server decodes for [dclient -s banana 42]. *)
Example banana_42_decoded :
  zip_with arg_of (types row_S) [B "banana" ++ [NUL]; B "42" ++ [NUL]]
  = [STR (B "banana"); U32 42].
Proof. vm_compute. reflexivity. Qed.

End ClientRequestExample.

Section ClientOutput.

Lemma print_tlvs_wire tlvs : ∀ fuel c rest,
  drop (cur c) (mem c) = tlvs_wire tlvs ++ rest →
  c_end c = cur c + tlvs_size tlvs →
  Forall (λ tv, length tv.2 < U16_MOD ∧
                (tv.1 = ARG_STR ∨ tv.1 = ARG_U32 ∧ length tv.2 = 4)) tlvs →
  length tlvs < fuel →
  print_tlvs fuel c = Some (OS_OK, line_of <$> tlvs).
Proof.
  induction tlvs as [|[t v] tlvs IH]; intros fuel c rest Hmem Hend Hall Hfuel.
  - destruct fuel as [|fuel]; [cbn in Hfuel; lia|]. cbn [print_tlvs].
    rewrite cursor_next_end; [done|]. unfold tlvs_size in Hend. cbn in Hend. lia.
  - destruct fuel as [|fuel]; [cbn in Hfuel; lia|]. cbn [print_tlvs].
    apply Forall_cons in Hall as [[Hv Hkind] Hall]. cbn [fst snd] in Hv, Hkind.
    rewrite tlvs_wire_cons, <- app_assoc in Hmem. rewrite tlvs_size_cons in Hend.
    destruct (cursor_next_cons c t v _ Hmem ltac:(lia) Hv) as [-> Hnext].
    rewrite (IH fuel _ rest); cbn [mem cur c_end]; try done; [|lia|cbn in Hfuel; lia].
    unfold line_of, arg_decoders, dec_u32, dec_str. cbn [fst snd fmap list_fmap].
    destruct Hkind as [->|[-> H4]].
    + destruct (decide _) as [[? ?]|_]; [done|].
      destruct (decide (ARG_STR = ARG_U32)) as [|_]; [done|].
      destruct (decide (ARG_STR = ARG_STR)) as [_|]; [|done]. done.
    + destruct (decide _) as [[? ?]|_]; [done|].
      destruct (decide (ARG_U32 = ARG_U32)) as [_|]; [|done].
      cbn [mbind option_bind]. rewrite H4.
      destruct (decide (4 ≠ 4)) as [|_]; [done|]. done.
Qed.

(** X11 (dismantle_response): for a response whose payload is a run of
    string TLVs and four-byte number TLVs, the client logs one line per
    TLV, in order, the C string of a text and the decimal of a number,
    and reports success. *)
Theorem client_logs_one_line_per_tlv
        (rsp : response_t) (tlvs : list (ascii * list ascii)) (rest : list ascii) :
  rsp_payload rsp = tlvs_wire tlvs ++ rest →
  rsp_len (rsp_hdr rsp) = RSP_HDR_SZ + tlvs_size tlvs →
  Forall (λ tv, length tv.2 < U16_MOD ∧
                (tv.1 = ARG_STR ∨ tv.1 = ARG_U32 ∧ length tv.2 = 4)) tlvs →
  dismantle_response rsp = Some (OS_OK, line_of <$> tlvs).
Proof.
  intros Hpay Hlen Hall. unfold dismantle_response. rewrite Hlen.
  replace (RSP_HDR_SZ + tlvs_size tlvs - RSP_HDR_SZ) with (tlvs_size tlvs) by lia.
  apply (print_tlvs_wire tlvs _ _ rest); cbn [mem cur c_end proto_cursor_init];
    [by rewrite drop_0|done|done|].
  clear. induction tlvs as [|tv tlvs IH]; [cbn; lia|].
  rewrite tlvs_size_cons. unfold tlv_size, TLV_HDR_SZ. cbn [length]. lia.
Qed.

Lemma client_logs_one_line_per_tlv_witness :
  let rsp := {| rsp_hdr := {| rsp_len := RSP_HDR_SZ + tlvs_size banana_42;
                              rsp_opcode := op_byte OP_S; rsp_status := zero |};
                rsp_payload := tlvs_wire banana_42 ++ [] |} in
  dismantle_response rsp = Some (OS_OK, line_of <$> banana_42).
Proof.
  apply (client_logs_one_line_per_tlv _ banana_42 []); [reflexivity..|].
  apply Forall_cons. split.
  { split; [apply Nat.ltb_lt; vm_compute; reflexivity|by left]. }
  apply Forall_cons. split; [|apply Forall_nil_2].
  split; [apply Nat.ltb_lt; vm_compute; reflexivity|right; by split].
Defined.

(** A response cut off inside a TLV is logged up to the cut and still
    reported as a success. *)
Example client_accepts_truncated_response :
  dismantle_response
    {| rsp_hdr := {| rsp_len := RSP_HDR_SZ + 9; rsp_opcode := op_byte OP_S;
                     rsp_status := zero |};
       rsp_payload := tlv_wire (ARG_STR, B "ab") ++ ARG_STR :: u16_le 5 ++ B "x" |}
  = Some (OS_OK, [B "ab" ++ ["010"%char]]).
Proof. vm_compute. reflexivity. Qed.

End ClientOutput.

(** ** Document root and store: round trips and invariants *)

Section DocumentRoot.
Import DocRoot.

Lemma c_str_is_no_nul s : no_nul (c_str s).
Proof.
  unfold c_str, no_nul. induction s as [|c s IH]; cbn [strlen take]; [constructor|].
  destruct (decide (c = NUL)); cbn [take]; by constructor.
Qed.

Lemma c_str_terminated l rest : no_nul l → c_str (l ++ NUL :: rest) = l.
Proof.
  intros H. unfold c_str. rewrite strlen_no_nul by done. by rewrite take_app_length.
Qed.

(** X12 (docroot_set, docroot_get): a path shorter than the buffer is
    copied with its terminator over whatever the buffer held, the buffer
    keeps its size, and [docroot_get] then returns that path, or NULL
    when the path is empty, so that setting an empty root unsets it.  A
    path of [PATH_MAX] bytes or more is refused and the root is left as it
    was. *)
Theorem docroot_set_then_get (e : env) (path : list ascii) :
  length (g_doc_root e) = PATH_MAX →
  match docroot_set (g_doc_root e) path with
  | (OS_OK, root') =>
      strlen path < PATH_MAX ∧ length root' = PATH_MAX ∧
      docroot_get (with_root e root')
      = if decide (c_str path = []) then None else Some (c_str path)
  | (_, root') => PATH_MAX ≤ strlen path ∧ root' = g_doc_root e
  end.
Proof.
  intros Hlen. unfold docroot_set.
  destruct (decide (PATH_MAX ≤ strlen path)) as [Hlong|Hfit]; [done|].
  fold (c_str path).
  assert (Hc : length (c_str path) = strlen path).
  { unfold c_str. rewrite length_take. pose proof (strlen_le path path). lia. }
  split; [lia|]. split.
  { rewrite memcpy_length; [done|]. rewrite length_app, Hc. cbn [length]. lia. }
  unfold docroot_get, with_root, memcpy. cbn [g_doc_root].
  rewrite take_0, app_nil_l, <- app_assoc. cbn [app].
  rewrite c_str_terminated by apply c_str_is_no_nul.
  pose proof (c_str_is_no_nul path) as Hnn.
  destruct (c_str path) as [|h t] eqn:E.
  - cbn [app byte_at lookup list_lookup default from_option id].
    destruct (decide (NUL = NUL)) as [_|]; [|done].
    by destruct (decide ([] = [])).
  - cbn [app byte_at lookup list_lookup default from_option id].
    apply Forall_cons in Hnn as [Hh _].
    destruct (decide (h = NUL)) as [|_]; [done|].
    by destruct (decide (h :: t = [])).
Qed.

Lemma docroot_set_then_get_witness :
  let e := env_f_txt [] in
  let e0 := with_root e g_doc_root0 in
  match docroot_set (g_doc_root e0) (B "docs" ++ [NUL]) with
  | (OS_OK, root') =>
      strlen (B "docs" ++ [NUL]) < PATH_MAX ∧ length root' = PATH_MAX ∧
      docroot_get (with_root e0 root')
      = if decide (c_str (B "docs" ++ [NUL]) = []) then None
        else Some (c_str (B "docs" ++ [NUL]))
  | (_, root') => PATH_MAX ≤ strlen (B "docs" ++ [NUL]) ∧ root' = g_doc_root e0
  end.
Proof.
  apply (docroot_set_then_get (with_root (env_f_txt []) g_doc_root0) (B "docs" ++ [NUL])).
  reflexivity.
Defined.

End DocumentRoot.

Section StoreRoundTrips.
Local Open Scope Z_scope.

Lemma stg_get_doc_None s k :
  stg_get_doc s k = None ↔ ∀ d, ¬ (0 ≤ k ∧ s !! Z.to_nat k = Some d ∧ key d = k).
Proof.
  split.
  - intros Hn d Hd. apply stg_get_doc_Some in Hd. congruence.
  - intros Hno. destruct (stg_get_doc s k) as [d|] eqn:E; [|done].
    apply stg_get_doc_Some in E. by destruct (Hno d).
Qed.

(** X13 (stg_add_doc, stg_get_doc, stg_total): while the slot count fits
    the [int] key, an Add returns the number of slots as the new key,
    a Get of that key returns the record that was passed in, stamped with
    the key, every other Get answers as before, and Total grows by
    one. *)
Theorem added_document_is_retrievable (s : store) (doc : document_t) :
  Z.of_nat (length s) < 2147483647 →
  let k := (stg_add_doc s doc).1 in
  let s' := (stg_add_doc s doc).2 in
  k = Z.of_nat (length s) ∧
  stg_get_doc s' k = Some (with_key doc k) ∧
  (∀ k', k' ≠ k → stg_get_doc s' k' = stg_get_doc s k') ∧
  stg_total s' = stg_total s + 1.
Proof.
  intros Hlen k s'. subst k s'. unfold stg_add_doc. cbn [fst snd].
  rewrite end_off_slots, to_int32_small by lia.
  split; [done|]. split_and!.
  - apply stg_get_doc_Some. split_and!; [lia| |done].
    rewrite Nat2Z.id. by rewrite list_lookup_middle.
  - intros k' Hne.
    destruct (stg_get_doc s k') as [d|] eqn:Hd.
    + apply stg_get_doc_Some in Hd as (Hk & Hrow & Hkey).
      apply stg_get_doc_Some. split_and!; [done| |done].
      by apply lookup_app_l_Some.
    + apply stg_get_doc_None. intros d (Hk & Hrow & Hkey).
      rewrite stg_get_doc_None in Hd. apply (Hd d). split_and!; [done| |done].
      apply lookup_app_Some in Hrow as [Hrow|[Hge Hrow]]; [done|].
      exfalso. apply list_lookup_singleton_Some in Hrow as [Hz <-].
      cbn [key with_key] in Hkey. lia.
  - unfold stg_total. rewrite !end_off_slots, length_app. cbn [length].
    rewrite !to_int32_small by lia. lia.
Qed.

Lemma added_document_is_retrievable_witness :
  let k := (stg_add_doc store_T doc_T).1 in
  let s' := (stg_add_doc store_T doc_T).2 in
  k = Z.of_nat (length store_T) ∧
  stg_get_doc s' k = Some (with_key doc_T k) ∧
  (∀ k', k' ≠ k → stg_get_doc s' k' = stg_get_doc store_T k') ∧
  stg_total s' = stg_total store_T + 1.
Proof.
  apply (added_document_is_retrievable store_T doc_T). vm_compute. reflexivity.
Defined.

(** X14 (stg_del_doc): a Delete succeeds exactly on a key that Get
    finds; it keeps the number of slots, and a second Delete of the same
    key fails.  A Delete that fails, for a negative key, a key past the
    end of the file, or a slot that is already a tombstone, leaves the
    file as it was. *)
Theorem delete_succeeds_exactly_once (s : store) (k : Z) :
  match stg_del_doc s k with
  | (OS_OK, s') =>
      is_Some (stg_get_doc s k) ∧ length s' = length s ∧
      stg_del_doc s' k = (OS_ERROR, s')
  | (_, s') => stg_get_doc s k = None ∧ s' = s
  end.
Proof.
  unfold stg_del_doc, stg_get_doc. rewrite get_offset_slot.
  destruct (decide (k < 0)) as [|Hk]; [done|].
  destruct (decide (end_off s < get_offset k + DOC_SZ)) as [|Hin]; [done|].
  destruct (s !! Z.to_nat k) as [cur|] eqn:Hrow; [|done].
  destruct (decide (key cur ≠ k)) as [|Hkey]; [done|].
  split; [by eexists|]. rewrite length_insert. split; [done|].
  destruct (decide (k < 0)) as [|_]; [done|].
  assert (Hend : end_off (<[Z.to_nat k:=tomb]> s) = end_off s).
  { unfold end_off. by rewrite length_insert. }
  rewrite Hend. destruct (decide (end_off s < get_offset k + DOC_SZ)) as [|_]; [done|].
  rewrite list_lookup_insert_eq by (by eapply lookup_lt_Some).
  destruct (decide (key tomb ≠ k)) as [|Hno]; [done|].
  exfalso. apply Hno. cbn [key tomb]. lia.
Qed.

End StoreRoundTrips.

Section StoreInvariant.
Local Open Scope Z_scope.

Lemma store_step_ok s o :
  Z.of_nat (length s) < 2147483648 →
  slots_ok s → slots_ok (store_step s o) ∧
  length (store_step s o) = (length s + match o with SAdd _ => 1 | SDel _ => 0 end)%nat.
Proof.
  intros Hlen Hok. destruct o as [doc|k]; cbn [store_step].
  - unfold stg_add_doc. cbn [snd]. rewrite end_off_slots, to_int32_small by lia.
    split; [|rewrite length_app; cbn [length]; lia].
    intros i d Hd. apply lookup_app_Some in Hd as [Hd|[Hge Hd]]; [by apply Hok|].
    apply list_lookup_singleton_Some in Hd as [Hz <-]. left. cbn [key with_key]. lia.
  - assert (Hsame : slots_ok s ∧ length s = (length s + 0)%nat) by (split; [done|lia]).
    unfold stg_del_doc.
    destruct (decide (k < 0)) as [|_]; [done|].
    destruct (decide (end_off s < get_offset k + DOC_SZ)) as [|_]; [done|].
    destruct (s !! Z.to_nat (get_offset k / DOC_SZ)) as [cur|] eqn:Hrow; [|done].
    destruct (decide (key cur ≠ k)) as [|_]; [done|]. cbn [snd].
    split; [|rewrite length_insert; lia].
    intros i d Hd.
    destruct (decide (i = Z.to_nat (get_offset k / DOC_SZ))) as [->|Hne].
    + rewrite list_lookup_insert_eq in Hd by (by eapply lookup_lt_Some).
      right. congruence.
    + rewrite list_lookup_insert_ne in Hd by done. by apply Hok.
Qed.

Lemma adds_le ops : (adds ops ≤ length ops)%nat.
Proof. induction ops as [|[] ops IH]; cbn [adds length]; lia. Qed.

Lemma store_run_ok ops : ∀ s,
  Z.of_nat (length s + length ops) < 2147483648 →
  slots_ok s →
  slots_ok (store_run s ops) ∧ length (store_run s ops) = (length s + adds ops)%nat.
Proof.
  unfold store_run. induction ops as [|o ops IH]; intros s Hlen Hok.
  - cbn. split; [done|lia].
  - cbn [foldl length adds] in *.
    destruct (store_step_ok s o) as [Hok' Hlen']; [lia|done|].
    destruct (IH (store_step s o)) as [Hrun Hrlen]; [destruct o; lia|done|].
    split; [done|].
    rewrite Hrlen, Hlen'. destruct o; cbn [adds]; lia.
Qed.

(** X15 (stg_add_doc, stg_del_doc, stg_get_doc): after any sequence of
    Adds and Deletes on an empty file (fewer than 2^31 of them), every
    slot holds the record of its own index or the tombstone; the file has
    one slot per Add ever made, so a Delete never frees a key for reuse;
    and a Get only ever returns a record that is stored in the slot of the
    requested key, carries that key, and is not a tombstone. *)
Theorem store_keeps_one_slot_per_add (ops : list store_op) :
  Z.of_nat (length ops) < 2147483648 →
  let s := store_run [] ops in
  slots_ok s ∧
  length s = adds ops ∧
  stg_total s = Z.of_nat (adds ops) ∧
  ∀ k d, stg_get_doc s k = Some d →
         0 ≤ k < Z.of_nat (adds ops) ∧ s !! Z.to_nat k = Some d ∧ key d = k ∧ d ≠ tomb.
Proof.
  intros Hlen s.
  destruct (store_run_ok ops []) as [Hok Hslots]; [cbn [length]; lia|by intros i d|].
  fold s in Hok, Hslots. cbn [length Nat.add] in Hslots.
  pose proof (adds_le ops) as Hadds.
  split; [done|]. split; [done|]. split.
  { unfold stg_total. rewrite end_off_slots, Hslots, to_int32_small; lia. }
  intros k d Hget. apply stg_get_doc_Some in Hget as (Hk & Hrow & Hkey).
  pose proof (lookup_lt_Some _ _ _ Hrow) as Hin.
  split_and!; [lia|lia|done|done|].
  intros ->. cbn [key tomb] in Hkey. lia.
Qed.

Lemma store_keeps_one_slot_per_add_witness :
  let ops := [SAdd doc_T; SAdd doc_T; SDel 0; SAdd doc_T] in
  let s := store_run [] ops in
  slots_ok s ∧
  length s = adds ops ∧
  stg_total s = Z.of_nat (adds ops) ∧
  ∀ k d, stg_get_doc s k = Some d →
         0 ≤ k < Z.of_nat (adds ops) ∧ s !! Z.to_nat k = Some d ∧ key d = k ∧ d ≠ tomb.
Proof.
  apply (store_keeps_one_slot_per_add [SAdd doc_T; SAdd doc_T; SDel 0; SAdd doc_T]).
  vm_compute. reflexivity.
Defined.

(** After Add, Add, Delete 0, Add the new document has key 2, not 0. *)
Example deleted_key_is_not_reused :
  (stg_add_doc (store_run [] [SAdd doc_T; SAdd doc_T; SDel 0]) doc_T).1 = 2.
Proof. vm_compute. reflexivity. Qed.

End StoreInvariant.

(** ** The scanner: what a hit means, and when a miss can be trusted *)

Section HitMeans.

(** X16 (doc_key_contains_keyword, doc_build_path, doc_contains_keyword):
    a key is reported as a hit only for a live document whose file,
    under the document root, exists and holds the non-empty term as a
    contiguous run of bytes: there are no false hits, and tombstones,
    missing files and the empty term never hit. *)
Theorem hit_is_a_live_document_holding_the_term
        (e : env) (s : store) (k : Z) (kw : list ascii) :
  doc_key_contains_keyword e s k kw = 1%Z →
  ∃ doc root content,
    stg_get_doc s k = Some doc ∧ doc ≠ tomb ∧
    docroot_get e = Some root ∧
    files e (root ++ B "/" ++ c_str (path doc)) = Some content ∧
    c_str kw ≠ [] ∧ contains (c_str kw) content.
Proof.
  unfold doc_key_contains_keyword, doc_build_path. intros H.
  destruct (decide (PATH_MAX = 0)) as [|_]; [done|].
  destruct (docroot_get e) as [root|]; [|done].
  destruct (stg_get_doc s k) as [doc|] eqn:Hdoc; [|done].
  destruct (decide (key doc = (-1)%Z)) as [|Hlive]; [done|].
  destruct (decide _) as [|_]; [done|].
  destruct (doc_contains_keyword_sound kw e _ H) as (content & Hfile & Hin).
  exists doc, root, content. split_and!; try done.
  - intros ->. by apply Hlive.
  - intros Hempty. unfold doc_contains_keyword, doc_count_keyword in H.
    rewrite Hfile in H.
    assert (strlen kw = 0) as Hz.
    { unfold c_str in Hempty. apply (f_equal length) in Hempty.
      rewrite length_take in Hempty. pose proof (strlen_le kw kw). cbn in Hempty. lia. }
    by destruct (decide (strlen kw = 0)).
Qed.

Lemma hit_is_a_live_document_holding_the_term_witness :
  ∃ doc root content,
    stg_get_doc store_T 0 = Some doc ∧ doc ≠ tomb ∧
    docroot_get (env_f_txt (B "an apple")) = Some root ∧
    files (env_f_txt (B "an apple")) (root ++ B "/" ++ c_str (path doc)) = Some content ∧
    c_str (B "apple" ++ [NUL]) ≠ [] ∧ contains (c_str (B "apple" ++ [NUL])) content.
Proof.
  apply (hit_is_a_live_document_holding_the_term
           (env_f_txt (B "an apple")) store_T 0 (B "apple" ++ [NUL])).
  vm_compute. reflexivity.
Defined.

End HitMeans.

Section Exactness.
Context (kw : list ascii).
Let len := strlen kw.
Let term := c_str kw.
Hypothesis Hunique : first_byte_unique term.

Local Ltac lenlia := unfold len in *; lia.

Lemma term_length : length term = len.
Proof.
  subst term len. unfold c_str. rewrite length_take. pose proof (strlen_le kw kw). lia.
Qed.

Lemma term_take j : j ≤ len → take j kw = take j term.
Proof. intros Hj. subst term len. unfold c_str. rewrite take_take. f_equal. lia. Qed.

Lemma term_lookup i : i < len → term !! i = Some (byte_at kw i).
Proof.
  intros Hi. subst term len. unfold c_str. rewrite lookup_take_lt by done.
  apply (byte_at_lookup kw). pose proof (strlen_le kw kw). lia.
Qed.

Local Abbreviation ends_with := (Reference.ends_with term).
Local Abbreviation tracks := (Reference.tracks kw).

Lemma ends_with_snoc seen c j :
  j < len → ends_with (seen ++ [c]) (S j) ↔ ends_with seen j ∧ term !! j = Some c.
Proof.
  intros Hj. pose proof term_length as Hl. split.
  - intros [pre Heq].
    destruct (term !! j) as [x|] eqn:Hx; [|apply lookup_ge_None in Hx; lenlia].
    rewrite (take_S_r _ _ x) in Heq by done. rewrite app_assoc in Heq.
    apply app_inj_tail in Heq as [-> ->]. split; [by exists pre|done].
  - intros [[pre ->] Hx]. exists pre. rewrite (take_S_r _ _ c) by done.
    by rewrite app_assoc.
Qed.

(** Two prefixes of the term that both end the bytes seen overlap, so
    the first byte of the term recurs inside the longer one. *)
Lemma two_prefixes seen a b :
  ends_with seen a → ends_with seen b → 0 < b → b < a → a ≤ len → False.
Proof.
  intros [p1 H1] [p2 H2] Hb Hba Ha. pose proof term_length as Hl.
  assert (Hsuf : take b term = drop (a - b) (take a term)).
  { assert (Hd1 : drop (length seen - b) seen = take b term).
    { rewrite H2 at 2. rewrite drop_app_length'; [done|].
      rewrite H2, length_app, length_take. lenlia. }
    rewrite <- Hd1. rewrite H1 at 2.
    rewrite drop_app_ge by (rewrite H1, length_app, length_take; lenlia).
    f_equal. rewrite H1, length_app, length_take. lenlia. }
  apply (Hunique (a - b)); [lenlia|lenlia|].
  assert (H0 : take b term !! 0 = term !! 0) by (rewrite lookup_take_lt; [done|lenlia]).
  rewrite <- H0, Hsuf, lookup_drop, Nat.add_0_r, lookup_take_lt by lenlia. done.
Qed.

Lemma scan_byte_tracks seen st c :
  tracks seen st →
  match scan_byte kw len true st c with
  | inl r => r = 1
  | inr st' => tracks (seen ++ [c]) st' ∧ ¬ ends_with (seen ++ [c]) len
  end.
Proof.
  intros (Hm & Hend & Hmax). unfold scan_byte.
  assert (Hcur : term !! match_ st = Some (byte_at kw (match_ st))) by (by apply term_lookup).
  assert (Hlonger : ∀ j, S (match_ st) < j → j ≤ len → ¬ ends_with (seen ++ [c]) j).
  { intros j Hj1 Hj2 Hj. destruct j as [|j]; [lenlia|].
    apply ends_with_snoc in Hj as [Hj _]; [|lenlia]. apply (Hmax j); [lenlia|lenlia|done]. }
  destruct (decide (c = byte_at kw (match_ st))) as [Hc|Hc].
  - destruct (decide (S (match_ st) = len)) as [Hfull|Hpart]; [done|].
    assert (Hst : tracks (seen ++ [c])
                    {| match_ := S (match_ st); matched_line := matched_line st;
                       out := out st |}).
    { split_and!; cbn [match_]; [lenlia| |done].
      apply ends_with_snoc; [done|]. split; [done|]. by rewrite Hc. }
    assert (Hnot : ¬ ends_with (seen ++ [c]) len) by (apply Hlonger; lenlia).
    destruct (decide (c = "010"%char)); (split; [|done]);
      destruct Hst as (? & ? & ?); split_and!; done.
  - assert (Hshort : ∀ j, 1 < j → j ≤ len → ¬ ends_with (seen ++ [c]) j).
    { intros j Hj1 Hj2 Hj. destruct j as [|j]; [lenlia|].
      apply ends_with_snoc in Hj as [Hj Hcj]; [|lenlia].
      destruct (decide (match_ st < j)) as [Hgt|Hle]; [by apply (Hmax j); [|lenlia|]|].
      destruct (decide (j = match_ st)) as [->|Hne].
      - rewrite Hcur in Hcj. by injection Hcj as <-.
      - apply (two_prefixes seen (match_ st) j); [done|done|lenlia|lenlia|lenlia]. }
    assert (Hempty : ends_with (seen ++ [c]) 0).
    { exists (seen ++ [c]). by rewrite take_0, app_nil_r. }
    assert (Hst : tracks (seen ++ [c])
                    {| match_ := if decide (c = byte_at kw 0) then 1 else 0;
                       matched_line := matched_line st; out := out st |} ∧
                  ¬ ends_with (seen ++ [c]) len).
    { destruct (decide (c = byte_at kw 0)) as [Hc0|Hc0]; cbn [match_].
      - assert (H1 : 1 < len).
        { destruct (decide (match_ st = 0)) as [Hz|Hz]; [|lenlia].
          rewrite Hz in Hc. done. }
        split; [|apply Hshort; lenlia]. split_and!; cbn [match_]; [lenlia| |].
        + apply (ends_with_snoc seen c 0); [lenlia|]. split.
          * exists seen. by rewrite take_0, app_nil_r.
          * rewrite Hc0. apply term_lookup. lenlia.
        + intros j Hj1 Hj2. by apply Hshort.
      - assert (Hone : ¬ ends_with (seen ++ [c]) 1).
        { intros Hj. apply (ends_with_snoc seen c 0) in Hj as [_ Hcj]; [|lenlia].
          rewrite term_lookup in Hcj by lenlia. by injection Hcj as <-. }
        assert (Hall : ∀ j, 0 < j → j ≤ len → ¬ ends_with (seen ++ [c]) j).
        { intros j Hj1 Hj2. destruct (decide (j = 1)) as [->|]; [done|].
          apply Hshort; lenlia. }
        split; [|apply Hall; lenlia]. split_and!; cbn [match_]; [lenlia|done|done]. }
    destruct (decide (c = "010"%char)); [|done].
    destruct Hst as [(? & ? & ?) ?]. split; [|done]. split_and!; done.
Qed.

(** A pass with [stop_at_first] over [buf] returns early as soon as the
    term ends at one of its bytes. *)
Lemma scan_buf_finds buf : ∀ seen st pre post,
  tracks seen st →
  seen ++ buf = pre ++ term ++ post →
  length seen < length pre + len →
  scan_buf kw len true st buf = inl 1.
Proof.
  pose proof term_length as Hl.
  induction buf as [|c buf IH]; intros seen st pre post Htr Heq Hlen.
  - rewrite app_nil_r in Heq. apply (f_equal length) in Heq.
    rewrite !length_app in Heq. lenlia.
  - cbn [scan_buf]. pose proof (scan_byte_tracks seen st c Htr) as Hstep.
    destruct (scan_byte kw len true st c) as [r|st']; [by rewrite Hstep|].
    destruct Hstep as [Htr' Hnot].
    apply (IH (seen ++ [c]) st' pre post Htr'); [by rewrite <- app_assoc|].
    rewrite length_app. cbn [length].
    destruct (decide (length seen + 1 = length pre + len)) as [Hhere|]; [|lenlia].
    exfalso. apply Hnot. exists pre.
    rewrite firstn_all2 by lenlia.
    assert (Hcut : take (length pre + len) (seen ++ c :: buf) = seen ++ [c]).
    { rewrite (cons_middle c), app_assoc, take_app_length'; [done|].
      rewrite length_app. cbn [length]. lenlia. }
    rewrite Heq, app_assoc, take_app_length' in Hcut by (rewrite length_app; lenlia).
    done.
Qed.

End Exactness.

Section ExactScan.

(** X17 (doc_count_keyword with [stop_at_first], doc_contains_keyword):
    for a non-empty term whose first byte occurs nowhere else in it, the
    scan of an existing file is exact: the containment result is 1 if
    the file holds the term as a contiguous run of bytes and 0 if it does
    not.  (For other terms only the first half holds; an occurrence that
    overlaps a failed partial match can be missed.) *)
Theorem scan_is_exact_when_first_byte_does_not_recur
        (e : env) (path kw content : list ascii) :
  files e path = Some content →
  c_str kw ≠ [] →
  first_byte_unique (c_str kw) →
  (doc_contains_keyword e path kw = 1%Z ↔ contains (c_str kw) content) ∧
  (doc_contains_keyword e path kw = 1%Z ∨ doc_contains_keyword e path kw = 0%Z).
Proof.
  intros Hfile Hne Huniq.
  assert (Hlen : length (c_str kw) = strlen kw) by apply term_length.
  assert (Hpos : 0 < strlen kw).
  { destruct (c_str kw); [done|]. cbn in Hlen. lia. }
  set (st0 := {| match_ := 0; matched_line := false; out := 0 |}).
  assert (Hrun : doc_contains_keyword e path kw
                 = match scan_buf kw (strlen kw) true st0 content with
                   | inl r => Z.of_nat r
                   | inr st => 0%Z
                   end).
  { unfold doc_contains_keyword, doc_count_keyword. rewrite Hfile.
    destruct (decide (strlen kw = 0)) as [|_]; [lia|].
    rewrite read_loop_scan_buf by lia. fold st0.
    pose proof (scan_buf_stop_quiet kw content st0 eq_refl eq_refl) as Hq.
    destruct (scan_buf kw (strlen kw) true st0 content) as [r|st]; [done|].
    destruct Hq as [-> ->]. by destruct (decide (0 < match_ st)). }
  assert (Hone : ∀ r, scan_buf kw (strlen kw) true st0 content = inl r → r = 1).
  { intros r Hr. pose proof (scan_buf_sound kw content [] st0) as Hs.
    rewrite Hr in Hs. apply Hs. split; cbn [match_ st0]; [lia|]. by exists []. }
  split.
  - split.
    + intros H. destruct (doc_contains_keyword_sound kw e path H) as (c' & Hc' & Hin).
      rewrite Hfile in Hc'. by injection Hc' as <-.
    + intros (pre & post & Heq). rewrite Hrun.
      rewrite (scan_buf_finds kw Huniq content [] st0 pre post); [done| |done|cbn [length]; lia].
      split_and!; cbn [match_ st0]; [lia|by exists []|].
      intros j Hj1 Hj2 [p Hp]. symmetry in Hp. apply app_eq_nil in Hp as [_ Hp].
      apply (f_equal length) in Hp. rewrite length_take in Hp. cbn in Hp. lia.
  - rewrite Hrun. destruct (scan_buf kw (strlen kw) true st0 content) as [r|st] eqn:Hr.
    + left. by rewrite (Hone r).
    + by right.
Qed.

Lemma scan_is_exact_when_first_byte_does_not_recur_witness :
  let e := env_f_txt (B "aaab") in
  (doc_contains_keyword e f_txt (B "ba" ++ [NUL]) = 1%Z
   ↔ contains (c_str (B "ba" ++ [NUL])) (B "aaab")) ∧
  (doc_contains_keyword e f_txt (B "ba" ++ [NUL]) = 1%Z
   ∨ doc_contains_keyword e f_txt (B "ba" ++ [NUL]) = 0%Z).
Proof.
  apply (scan_is_exact_when_first_byte_does_not_recur
           (env_f_txt (B "aaab")) f_txt (B "ba" ++ [NUL]) (B "aaab")).
  - vm_compute. reflexivity.
  - vm_compute. discriminate.
  - intros i Hi Hlt. assert (i = 1) as -> by (vm_compute in Hlt; lia).
    vm_compute. discriminate.
Defined.

End ExactScan.

Section LineCount.
Context (kw : list ascii).
Let len := strlen kw.
Let term := c_str kw.
Hypothesis Hunique : first_byte_unique term.
Hypothesis Hnonl : nl ∉ term.

Local Ltac lenlia := unfold len, term in *; lia.
Local Abbreviation ends_with := (Reference.ends_with term).
Local Abbreviation tracks_line := (Reference.tracks_line kw).

Lemma contains_snoc seen c :
  contains term (seen ++ [c]) ↔ contains term seen ∨ ends_with (seen ++ [c]) len.
Proof.
  pose proof (term_length kw) as Hl. fold term len in Hl.
  assert (Htake : take len term = term) by (apply take_ge; lenlia).
  split.
  - intros (pre & post & Heq).
    destruct post as [|x post _] using rev_ind.
    + right. exists pre. rewrite Htake. by rewrite app_nil_r in Heq.
    + left. rewrite !app_assoc in Heq. apply app_inj_tail in Heq as [-> _].
      exists pre, post. by rewrite app_assoc.
  - intros [(pre & post & ->)|[pre Heq]].
    + exists pre, (post ++ [c]). by rewrite <- !app_assoc.
    + exists pre, []. by rewrite app_nil_r, Heq, Htake.
Qed.

Local Ltac flag_step Hml :=
  split;
  [intros Hx; apply contains_snoc; left; by apply Hml
  |intros Hx; apply contains_snoc in Hx as [Hx|Hfull]; [by apply Hml|exfalso]].

(** One byte inside a line. *)
Lemma scan_byte_line seen st c :
  c ≠ nl → tracks_line seen st →
  ∃ st', scan_byte kw len false st c = inr st' ∧
         tracks_line (seen ++ [c]) st' ∧ out st' = out st.
Proof.
  intros Hc (Hm & Hend & Hmax & Hml). unfold scan_byte.
  pose proof (term_length kw) as Hl. fold term len in Hl.
  assert (Hcur : term !! match_ st = Some (byte_at kw (match_ st)))
    by (by apply term_lookup).
  assert (Hlonger : ∀ j, S (match_ st) < j → j ≤ len → ¬ ends_with (seen ++ [c]) j).
  { intros j Hj1 Hj2 Hj. destruct j as [|j]; [lenlia|].
    apply (ends_with_snoc kw) in Hj as [Hj _]; [|lenlia]. apply (Hmax j); [lenlia|lenlia|done]. }
  destruct (decide (c = byte_at kw (match_ st))) as [Hcm|Hcm].
  - assert (Hnext : ends_with (seen ++ [c]) (S (match_ st))).
    { apply (ends_with_snoc kw); [done|]. split; [done|]. by rewrite Hcm. }
    destruct (decide (S (match_ st) = len)) as [Hfull|Hpart].
    + destruct (decide (c = "010"%char)) as [|_]; [done|].
      eexists. split; [done|]. split; [|done].
      split_and!; cbn [match_ matched_line]; [lenlia| | |].
      * exists (seen ++ [c]). by rewrite take_0, app_nil_r.
      * intros j Hj1 Hj2 Hj.
        apply (two_prefixes kw Hunique (seen ++ [c]) len j); [by rewrite <- Hfull|done|lenlia..].
      * split; [|done]. intros _. apply contains_snoc. right. by rewrite <- Hfull.
    + destruct (decide (c = "010"%char)) as [|_]; [done|].
      eexists. split; [done|]. split; [|done].
      split_and!; cbn [match_ matched_line]; [lenlia|done| |].
      * intros j Hj1 Hj2. apply Hlonger; lenlia.
      * flag_step Hml. by apply (Hlonger len); [lenlia|lenlia|].
  - assert (Hshort : ∀ j, 1 < j → j ≤ len → ¬ ends_with (seen ++ [c]) j).
    { intros j Hj1 Hj2 Hj. destruct j as [|j]; [lenlia|].
      apply (ends_with_snoc kw) in Hj as [Hj Hcj]; [|lenlia].
      destruct (decide (match_ st < j)) as [Hgt|Hle]; [by apply (Hmax j); [|lenlia|]|].
      destruct (decide (j = match_ st)) as [->|Hne].
      - fold term in Hcj. rewrite Hcur in Hcj. by injection Hcj as <-.
      - apply (two_prefixes kw Hunique seen (match_ st) j); [done|done|lenlia..]. }
    assert (Hnofull : 1 < len ∨ c ≠ byte_at kw 0 → ¬ ends_with (seen ++ [c]) len).
    { intros Hcase Hfull.
      destruct (decide (1 < len)) as [H1|H1]; [by apply (Hshort len); [|lenlia|]|].
      destruct Hcase as [?|Hc0]; [done|].
      assert (len = 1) as Hone by lenlia. rewrite Hone in Hfull.
      apply (ends_with_snoc kw seen c 0) in Hfull as [_ Hcj]; [|lenlia].
      fold term in Hcj. rewrite (term_lookup kw) in Hcj by lenlia. by injection Hcj as <-. }
    destruct (decide (c = "010"%char)) as [|_]; [done|].
    eexists. split; [done|]. split; [|done].
    destruct (decide (c = byte_at kw 0)) as [Hc0|Hc0].
    + assert (H1 : 1 < len).
      { destruct (decide (match_ st = 0)) as [Hz|Hz]; [|lenlia].
        rewrite Hz in Hcm. done. }
      split_and!; cbn [match_ matched_line]; [lenlia| | |].
      * apply (ends_with_snoc kw seen c 0); [lenlia|]. split.
        -- exists seen. by rewrite take_0, app_nil_r.
        -- rewrite Hc0. apply term_lookup. lenlia.
      * intros j Hj1 Hj2. apply Hshort; lenlia.
      * flag_step Hml. apply Hnofull; [by left|done].
    + split_and!; cbn [match_ matched_line]; [lenlia| | |].
      * exists (seen ++ [c]). by rewrite take_0, app_nil_r.
      * intros j Hj1 Hj2. destruct (decide (j = 1)) as [->|]; [|apply Hshort; lenlia].
        intros Hj. apply (ends_with_snoc kw seen c 0) in Hj as [_ Hcj]; [|lenlia].
        fold term in Hcj. rewrite (term_lookup kw) in Hcj by lenlia. by injection Hcj as <-.
      * flag_step Hml. apply Hnofull; [by right|done].
Qed.

(** The newline that ends a line: the line is counted if it held the
    term, and the scanner starts afresh. *)
Lemma scan_byte_newline seen st :
  tracks_line seen st →
  ∃ st', scan_byte kw len false st nl = inr st' ∧
         match_ st' = 0 ∧ matched_line st' = false ∧
         ((contains term seen ∧ out st' = S (out st))
          ∨ (¬ contains term seen ∧ out st' = out st)).
Proof.
  intros (Hm & Hend & Hmax & Hml). unfold scan_byte.
  assert (Hin : ∀ i, i < len → nl ≠ byte_at kw i).
  { intros i Hi Heq. apply Hnonl. apply (list_elem_of_lookup_2 _ i).
    rewrite Heq. by apply term_lookup. }
  destruct (decide (nl = byte_at kw (match_ st))) as [Hc|_]; [by apply Hin in Hc|].
  destruct (decide (nl = byte_at kw 0)) as [Hc|_]; [apply Hin in Hc; [done|lenlia]|].
  unfold nl at 1. destruct (decide ("010"%char = "010"%char)) as [_|]; [|done].
  eexists. split; [done|]. cbn [match_ matched_line out]. split; [done|]. split; [done|].
  destruct (matched_line st) eqn:E.
  - left. split; [by apply Hml|done].
  - right. split; [|done]. intros Hc. apply Hml in Hc. done.
Qed.

Lemma fresh_line st : 0 < len → match_ st = 0 → matched_line st = false → tracks_line [] st.
Proof.
  intros Hpos Hm Hml. pose proof (term_length kw) as Hl. fold term len in Hl.
  split_and!; rewrite ?Hm, ?Hml; [lenlia|by exists []| |].
  - intros j Hj1 Hj2 [p Hp]. symmetry in Hp. apply app_eq_nil in Hp as [_ Hp].
    apply (f_equal length) in Hp. rewrite length_take in Hp. cbn in Hp. lenlia.
  - split; [done|]. intros (pre & post & Heq). symmetry in Heq.
    apply app_eq_nil in Heq as [_ Heq]. apply app_eq_nil in Heq as [Heq _].
    apply (f_equal length) in Heq. cbn in Heq. lenlia.
Qed.

(** The bytes of a line from inside the line on, and then its newline. *)
Lemma scan_line rest : ∀ seen st,
  nl ∉ rest → tracks_line seen st →
  ∃ st', scan_buf kw len false st (rest ++ [nl]) = inr st' ∧
         match_ st' = 0 ∧ matched_line st' = false ∧
         ((contains term (seen ++ rest) ∧ out st' = S (out st))
          ∨ (¬ contains term (seen ++ rest) ∧ out st' = out st)).
Proof.
  induction rest as [|c rest IH]; intros seen st Hnl Htr.
  - cbn [app scan_buf]. rewrite app_nil_r.
    destruct (scan_byte_newline seen st Htr) as (st' & -> & ?). by exists st'.
  - apply not_elem_of_cons in Hnl as [Hc Hnl].
    destruct (scan_byte_line seen st c) as (st1 & Hstep & Htr1 & Hout); [done|done|].
    cbn [app scan_buf]. rewrite Hstep.
    destruct (IH (seen ++ [c]) st1 Hnl Htr1) as (st' & Hrun & ? & ? & Hcount).
    exists st'. rewrite <- app_assoc in Hcount. cbn [app] in Hcount.
    rewrite Hout in Hcount. done.
Qed.

(** A file of whole lines. *)
Lemma scan_lines lines : ∀ st,
  0 < len → Forall (λ l, nl ∉ l) lines →
  match_ st = 0 → matched_line st = false →
  ∃ st' n, scan_buf kw len false st (terminated lines) = inr st' ∧
           match_ st' = 0 ∧ matched_line st' = false ∧
           counts term lines n ∧ out st' = out st + n.
Proof.
  induction lines as [|l lines IH]; intros st Hpos Hall Hm Hml.
  - exists st, 0. split_and!; [done|done|done|constructor|lia].
  - apply Forall_cons in Hall as [Hl Hall].
    change (terminated (l :: lines)) with ((l ++ [nl]) ++ terminated lines).
    rewrite scan_buf_app.
    destruct (scan_line l [] st Hl (fresh_line st Hpos Hm Hml))
      as (st1 & -> & Hm1 & Hml1 & Hcount).
    destruct (IH st1 Hpos Hall Hm1 Hml1) as (st' & n & Hrun & ? & ? & Hn & Hout).
    rewrite Hrun. cbn [app] in Hcount.
    destruct Hcount as [[Hin Ho]|[Hin Ho]].
    + exists st', (S n). split_and!; try done; [by constructor|lia].
    + exists st', n. split_and!; try done; [by apply counts_miss|lia].
Qed.

End LineCount.

Ltac not_in_text :=
let H := fresh in
intros H; vm_compute in H;
repeat (apply elem_of_cons in H as [H|H]; [discriminate H|]);
by apply elem_of_nil in H.

Section CountLines.

(** X18 (doc_count_keyword without [stop_at_first], the count of
    [handle_l]): on a file of whole lines, each ended by a newline, and
    for a non-empty term without a newline whose first byte occurs
    nowhere else in it, the count returned is the number of lines that
    hold the term. *)
Theorem count_is_the_number_of_lines_holding_the_term
        (e : env) (path kw : list ascii) (lines : list (list ascii)) :
  files e path = Some (terminated lines) →
  Forall (λ l, nl ∉ l) lines →
  c_str kw ≠ [] → nl ∉ c_str kw → first_byte_unique (c_str kw) →
  ∃ n, doc_count_keyword e path kw false = (OS_OK, n) ∧ counts (c_str kw) lines n.
Proof.
  intros Hfile Hlines Hne Hnonl Huniq.
  assert (Hlen : length (c_str kw) = strlen kw) by apply term_length.
  assert (Hpos : 0 < strlen kw).
  { destruct (c_str kw); [done|]. cbn in Hlen. lia. }
  unfold doc_count_keyword. rewrite Hfile.
  destruct (decide (strlen kw = 0)) as [|_]; [lia|].
  rewrite read_loop_scan_buf by lia.
  destruct (scan_lines kw Huniq Hnonl lines
              {| match_ := 0; matched_line := false; out := 0 |})
    as (st & n & -> & Hm & Hml & Hn & Hout); [done..|].
  exists n. rewrite Hm. destruct (decide (0 < 0)) as [|_]; [lia|].
  cbn [out] in Hout. by rewrite Hout.
Qed.

Lemma count_is_the_number_of_lines_holding_the_term_witness :
  ∃ n, doc_count_keyword (env_f_txt (terminated [B "an apple"; B "a pear"; B "apples"]))
         f_txt (B "pl" ++ [NUL]) false = (OS_OK, n) ∧
       counts (c_str (B "pl" ++ [NUL])) [B "an apple"; B "a pear"; B "apples"] n.
Proof.
  apply (count_is_the_number_of_lines_holding_the_term
           (env_f_txt (terminated [B "an apple"; B "a pear"; B "apples"]))
           f_txt (B "pl" ++ [NUL]) [B "an apple"; B "a pear"; B "apples"]).
  - vm_compute. reflexivity.
  - repeat (apply Forall_cons; split; [not_in_text|]). apply Forall_nil_2.
  - vm_compute. discriminate.
  - not_in_text.
  - intros i Hi Hlt. assert (i = 1) as -> by (vm_compute in Hlt; lia).
    vm_compute. discriminate.
Defined.

End CountLines.

(** ** The cache as a bounded map *)

Section Payload.
Import Cache.
Implicit Types (c : cache_t) (h : gmap loc entry_t) (es : list (loc * list ascii)).

Lemma payload_set_prev h l p l' :
  payload_of (set_prev h l p) l' = payload_of h l'.
Proof.
  unfold payload_of, set_prev. rewrite lookup_alter.
  destruct (decide (l = l')) as [->|]; [|done]. by destruct (h !! l').
Qed.

Lemma payload_set_next h l n l' :
  payload_of (set_next h l n) l' = payload_of h l'.
Proof.
  unfold payload_of, set_next. rewrite lookup_alter.
  destruct (decide (l = l')) as [->|]; [|done]. by destruct (h !! l').
Qed.

(** Relinking an entry changes no key and no response. *)
Lemma payload_move_front c e l :
  payload_of (heap (move_front c e)) l = payload_of (heap c) l.
Proof.
  unfold move_front. destruct e as [e|]; [|done].
  destruct (decide (Some e = head c)); [done|]. cbn [heap].
  destruct (head c) as [hd|].
  - rewrite payload_set_prev, payload_set_next, payload_set_prev.
    destruct (get_next _ e); rewrite ?payload_set_prev;
      destruct (get_prev (heap c) e); by rewrite ?payload_set_next.
  - rewrite payload_set_next, payload_set_prev.
    destruct (get_next _ e); rewrite ?payload_set_prev;
      destruct (get_prev (heap c) e); by rewrite ?payload_set_next.
Qed.

Lemma payload_evict_step c c' l :
  evict_step c = Some c' →
  heap c' !! l = None ∨ payload_of (heap c') l = payload_of (heap c) l.
Proof.
  unfold evict_step. destruct (decide _); [|done].
  destruct (tail c) as [old|]; [|done]. intros [= <-]. cbn [heap].
  destruct (decide (l = old)) as [->|Hne]; [left; apply lookup_delete_eq|].
  right. unfold payload_of at 1. rewrite lookup_delete_ne by done.
  destruct (get_prev (heap c) old); [apply payload_set_next|done].
Qed.

Lemma payload_evict_loop fuel : ∀ c l,
  heap (evict_loop fuel c) !! l = None
  ∨ payload_of (heap (evict_loop fuel c)) l = payload_of (heap c) l.
Proof.
  induction fuel as [|fuel IH]; intros c l; [by right|].
  cbn [evict_loop]. destruct (evict_step c) as [c'|] eqn:Hstep; [|by right].
  destruct (IH c' l) as [?|Hsame]; [by left|].
  destruct (payload_evict_step c c' l Hstep) as [Hgone|Hkeep].
  - left. unfold payload_of in Hsame. rewrite Hgone in Hsame.
    by destruct (heap (evict_loop fuel c') !! l).
  - right. congruence.
Qed.

Lemma payload_push_front c k r l :
  payload_of (heap (push_front c k r)) l
  = if decide (l = brk c) then Some (k, r) else payload_of (heap c) l.
Proof.
  unfold push_front. cbn [heap].
  assert (H : payload_of (<[brk c := {| key := k; rsp := r; prev := None;
                                        next := head c |}]> (heap c)) l
              = if decide (l = brk c) then Some (k, r) else payload_of (heap c) l).
  { unfold payload_of. destruct (decide (l = brk c)) as [->|Hne].
    - by rewrite lookup_insert_eq.
    - by rewrite lookup_insert_ne. }
  destruct (head c); by rewrite ?payload_set_prev.
Qed.

Lemma payload_set_rsp h e r l :
  payload_of (set_rsp h e r) l
  = if decide (l = e) then (λ x, (key x, r)) <$> h !! l else payload_of h l.
Proof.
  unfold payload_of, set_rsp. rewrite lookup_alter.
  destruct (decide (e = l)) as [->|Hne].
  - destruct (decide (l = l)); [|done]. by destruct (h !! l).
  - by destruct (decide (l = e)) as [->|].
Qed.

(** The response cached under a key of the list. *)
Lemma cached_wf c es l k :
  lru_wf c es → (l, k) ∈ es → cached c k = snd <$> payload_of (heap c) l.
Proof.
  intros Hwf Hin. destruct (wf_ht _ _ Hwf) as (m & Hm & Hiff).
  unfold cached, payload_of. rewrite Hm. cbn [mbind option_bind].
  rewrite (proj2 (Hiff k l) Hin). cbn [mbind option_bind].
  by destruct (heap c !! l).
Qed.

Lemma cached_None_wf c es k : lru_wf c es → k ∉ es.*2 → cached c k = None.
Proof.
  intros Hwf Hk. destruct (wf_ht _ _ Hwf) as (m & Hm & Hiff).
  unfold cached. rewrite Hm. cbn [mbind option_bind].
  destruct (m !! k) as [l|] eqn:E; [|done].
  exfalso. apply Hk. apply elem_of_snd. exists l. by apply Hiff.
Qed.

Lemma cached_is_Some_wf c es k : lru_wf c es → is_Some (cached c k) ↔ k ∈ es.*2.
Proof.
  intros Hwf. split.
  - intros Hs. destruct (decide (k ∈ es.*2)) as [|Hn]; [done|].
    rewrite (cached_None_wf c es k Hwf Hn) in Hs. by destruct Hs.
  - intros Hin. apply elem_of_snd in Hin as [l Hin].
    rewrite (cached_wf c es l k Hwf Hin).
    assert (is_Some (heap c !! l)) as [x Hx].
    { apply (wf_heap _ _ Hwf). apply elem_of_fst. by exists k. }
    unfold payload_of. rewrite Hx. by eexists.
Qed.

End Payload.

Section MapOperations.
Import Cache.
Implicit Types (c : cache_t) (h : gmap loc entry_t) (es : list (loc * list ascii)).

Lemma wf_loc_key es l k l' k' :
  NoDup es.*1 → (l, k) ∈ es → (l', k') ∈ es → l = l' → k = k'.
Proof.
  intros Hnd H1 H2 <-.
  apply list_elem_of_lookup in H1 as [i Hi]. apply list_elem_of_lookup in H2 as [j Hj].
  assert (i = j) as ->.
  { apply (NoDup_lookup es.*1 i j l Hnd); rewrite list_lookup_fmap; [by rewrite Hi|by rewrite Hj]. }
  congruence.
Qed.

Lemma get_as_map c es kw :
  lru_wf c es →
  (cache_get c kw).1 = match cached c (c_str kw) with
                       | Some hit => (OS_OK, Some hit)
                       | None => (OS_ERROR, None)
                       end ∧
  ∀ k, cached (cache_get c kw).2 k = cached c k.
Proof.
  intros Hwf. destruct (decide (c_str kw ∈ es.*2)) as [Hin|Hnin].
  - apply elem_of_snd in Hin as [l Hin]. pose proof Hin as Hsplit.
    apply list_elem_of_split in Hsplit as (es1 & es2 & ->).
    destruct (move_front_wf c es1 l (c_str kw) es2 Hwf) as (Hwf' & _ & _).
    assert (Hl : ht_lookup c kw = Some l) by (by apply (ht_lookup_wf c _ kw l Hwf)).
    assert (is_Some (heap c !! l)) as [x Hx].
    { apply (wf_heap _ _ Hwf). apply elem_of_fst. by exists (c_str kw). }
    unfold cache_get. rewrite Hl. cbn [fst snd].
    rewrite (cached_wf c _ l (c_str kw) Hwf Hin).
    assert (Hrsp : rsp <$> heap (move_front c (Some l)) !! l
                   = snd <$> payload_of (heap c) l).
    { rewrite <- (payload_move_front c (Some l) l). unfold payload_of.
      by destruct (heap (move_front c (Some l)) !! l). }
    rewrite Hrsp. unfold payload_of. rewrite Hx. split; [done|].
    intros k. destruct (decide (k ∈ (es1 ++ (l, c_str kw) :: es2).*2)) as [Hk|Hk].
    + apply elem_of_snd in Hk as [l' Hk].
      rewrite (cached_wf c _ l' k Hwf Hk).
      rewrite (cached_wf _ _ l' k Hwf'); [by rewrite payload_move_front|].
      by rewrite Permutation_middle.
    + rewrite (cached_None_wf c _ k Hwf Hk). apply (cached_None_wf _ _ k Hwf').
      by rewrite Permutation_middle.
  - rewrite (cache_get_miss_wf c es kw Hwf Hnin). cbn [fst snd].
    by rewrite (cached_None_wf c es _ Hwf Hnin).
Qed.

Lemma put_as_map c es kw r :
  lru_wf c es → cap c ≠ 0 →
  cached (cache_put c kw r) (c_str kw) = Some r ∧
  ∀ k, k ≠ c_str kw →
       cached (cache_put c kw r) k = cached c k
       ∨ (cached (cache_put c kw r) k = None ∧ k ∉ keys (cache_put c kw r)).
Proof.
  intros Hwf Hcap. destruct (decide (c_str kw ∈ es.*2)) as [Hin|Hnin].
  - apply elem_of_snd in Hin as [l Hin]. pose proof Hin as Hsplit.
    apply list_elem_of_split in Hsplit as (es1 & es2 & ->).
    destruct (cache_put_hit_wf c es1 l (c_str kw) es2 kw r Hwf Hcap eq_refl) as [Hwf' _].
    assert (Hl : ht_lookup c kw = Some l) by (by apply (ht_lookup_wf c _ kw l Hwf)).
    assert (is_Some (heap c !! l)) as [x Hx].
    { apply (wf_heap _ _ Hwf). apply elem_of_fst. by exists (c_str kw). }
    assert (Hc' : cache_put c kw r
                  = move_front (with_heap c (set_rsp (heap c) l r)) (Some l)).
    { unfold cache_put. destruct (decide (cap c = 0)); [done|]. by rewrite Hl. }
    assert (Hpay : ∀ l', payload_of (heap (cache_put c kw r)) l'
                         = if decide (l' = l) then (λ x, (key x, r)) <$> heap c !! l'
                           else payload_of (heap c) l').
    { intros l'. rewrite Hc', payload_move_front. cbn [with_heap heap].
      apply payload_set_rsp. }
    split.
    + rewrite (cached_wf _ _ l (c_str kw) Hwf') by (by left).
      rewrite Hpay. destruct (decide (l = l)); [|done]. by rewrite Hx.
    + intros k Hk. left.
      destruct (decide (k ∈ (es1 ++ (l, c_str kw) :: es2).*2)) as [Hkin|Hkout].
      * apply elem_of_snd in Hkin as [l' Hkin].
        rewrite (cached_wf c _ l' k Hwf Hkin).
        rewrite (cached_wf _ _ l' k Hwf') by (by rewrite Permutation_middle).
        rewrite Hpay. destruct (decide (l' = l)) as [->|]; [|done].
        exfalso. apply Hk. symmetry.
        by apply (wf_loc_key _ l (c_str kw) l k (wf_locs _ _ Hwf) Hin Hkin).
      * rewrite (cached_None_wf c _ k Hwf Hkout). apply (cached_None_wf _ _ k Hwf').
        by rewrite Permutation_middle.
  - destruct (cache_put_new_wf c es kw r Hwf Hcap Hnin) as [Hwf' _].
    assert (Hc' : cache_put c kw r = evict (push_front c (c_str kw) r)).
    { unfold cache_put. destruct (decide (cap c = 0)); [done|].
      by rewrite (proj2 (ht_lookup_None_wf c es kw Hwf) Hnin). }
    assert (Hpay : ∀ l', is_Some (heap (cache_put c kw r) !! l') →
                         payload_of (heap (cache_put c kw r)) l'
                         = if decide (l' = brk c) then Some (c_str kw, r)
                           else payload_of (heap c) l').
    { intros l' [x Hx]. rewrite Hc' in *. unfold evict in *.
      destruct (payload_evict_loop (count (push_front c (c_str kw) r))
                  (push_front c (c_str kw) r) l') as [Hgone|Hsame]; [congruence|].
      rewrite Hsame. apply payload_push_front. }
    assert (Hlive : ∀ l' k, (l', k) ∈ take (cap c) ((brk c, c_str kw) :: es) →
                            is_Some (heap (cache_put c kw r) !! l')).
    { intros l' k Hk. apply (wf_heap _ _ Hwf'). apply elem_of_fst. by exists k. }
    destruct (cap c) as [|m] eqn:Hm; [done|]. cbn [take] in *.
    split.
    + rewrite (cached_wf _ _ (brk c) (c_str kw) Hwf') by (by left).
      rewrite Hpay by (apply (Hlive _ (c_str kw)); by left).
      by destruct (decide (brk c = brk c)).
    + intros k Hk.
      destruct (decide (k ∈ ((brk c, c_str kw) :: take m es).*2)) as [Hkin|Hkout].
      * left. apply elem_of_snd in Hkin as [l' Hkin].
        rewrite (cached_wf _ _ l' k Hwf' Hkin), (Hpay l') by (by apply (Hlive _ k)).
        apply elem_of_cons in Hkin as [[= -> ->]|Hkin]; [done|].
        apply elem_of_take in Hkin as (i & Hi & _).
        apply list_elem_of_lookup_2 in Hi.
        rewrite (cached_wf c es l' k Hwf Hi).
        destruct (decide (l' = brk c)) as [->|]; [|done].
        exfalso. assert (brk c < brk c); [|lia].
        apply (wf_brk _ _ Hwf). apply elem_of_fst. by exists k.
      * right. split; [by apply (cached_None_wf _ _ k Hwf')|].
        by rewrite (keys_wf _ _ Hwf').
Qed.

Lemma get_keeps_wf c es kw :
  lru_wf c es → ∃ es', lru_wf (cache_get c kw).2 es' ∧ cap (cache_get c kw).2 = cap c.
Proof.
  intros Hwf. destruct (decide (c_str kw ∈ es.*2)) as [Hin|Hnin].
  - apply elem_of_snd in Hin as [l Hin].
    apply list_elem_of_split in Hin as (es1 & es2 & ->).
    destruct (cache_get_hit_wf c es1 l (c_str kw) es2 kw Hwf eq_refl) as (r & -> & Hwf' & Hcap).
    by eexists.
  - rewrite (cache_get_miss_wf c es kw Hwf Hnin). by eexists.
Qed.

Lemma put_keeps_wf c es kw r :
  lru_wf c es → cap c ≠ 0 →
  ∃ es', lru_wf (cache_put c kw r) es' ∧ cap (cache_put c kw r) = cap c.
Proof.
  intros Hwf Hcap. destruct (decide (c_str kw ∈ es.*2)) as [Hin|Hnin].
  - apply elem_of_snd in Hin as [l Hin].
    apply list_elem_of_split in Hin as (es1 & es2 & ->).
    eexists. apply (cache_put_hit_wf c es1 l (c_str kw) es2 kw r Hwf Hcap eq_refl).
  - eexists. apply (cache_put_new_wf c es kw r Hwf Hcap Hnin).
Qed.

End MapOperations.

Section CacheAsMap.
Import Cache.

(** X19 (cache_get): after any sequence of Put and Get operations on a
    fresh cache of capacity above zero, the table finds a response exactly
    for the keys of the list; a Get returns the response stored under the
    key, or fails for a key that is not cached; and a Get changes no
    stored response, it only reorders the list. *)
Theorem get_returns_the_stored_response (n : nat) (ops : list op) (kw : list ascii) :
  0 < n →
  let c := (run (cache_init uninit n None).2 [] ops).1 in
  (∀ k, is_Some (cached c k) ↔ k ∈ keys c) ∧
  (cache_get c kw).1 = match cached c (c_str kw) with
                       | Some hit => (OS_OK, Some hit)
                       | None => (OS_ERROR, None)
                       end ∧
  (∀ k, cached (cache_get c kw).2 k = cached c k).
Proof.
  intros Hn c.
  pose proof (run_inv n ops (cache_init uninit n None).2 [] Hn (init_inv n)) as Hinv.
  fold c in Hinv. destruct Hinv as (es & Hwf & Hcap & _).
  destruct (get_as_map c es kw Hwf) as [Hget Hsame].
  split_and!; [|done|done].
  intros k. rewrite (keys_wf c es Hwf). by apply cached_is_Some_wf.
Qed.

Lemma get_returns_the_stored_response_witness :
  let c := (run (cache_init uninit 2 None).2 []
              [Put (B "a" ++ [NUL]) rsp_none; Put (B "b" ++ [NUL]) rsp_zero]).1 in
  (∀ k, is_Some (cached c k) ↔ k ∈ keys c) ∧
  (cache_get c (B "a" ++ [NUL])).1
  = match cached c (c_str (B "a" ++ [NUL])) with
    | Some hit => (OS_OK, Some hit)
    | None => (OS_ERROR, None)
    end ∧
  (∀ k, cached (cache_get c (B "a" ++ [NUL])).2 k = cached c k).
Proof.
  apply (get_returns_the_stored_response 2
           [Put (B "a" ++ [NUL]) rsp_none; Put (B "b" ++ [NUL]) rsp_zero]
           (B "a" ++ [NUL])).
  lia.
Defined.

(** X20 (cache_put, cache_get): after any sequence of operations on a
    fresh cache of capacity above zero, a Put stores the response under
    the C string of the keyword, replacing what was there, so that a Get of
    the keyword returns it; and under every other key the cache holds the
    response it held before, unless that key was evicted to make room. *)
Theorem put_then_get_returns_the_response
        (n : nat) (ops : list op) (kw : list ascii) (r : response_t) :
  0 < n →
  let c := (run (cache_init uninit n None).2 [] ops).1 in
  let c' := cache_put c kw r in
  (cache_get c' kw).1 = (OS_OK, Some r) ∧
  cached c' (c_str kw) = Some r ∧
  (∀ k, k ≠ c_str kw →
        cached c' k = cached c k ∨ (cached c' k = None ∧ k ∉ keys c')).
Proof.
  intros Hn c c'.
  pose proof (run_inv n ops (cache_init uninit n None).2 [] Hn (init_inv n)) as Hinv.
  fold c in Hinv. destruct Hinv as (es & Hwf & Hcap & _).
  destruct (put_as_map c es kw r Hwf ltac:(lia)) as [Hput Hothers].
  fold c' in Hput, Hothers. split_and!; [|done|done].
  destruct (put_keeps_wf c es kw r Hwf ltac:(lia)) as (es' & Hwf' & _).
  fold c' in Hwf'.
  destruct (get_as_map c' es' kw Hwf') as [Hget _]. by rewrite Hget, Hput.
Qed.

Lemma put_then_get_returns_the_response_witness :
  let c := (run (cache_init uninit 1 None).2 [] [Put (B "a" ++ [NUL]) rsp_none]).1 in
  let c' := cache_put c (B "b" ++ [NUL]) rsp_zero in
  (cache_get c' (B "b" ++ [NUL])).1 = (OS_OK, Some rsp_zero) ∧
  cached c' (c_str (B "b" ++ [NUL])) = Some rsp_zero ∧
  (∀ k, k ≠ c_str (B "b" ++ [NUL]) →
        cached c' k = cached c k ∨ (cached c' k = None ∧ k ∉ keys c')).
Proof.
  apply (put_then_get_returns_the_response 1 [Put (B "a" ++ [NUL]) rsp_none]
           (B "b" ++ [NUL]) rsp_zero).
  lia.
Defined.

End CacheAsMap.

(** ** The handlers and the serve loop *)

Section Digits.
Local Open Scope Z_scope.

Lemma uint_length d :
  length (list_ascii_of_string (NilEmpty.string_of_uint d)) = Decimal.nb_digits d.
Proof.
  induction d; cbn [NilEmpty.string_of_uint list_ascii_of_string length Decimal.nb_digits];
    [done|by rewrite IHd..].
Qed.

Lemma uint_val_lower d : ∀ acc,
  0 ≤ acc → acc * 10 ^ Z.of_nat (Decimal.nb_digits d) ≤ uint_val acc d.
Proof.
  induction d as [|d IH|d IH|d IH|d IH|d IH|d IH|d IH|d IH|d IH|d IH]; intros acc Hacc;
    cbn [uint_val Decimal.nb_digits].
  1: change (Z.of_nat 0) with 0; lia.
  all: rewrite Nat2Z.inj_succ, Z.pow_succ_r by lia;
    match goal with |- _ ≤ uint_val ?a _ =>
      specialize (IH a ltac:(lia)); etrans; [|exact IH] end;
    assert (0 < 10 ^ Z.of_nat (Decimal.nb_digits d)) by (apply Z.pow_pos_nonneg; lia);
    nia.
Qed.

Lemma nzhead_no_zero d u : Decimal.nzhead d ≠ Decimal.D0 u.
Proof. induction d; cbn [Decimal.nzhead]; done. Qed.

Lemma to_uint_digits p :
  10 ^ (Z.of_nat (Decimal.nb_digits (Pos.to_uint p)) - 1) ≤ Z.pos p.
Proof.
  pose proof (DecimalPos.Unsigned.to_of (Pos.to_uint p)) as Hnorm.
  rewrite DecimalPos.Unsigned.of_to in Hnorm. cbn [N.to_uint] in Hnorm.
  pose proof (DecimalPos.Unsigned.of_to p) as Hval.
  apply (f_equal Z.of_N) in Hval. rewrite of_uint_val in Hval. cbn [Z.of_N] in Hval.
  pose proof (Unsigned.to_uint_nonnil p) as Hnil.
  pose proof (Unsigned.to_uint_nonzero p) as Hnz.
  rewrite <- Hval. clear Hval.
  destruct (Pos.to_uint p) as [|d|d|d|d|d|d|d|d|d|d] eqn:E; [done|..].
  1: { exfalso. unfold Decimal.unorm in Hnorm. cbn [Decimal.nzhead] in Hnorm.
       pose proof (nzhead_no_zero d) as Hno.
       destruct (Decimal.nzhead d) as [|u|u|u|u|u|u|u|u|u|u] eqn:Ez; try discriminate.
       - by injection Hnorm as ->.
       - by apply (Hno u). }
  all: cbn [uint_val Decimal.nb_digits];
    match goal with |- _ ≤ uint_val ?a ?u =>
      pose proof (uint_val_lower u a ltac:(lia)) as Hlow;
      replace (Z.of_nat (S (Decimal.nb_digits u)) - 1) with (Z.of_nat (Decimal.nb_digits u))
        by lia;
      assert (0 < 10 ^ Z.of_nat (Decimal.nb_digits u)) by (apply Z.pow_pos_nonneg; lia)
    end;
    nia.
Qed.

(** A 32-bit value prints in at most ten digits. *)
Lemma fmt_d_length n : 0 ≤ n < 4294967296 → (length (fmt_d n) ≤ 10)%nat.
Proof.
  intros Hn. unfold fmt_d. destruct n as [|p|p]; [cbn; lia| |lia].
  cbn [Z.to_int NilZero.string_of_int]. unfold NilZero.string_of_uint.
  pose proof (Unsigned.to_uint_nonnil p) as Hnil.
  pose proof (to_uint_digits p) as Hlow.
  assert (Hlen : (Decimal.nb_digits (Pos.to_uint p) ≤ 10)%nat).
  { destruct (decide (Decimal.nb_digits (Pos.to_uint p) ≤ 10)%nat) as [|Hbig]; [done|].
    exfalso.
    assert (10 ^ 10 ≤ 10 ^ (Z.of_nat (Decimal.nb_digits (Pos.to_uint p)) - 1))
      by (apply Z.pow_le_mono_r; lia).
    lia. }
  destruct (Pos.to_uint p) eqn:E; [done|..]; rewrite <- E in *; by rewrite uint_length.
Qed.

End Digits.

Section BuiltResponses.

Lemma four_adds b0 b t1 v1 t2 v2 t3 v3 t4 v4 :
  add_tlvs b0 [(t1, v1); (t2, v2); (t3, v3); (t4, v4)] = (OS_OK, b) →
  (proto_add_tlv (proto_add_tlv (proto_add_tlv (proto_add_tlv b0 t1 v1).2 t2 v2).2
                    t3 v3).2 t4 v4).2 = b.
Proof.
  cbn [add_tlvs].
  destruct (proto_add_tlv b0 t1 v1) as [[] b1]; try done. cbn [snd].
  destruct (proto_add_tlv b1 t2 v2) as [[] b2]; try done. cbn [snd].
  destruct (proto_add_tlv b2 t3 v3) as [[] b3]; try done. cbn [snd].
  destruct (proto_add_tlv b3 t4 v4) as [[] b4]; try done. cbn [snd].
  by intros [= ->].
Qed.

(** [snprintf] of a text that fits, read back as a C string. *)
Lemma snprintf_fits cap text :
  no_nul text → length text ≤ cap - 1 →
  snprintf cap text = text ++ [NUL] ∧ c_str (snprintf cap text) = text.
Proof.
  intros Hnn Hlen. unfold snprintf. rewrite take_ge by done.
  split; [done|]. by apply c_str_no_nul.
Qed.

Lemma c_str_app_nul x : c_str (x ++ [NUL]) = c_str x.
Proof.
  unfold c_str.
  assert (Hs : strlen (x ++ [NUL]) = strlen x).
  { induction x as [|c x IH]; cbn [app strlen]; [by destruct (decide _)|].
    destruct (decide _); [done|]. by rewrite IH. }
  rewrite Hs. apply take_app_le. apply strlen_le. exact x.
Qed.

Lemma c_str_length x : length (c_str x) ≤ length x.
Proof. unfold c_str. rewrite length_take. lia. Qed.

Lemma copy_field_take arg max :
  0 < max → copy_field arg max = take (max - 1) arg ++ [NUL].
Proof.
  intros Hmax. unfold copy_field.
  destruct (decide (length arg < max)); [|done].
  by rewrite !take_ge by lia.
Qed.

Lemma no_nul_B_app (s : string) l : no_nul (B s) → no_nul l → no_nul (B s ++ l).
Proof. apply no_nul_app. Qed.

End BuiltResponses.

Section Consult.
Local Open Scope Z_scope.

(** [handle_c] on a record whose strings fit their lines. *)
Lemma handle_c_found e s x d :
  stg_get_doc s (to_int32 x) = Some d →
  (length (c_str (title d)) ≤ 199)%nat → (length (c_str (authors d)) ≤ 199)%nat →
  (length (c_str (path d)) ≤ 63)%nat → 0 ≤ year d < 4294967296 →
  let lines := [(ARG_STR, B "Title: " ++ c_str (title d));
                (ARG_STR, B "Authors: " ++ c_str (authors d));
                (ARG_STR, B "Year: " ++ fmt_d (year d));
                (ARG_STR, B "Path: " ++ c_str (path d))] in
  ∃ rsp, handle_c e s [U32 x] = (Returned OS_OK rsp, s) ∧
         rsp_opcode (rsp_hdr rsp) = op_byte OP_C ∧
         cursor_all (proto_cursor_init (rsp_payload rsp)
                       (rsp_len (rsp_hdr rsp) - RSP_HDR_SZ)) = Some (lines, OS_OK) ∧
         proto_send_rsp rsp
         = u16_le (RSP_HDR_SZ + tlvs_size lines) ++ [op_byte OP_C; zero] ++ tlvs_wire lines.
Proof.
  intros Hget Ht Ha Hp Hy lines.
  pose proof (fmt_d_length (year d) Hy) as Hylen.
  unfold handle_c. cbn [lookup_total list_lookup_total v_u32]. rewrite Hget.
  destruct (snprintf_fits 256 (B "Title: " ++ c_str (title d))) as [_ ->].
  { apply no_nul_app; [by repeat constructor|apply c_str_is_no_nul]. }
  { rewrite length_app. cbn [length B list_ascii_of_string]. lia. }
  destruct (snprintf_fits 256 (B "Authors: " ++ c_str (authors d))) as [_ ->].
  { apply no_nul_app; [by repeat constructor|apply c_str_is_no_nul]. }
  { rewrite length_app. cbn [length B list_ascii_of_string]. lia. }
  destruct (snprintf_fits 256 (B "Year: " ++ fmt_d (year d))) as [_ ->].
  { apply no_nul_app; [by repeat constructor|apply fmt_d_no_nul]. }
  { rewrite length_app. cbn [length B list_ascii_of_string]. lia. }
  destruct (snprintf_fits 256 (B "Path: " ++ c_str (path d))) as [_ ->].
  { apply no_nul_app; [by repeat constructor|apply c_str_is_no_nul]. }
  { rewrite length_app. cbn [length B list_ascii_of_string]. lia. }
  destruct (rsp_of_tlvs (op_byte OP_C) zero lines) as (b & Hadd & Hop & _ & _ & Hcur & Hsend).
  { subst lines. unfold tlvs_size. cbn [fmap list_fmap sum_list sum_list_with].
    unfold tlv_size, id. cbn [snd]. rewrite !length_app. cbn [length B list_ascii_of_string].
    unfold RSP_MAX, RSP_HDR_SZ, TLV_HDR_SZ. lia. }
  revert Hadd Hop Hcur Hsend. unfold proto_rsp_init. cbv beta iota zeta. cbn [fst snd].
  intros Hadd Hop Hcur Hsend. apply four_adds in Hadd. rewrite Hadd.
  eexists. split; [reflexivity|]. by split_and!.
Qed.

Lemma get_after_add s doc :
  Z.of_nat (length s) < 2147483647 →
  (stg_add_doc s doc).1 = Z.of_nat (length s) ∧
  (stg_add_doc s doc).2 = s ++ [with_key doc (Z.of_nat (length s))] ∧
  stg_get_doc (stg_add_doc s doc).2 (Z.of_nat (length s))
  = Some (with_key doc (Z.of_nat (length s))).
Proof.
  intros Hlen. unfold stg_add_doc. cbn [fst snd].
  rewrite end_off_slots, to_int32_small by lia. split_and!; [done..|].
  apply stg_get_doc_Some. split_and!; [lia| |done].
  rewrite Nat2Z.id. by rewrite list_lookup_middle.
Qed.

(** X21 (handle_a, handle_c): while the slot count fits the key, an Add of
    a title, authors, a year and a path appends one record, assigns the
    number of slots as the key and replies "Document <key> indexed"; a
    Consult of that key then replies with the four lines "Title: ",
    "Authors: ", "Year: " and "Path: " that show the arguments, each
    string cut at its first NUL and at 199, 199 and 63 bytes. *)
Theorem indexed_document_is_consulted
        (e : env) (s : store) (t a : list ascii) (y : Z) (p : list ascii) :
  Z.of_nat (length s) < 2147483647 → 0 ≤ y < 4294967296 →
  let k := Z.of_nat (length s) in
  let lines := [(ARG_STR, B "Title: " ++ c_str (take 199 t));
                (ARG_STR, B "Authors: " ++ c_str (take 199 a));
                (ARG_STR, B "Year: " ++ fmt_d y);
                (ARG_STR, B "Path: " ++ c_str (take 63 p))] in
  ∃ s' rsp,
    handle_a e s [STR t; STR a; U32 y; STR p]
    = (Returned OS_OK
         (proto_build_simple_rsp (op_byte OP_A)
            (Some ((B "Document " ++ fmt_d k ++ B " indexed") ++ [NUL]))), s') ∧
    length s' = S (length s) ∧
    handle_c e s' [U32 k] = (Returned OS_OK rsp, s') ∧
    rsp_opcode (rsp_hdr rsp) = op_byte OP_C ∧
    cursor_all (proto_cursor_init (rsp_payload rsp) (rsp_len (rsp_hdr rsp) - RSP_HDR_SZ))
    = Some (lines, OS_OK) ∧
    proto_send_rsp rsp
    = u16_le (RSP_HDR_SZ + tlvs_size lines) ++ [op_byte OP_C; zero] ++ tlvs_wire lines.
Proof.
  intros Hlen Hy k lines.
  set (doc := {| key := 0;
                 title := copy_field t MAX_TITLE_LEN;
                 authors := copy_field a MAX_AUTHORS_LEN;
                 year := y;
                 path := copy_field p MAX_PATH_LEN |}).
  destruct (get_after_add s doc Hlen) as (Hk & Hs' & Hget). fold k in Hk, Hs', Hget.
  exists (stg_add_doc s doc).2.
  destruct (handle_c_found e (stg_add_doc s doc).2 k (with_key doc k))
    as (rsp & Hc & Hop & Hcur & Hsend).
  { rewrite to_int32_small by lia. exact Hget. }
  { cbn [with_key title doc]. rewrite copy_field_take by (unfold MAX_TITLE_LEN; lia).
    rewrite c_str_app_nul. etrans; [apply c_str_length|]. rewrite length_take.
    unfold MAX_TITLE_LEN. lia. }
  { cbn [with_key authors doc]. rewrite copy_field_take by (unfold MAX_AUTHORS_LEN; lia).
    rewrite c_str_app_nul. etrans; [apply c_str_length|]. rewrite length_take.
    unfold MAX_AUTHORS_LEN. lia. }
  { cbn [with_key path doc]. rewrite copy_field_take by (unfold MAX_PATH_LEN; lia).
    rewrite c_str_app_nul. etrans; [apply c_str_length|]. rewrite length_take.
    unfold MAX_PATH_LEN. lia. }
  { done. }
  cbn [with_key title authors path year doc] in Hcur, Hsend.
  rewrite !copy_field_take in Hcur, Hsend by (unfold MAX_TITLE_LEN, MAX_AUTHORS_LEN, MAX_PATH_LEN; lia).
  rewrite !c_str_app_nul in Hcur, Hsend.
  exists rsp. split_and!; [|by rewrite Hs', length_app, Nat.add_1_r|done..].
  unfold handle_a. cbn [lookup_total list_lookup_total v_str v_u32]. fold doc.
  destruct (stg_add_doc s doc) as [k0 s0] eqn:Hadd. cbn [fst snd] in Hk. subst k0.
  destruct (decide (k = status_code OS_ERROR)) as [Hbad|_].
  { cbn [status_code] in Hbad. lia. }
  destruct (snprintf_fits 64 (B "Document " ++ fmt_d k ++ B " indexed")) as [-> _]; [| |done].
  - repeat apply no_nul_app; [by repeat constructor|apply fmt_d_no_nul|by repeat constructor].
  - pose proof (fmt_d_length k ltac:(lia)).
    rewrite !length_app. cbn [length B list_ascii_of_string]. lia.
Qed.

Lemma indexed_document_is_consulted_witness :
  let lines := [(ARG_STR, B "Title: " ++ c_str (take 199 (B "T")));
                (ARG_STR, B "Authors: " ++ c_str (take 199 (B "A")));
                (ARG_STR, B "Year: " ++ fmt_d 2020);
                (ARG_STR, B "Path: " ++ c_str (take 63 (B "f.txt")))] in
  ∃ s' rsp,
    handle_a (env_f_txt []) store_T [STR (B "T"); STR (B "A"); U32 2020; STR (B "f.txt")]
    = (Returned OS_OK
         (proto_build_simple_rsp (op_byte OP_A)
            (Some ((B "Document " ++ fmt_d (Z.of_nat (length store_T)) ++ B " indexed")
                   ++ [NUL]))), s') ∧
    length s' = S (length store_T) ∧
    handle_c (env_f_txt []) s' [U32 (Z.of_nat (length store_T))] = (Returned OS_OK rsp, s') ∧
    rsp_opcode (rsp_hdr rsp) = op_byte OP_C ∧
    cursor_all (proto_cursor_init (rsp_payload rsp) (rsp_len (rsp_hdr rsp) - RSP_HDR_SZ))
    = Some (lines, OS_OK) ∧
    proto_send_rsp rsp
    = u16_le (RSP_HDR_SZ + tlvs_size lines) ++ [op_byte OP_C; zero] ++ tlvs_wire lines.
Proof.
  apply (indexed_document_is_consulted (env_f_txt []) store_T (B "T") (B "A") 2020 (B "f.txt")).
  - vm_compute. reflexivity.
  - lia.
Defined.

End Consult.

Section Delete.
Local Open Scope Z_scope.

Lemma del_found s k d :
  stg_get_doc s k = Some d →
  stg_del_doc s k = (OS_OK, <[Z.to_nat k := tomb]> s) ∧
  stg_get_doc (<[Z.to_nat k := tomb]> s) k = None ∧
  stg_del_doc (<[Z.to_nat k := tomb]> s) k = (OS_ERROR, <[Z.to_nat k := tomb]> s) ∧
  ∀ k', k' ≠ k → stg_get_doc (<[Z.to_nat k := tomb]> s) k' = stg_get_doc s k'.
Proof.
  intros Hget. apply stg_get_doc_Some in Hget as (Hk & Hrow & Hkey).
  assert (Hlt : (Z.to_nat k < length s)%nat) by (by eapply lookup_lt_Some).
  assert (Hend : end_off (<[Z.to_nat k:=tomb]> s) = end_off s).
  { unfold end_off. by rewrite length_insert. }
  assert (Hgone : stg_get_doc (<[Z.to_nat k := tomb]> s) k = None).
  { apply stg_get_doc_None. intros d' (_ & Hrow' & Hkey').
    rewrite list_lookup_insert_eq in Hrow' by done. apply (inj Some) in Hrow'. subst d'.
    unfold tomb in Hkey'. cbn [key] in Hkey'. lia. }
  split_and!; [|done| |].
  - unfold stg_del_doc. rewrite get_offset_slot.
    destruct (decide (k < 0)) as [|_]; [lia|].
    destruct (decide (end_off s < get_offset k + DOC_SZ)) as [Hover|_].
    { unfold end_off, get_offset, DOC_SZ in Hover. lia. }
    rewrite Hrow. by destruct (decide (key d ≠ k)).
  - unfold stg_del_doc. rewrite get_offset_slot, Hend.
    destruct (decide (k < 0)) as [|_]; [done|].
    destruct (decide (end_off s < get_offset k + DOC_SZ)) as [|_]; [done|].
    rewrite list_lookup_insert_eq by done.
    destruct (decide (key tomb ≠ k)) as [|Hno]; [done|].
    exfalso. apply Hno. cbn [key tomb]. lia.
  - intros k' Hne. unfold stg_get_doc. rewrite get_offset_slot, Hend.
    destruct (decide (k' < 0)) as [|Hk']; [done|].
    destruct (decide (end_off s < get_offset k' + DOC_SZ)) as [|_]; [done|].
    rewrite list_lookup_insert_ne by lia. done.
Qed.

(** X22 (handle_d, handle_c): a Delete of a key that holds a document
    replies "Index entry <key> deleted" and keeps the number of slots;
    afterwards a Consult of the key replies "Document not found", a second
    Delete replies "Index entry <key> not found" and changes nothing, and
    a Consult of any other key replies as before the Delete. *)
Theorem deleted_document_is_not_found (e : env) (s : store) (x : Z) (d : document_t) :
  stg_get_doc s (to_int32 x) = Some d →
  let k := to_int32 x in
  ∃ s',
    handle_d e s [U32 x]
    = (Returned OS_OK
         (proto_build_simple_rsp (op_byte OP_D)
            (Some ((B "Index entry " ++ fmt_d k ++ B " deleted") ++ [NUL]))), s') ∧
    length s' = length s ∧
    handle_c e s' [U32 x]
    = (Returned OS_OK
         (proto_build_simple_rsp (op_byte OP_C) (Some (B "Document not found" ++ [NUL]))),
       s') ∧
    handle_d e s' [U32 x]
    = (Returned OS_OK
         (proto_build_simple_rsp (op_byte OP_D)
            (Some ((B "Index entry " ++ fmt_d k ++ B " not found") ++ [NUL]))), s') ∧
    ∀ x', to_int32 x' ≠ k → (handle_c e s' [U32 x']).1 = (handle_c e s [U32 x']).1.
Proof.
  intros Hget k. fold k in Hget.
  destruct (del_found s k d Hget) as (Hdel & Hgone & Hdel2 & Hothers).
  pose proof Hget as Hk. apply stg_get_doc_Some in Hk as (Hk & _ & _).
  pose proof (to_int32_range x) as Hrange. fold k in Hrange.
  pose proof (fmt_d_length k ltac:(lia)) as Hdigits.
  exists (<[Z.to_nat k := tomb]> s). split_and!.
  - unfold handle_d. cbn [lookup_total list_lookup_total v_u32]. fold k. rewrite Hdel.
    destruct (decide (OS_OK = OS_OK)) as [_|]; [|done].
    destruct (snprintf_fits 64 (B "Index entry " ++ fmt_d k ++ B " deleted")) as [-> _];
      [| |done].
    + repeat apply no_nul_app; [by repeat constructor|apply fmt_d_no_nul|by repeat constructor].
    + rewrite !length_app. cbn [length B list_ascii_of_string]. lia.
  - by rewrite length_insert.
  - unfold handle_c. cbn [lookup_total list_lookup_total v_u32]. fold k. by rewrite Hgone.
  - unfold handle_d. cbn [lookup_total list_lookup_total v_u32]. fold k. rewrite Hdel2.
    destruct (decide (OS_ERROR = OS_OK)) as [|_]; [done|].
    destruct (snprintf_fits 64 (B "Index entry " ++ fmt_d k ++ B " not found")) as [-> _];
      [| |done].
    + repeat apply no_nul_app; [by repeat constructor|apply fmt_d_no_nul|by repeat constructor].
    + rewrite !length_app. cbn [length B list_ascii_of_string]. lia.
  - intros x' Hne. unfold handle_c. cbn [lookup_total list_lookup_total v_u32].
    rewrite (Hothers (to_int32 x') Hne).
    destruct (stg_get_doc s (to_int32 x')); [|done].
    unfold proto_rsp_init. cbv beta iota zeta. done.
Qed.

Lemma deleted_document_is_not_found_witness :
  ∃ s',
    handle_d (env_f_txt []) store_T [U32 0]
    = (Returned OS_OK
         (proto_build_simple_rsp (op_byte OP_D)
            (Some ((B "Index entry " ++ fmt_d (to_int32 0) ++ B " deleted") ++ [NUL]))), s') ∧
    length s' = length store_T ∧
    handle_c (env_f_txt []) s' [U32 0]
    = (Returned OS_OK
         (proto_build_simple_rsp (op_byte OP_C) (Some (B "Document not found" ++ [NUL]))),
       s') ∧
    handle_d (env_f_txt []) s' [U32 0]
    = (Returned OS_OK
         (proto_build_simple_rsp (op_byte OP_D)
            (Some ((B "Index entry " ++ fmt_d (to_int32 0) ++ B " not found") ++ [NUL]))),
       s') ∧
    ∀ x', to_int32 x' ≠ to_int32 0 →
          (handle_c (env_f_txt []) s' [U32 x']).1 = (handle_c (env_f_txt []) store_T [U32 x']).1.
Proof.
  apply (deleted_document_is_not_found (env_f_txt []) store_T 0 (with_key doc_T 0)).
  vm_compute. reflexivity.
Defined.

End Delete.

Section ServeLoop.
Import Cache.

Lemma other_request_keeps_cache e st q r :
  req_op q ≠ OP_S → serve_request e st q = Some r → cache (after r) = cache st.
Proof.
  intros Hop. unfold serve_request.
  destruct (cmd_by_opcode (req_op q)) as [cmd|]; [|by intros [= <-]].
  unfold cached_reply. destruct (decide (req_op q = OP_S)) as [|_]; [done|].
  unfold serve_miss. destruct (blocking cmd); cbn [negb].
  - destruct (dispatch_request e (docs st) q cmd) as [[rc rsp| |] s']; [| |done];
      by intros [= <-].
  - destruct (child_frame e (docs st) q cmd) as [pipe|]; [|done]. cbn [mbind option_bind].
    destruct (proto_recv_rsp pipe) as [rsp|]; [|by intros [= <-]].
    destruct (decide (req_op q = OP_S)) as [|_]; [done|]. by intros [= <-].
Qed.

Lemma other_requests_keep_cache e others : ∀ st st2 out down,
  Forall (λ q, req_op q ≠ OP_S) others →
  serve_requests e st others = Some (st2, out, down) → cache st2 = cache st.
Proof.
  induction others as [|q others IH]; intros st st2 out down Hall; cbn [serve_requests].
  { by intros [= <- _ _]. }
  apply Forall_cons in Hall as [Hq Hall].
  destruct (serve_request e st q) as [r|] eqn:Hr; [|done]. cbn [mbind option_bind].
  pose proof (other_request_keeps_cache e st q r Hq Hr) as Hc.
  destruct (shutdown r).
  - intros [= <- _ _]. done.
  - destruct (serve_requests e (after r) others) as [[[st' out'] down']|] eqn:Hrest; [|done].
    cbn [mbind option_bind]. intros [= <- _ _].
    rewrite (IH _ _ _ _ Hall Hrest). done.
Qed.

(** A search whose term is under a key of the cache is answered with the
    stored frame, without a look at the store or the files. *)
Lemma search_hit e st es req kw hit :
  lru_wf (cache st) es →
  req_op req = OP_S → proto_arg_first_str req 256 = (OS_OK, kw) →
  cached (cache st) (c_str kw) = Some hit →
  ∃ r, serve_request e st req = Some r ∧
       replies r = txp_reply (req_pid (req_hdr req)) (rsp_bytes hit) (rsp_len (rsp_hdr hit)) ∧
       docs (after r) = docs st ∧ shutdown r = false ∧
       (∀ k, cached (cache (after r)) k = cached (cache st) k) ∧
       ∃ es', lru_wf (cache (after r)) es'.
Proof.
  intros Hwf Hop Hkw Hhit.
  destruct (get_as_map (cache st) es kw Hwf) as [Hget Hsame]. rewrite Hhit in Hget.
  destruct (get_keeps_wf (cache st) es kw Hwf) as (es' & Hwf' & _).
  unfold serve_request. rewrite Hop.
  change (cmd_by_opcode OP_S) with (Some row_S). cbv beta iota.
  unfold cached_reply. rewrite Hop.
  destruct (decide (OP_S = OP_S)) as [_|]; [|done]. rewrite Hkw.
  destruct (cache_get (cache st) kw) as [[rc o] c] eqn:Hg. cbn [fst snd] in *.
  injection Hget as -> ->.
  eexists. split; [reflexivity|]. cbn [after replies shutdown docs cache].
  split_and!; try done. by exists es'.
Qed.

(** X23 (serve_requests, cache_put, cache_get): a search that was
    answered, with a first string argument of fewer than 256 bytes, leaves
    its reply frame in the cache (capacity above zero); after any further
    requests that are no searches, a search for the same term is answered
    with the very same frame, whatever the store and the files hold by
    then and whatever its other arguments are. *)
Theorem repeated_search_is_answered_from_the_cache
        (e e' : env) (n : nat) (ops : list op) (s : store)
        (req req2 : request_t) (kw kw2 : list ascii) (r1 : served)
        (others : list request_t) (st2 : server_t) (out : list (Z * list ascii))
        (down : bool) :
  0 < n →
  let st := {| docs := s; cache := (run (cache_init uninit n None).2 [] ops).1 |} in
  req_op req = OP_S → proto_arg_first_str req 256 = (OS_OK, kw) →
  serve_request e st req = Some r1 → replies r1 ≠ [] →
  Forall (λ q, req_op q ≠ OP_S) others →
  serve_requests e' (after r1) others = Some (st2, out, down) →
  req_op req2 = OP_S → proto_arg_first_str req2 256 = (OS_OK, kw2) →
  c_str kw2 = c_str kw →
  ∃ hit r2,
    replies r1 = txp_reply (req_pid (req_hdr req)) (rsp_bytes hit) (rsp_len (rsp_hdr hit)) ∧
    serve_request e' st2 req2 = Some r2 ∧
    replies r2 = txp_reply (req_pid (req_hdr req2)) (rsp_bytes hit) (rsp_len (rsp_hdr hit)) ∧
    docs (after r2) = docs st2 ∧ shutdown r2 = false.
Proof.
  intros Hn st Hop Hkw H1 Hans Hothers Hrun Hop2 Hkw2 Hsame.
  pose proof (run_inv n ops (cache_init uninit n None).2 [] Hn (init_inv n)) as Hinv.
  destruct Hinv as (es & Hwf & Hcap & _).
  assert (∃ hit es1,
             cached (cache (after r1)) (c_str kw) = Some hit ∧
             lru_wf (cache (after r1)) es1 ∧
             replies r1 = txp_reply (req_pid (req_hdr req)) (rsp_bytes hit)
                                    (rsp_len (rsp_hdr hit)))
    as (hit & es1 & Hhit & Hwf1 & Hr1).
  { destruct (cached (cache st) (c_str kw)) as [hit|] eqn:Hc.
    - destruct (search_hit e st es req kw hit Hwf Hop Hkw Hc)
        as (r & Hr & Hrep & _ & _ & Hkeep & es1 & Hwf1).
      rewrite H1 in Hr. injection Hr as <-.
      exists hit, es1. by rewrite Hkeep.
    - revert H1. unfold serve_request. rewrite Hop.
      change (cmd_by_opcode OP_S) with (Some row_S). cbv beta iota.
      unfold cached_reply. rewrite Hop.
      destruct (decide (OP_S = OP_S)) as [_|]; [|done]. rewrite Hkw.
      destruct (get_as_map (cache st) es kw Hwf) as [Hget _]. rewrite Hc in Hget.
      destruct (cache_get (cache st) kw) as [[rc o] c] eqn:Hg. cbn [fst snd] in Hget.
      injection Hget as -> ->.
      unfold serve_miss. change (blocking row_S) with false. cbn [negb].
      destruct (child_frame e (docs st) req row_S) as [pipe|]; [|done].
      cbn [mbind option_bind].
      destruct (proto_recv_rsp pipe) as [rsp|]; [|intros [= <-]; by destruct Hans].
      rewrite Hop. destruct (decide (OP_S = OP_S)) as [_|]; [|done]. rewrite Hkw.
      intros [= <-]. cbn [after replies cache].
      destruct (put_as_map (cache st) es kw rsp Hwf ltac:(cbn [cache st]; lia)) as [Hput _].
      destruct (put_keeps_wf (cache st) es kw rsp Hwf ltac:(cbn [cache st]; lia))
        as (es1 & Hwf1 & _).
      by exists rsp, es1. }
  pose proof (other_requests_keep_cache e' others _ _ _ _ Hothers Hrun) as Hcache.
  rewrite <- Hcache, <- Hsame in *.
  destruct (search_hit e' st2 es1 req2 kw2 hit Hwf1 Hop2 Hkw2 Hhit)
    as (r2 & Hr2 & Hrep2 & Hdocs & Hdown & _).
  by exists hit, r2.
Qed.

End ServeLoop.

Section SessionExample.
Import Cache.

Lemma some_default {A} (x : option A) (d : A) :
  bool_decide (is_Some x) = true → x = Some (default d x).
Proof. intros H. apply bool_decide_eq_true in H as [y ->]. done. Qed.

Lemma repeated_search_is_answered_from_the_cache_witness :
  ∃ hit r2,
    replies first_served
    = txp_reply (req_pid (req_hdr search_1)) (rsp_bytes hit) (rsp_len (rsp_hdr hit)) ∧
    serve_request (env_f_txt []) then_served.1.1 search_2 = Some r2 ∧
    replies r2
    = txp_reply (req_pid (req_hdr search_2)) (rsp_bytes hit) (rsp_len (rsp_hdr hit)) ∧
    docs (after r2) = docs then_served.1.1 ∧ shutdown r2 = false.
Proof.
  apply (repeated_search_is_answered_from_the_cache
           banana_env (env_f_txt []) 2 [] store_T search_1 search_2
           (B "banana" ++ [NUL]) (B "banana" ++ [NUL]) first_served [delete_0]
           then_served.1.1 then_served.1.2 then_served.2).
  - lia.
  - vm_compute. reflexivity.
  - vm_compute. reflexivity.
  - apply (some_default _ idle). vm_compute. reflexivity.
  - intros H. vm_compute in H. discriminate H.
  - apply Forall_cons. split; [|constructor]. intros H. vm_compute in H. discriminate H.
  - rewrite <- !surjective_pairing.
    apply (some_default _ (server_T 2, [], false)). vm_compute. reflexivity.
  - vm_compute. reflexivity.
  - vm_compute. reflexivity.
  - reflexivity.
Defined.

End SessionExample.

Section Finish.

Lemma finish_request e st f :
  req_op f = OP_F →
  serve_request e st f
  = Some {| after := st;
            replies := if decide (0 < req_pid (req_hdr f))%Z
                       then [(req_pid (req_hdr f), wire_frame (op_byte OP_F) bye)] else [];
            shutdown := true |}.
Proof.
  intros Hop. unfold serve_request. rewrite Hop.
  change (cmd_by_opcode OP_F) with (Some (CMD_ROW "-f" 0 OP_F true [])). cbv beta iota.
  unfold cached_reply. rewrite Hop.
  destruct (decide (OP_F = OP_S)) as [|_]; [done|].
  unfold serve_miss, dispatch_request, dismantle_request.
  cbn [blocking CMD_ROW negb argc_max length replicate dismantle_loop opcode].
  change (handlers !! OP_F) with (Some handle_f). cbv beta iota. unfold handle_f.
  destruct (simple_rsp_text (op_byte OP_F) bye) as (_ & _ & Hlen & _ & Hsend).
  { by repeat constructor. }
  { unfold RSP_MAX, RSP_HDR_SZ, TLV_HDR_SZ. cbn [length bye B list_ascii_of_string]. lia. }
  fold bye. destruct st as [s c]. cbn [docs cache].
  rewrite bool_decide_eq_true_2 by done.
  cut (txp_reply (req_pid (req_hdr f))
         (rsp_bytes (proto_build_simple_rsp (op_byte OP_F) (Some (bye ++ [NUL]))))
         (rsp_len (rsp_hdr (proto_build_simple_rsp (op_byte OP_F) (Some (bye ++ [NUL])))))
       = if decide (0 < req_pid (req_hdr f))%Z
         then [(req_pid (req_hdr f), wire_frame (op_byte OP_F) bye)] else []).
  { by intros ->. }
  unfold txp_reply, wire_frame, proto_send_rsp. rewrite Hlen.
  destruct (decide (0 < req_pid (req_hdr f))%Z) as [Hpid|Hpid].
  - destruct (decide _) as [[Hz|[Hbig|Hp]]|_]; [| |lia|done].
    + unfold RSP_HDR_SZ in Hz. lia.
    + unfold TXP_MAX, RSP_MAX, RSP_HDR_SZ, TLV_HDR_SZ in Hbig.
      cbn [length bye B list_ascii_of_string] in Hbig. lia.
  - destruct (decide _) as [_|Hno]; [done|]. exfalso. apply Hno. right. right. lia.
Qed.

Lemma serve_requests_app e pre : ∀ st post,
  serve_requests e st (pre ++ post)
  = match serve_requests e st pre with
    | Some (st1, out, false) =>
        '(st2, out2, down) ← serve_requests e st1 post; Some (st2, out ++ out2, down)
    | other => other
    end.
Proof.
  induction pre as [|q pre IH]; intros st post; cbn [app serve_requests].
  { destruct (serve_requests e st post) as [[[st2 out2] down]|]; done. }
  destruct (serve_request e st q) as [r|]; [|done]. cbn [mbind option_bind].
  destruct (shutdown r); [done|]. rewrite IH.
  destruct (serve_requests e (after r) pre) as [[[st1 out] []]|]; try done.
  cbn [mbind option_bind].
  destruct (serve_requests e st1 post) as [[[st2 out2] down]|]; [|done].
  cbn [mbind option_bind]. by rewrite app_assoc.
Qed.

(** X24 (serve_requests, dispatch_request, handle_f): a request with the
    opcode of Finish shuts the loop down whatever its payload and its
    length field say: its TLVs are never read.  The store and the cache
    stay as they were, the frame "Server is shutting down" goes to the
    requester when its pid is above zero, and the requests behind it are
    not served. *)
Theorem finish_shuts_down_whatever_its_payload
        (e : env) (st : server_t) (pre post : list request_t) (f : request_t)
        (st1 : server_t) (out : list (Z * list ascii)) :
  req_op f = OP_F →
  serve_requests e st pre = Some (st1, out, false) →
  serve_requests e st (pre ++ f :: post)
  = Some (st1,
          out ++ (if decide (0 < req_pid (req_hdr f))%Z
                  then [(req_pid (req_hdr f), wire_frame (op_byte OP_F) bye)] else []),
          true).
Proof.
  intros Hop Hpre. rewrite serve_requests_app, Hpre. cbn [serve_requests].
  rewrite (finish_request e st1 f Hop). cbn [mbind option_bind shutdown after replies].
  done.
Qed.

Lemma finish_shuts_down_whatever_its_payload_witness :
  serve_requests banana_env (server_T 2) ([] ++ finish_junk :: [search_1])
  = Some (server_T 2,
          [] ++ (if decide (0 < req_pid (req_hdr finish_junk))%Z
                 then [(req_pid (req_hdr finish_junk), wire_frame (op_byte OP_F) bye)]
                 else []),
          true).
Proof.
  apply (finish_shuts_down_whatever_its_payload banana_env (server_T 2) [] [search_1]
           finish_junk (server_T 2) []).
  - vm_compute. reflexivity.
  - reflexivity.
Defined.

End Finish.

Section Lines.

Lemma copy_kw_fits term : length term < 256 → copy_kw term = term ++ [NUL].
Proof.
  intros Hlen. unfold copy_kw. destruct (decide (256 ≤ length term)); [lia|].
  by rewrite take_ge by lia.
Qed.

(** X25 (handle_l, doc_build_path, doc_count_keyword): for a live
    document whose file under the document root is made of whole lines, a
    Lines request with a term of fewer than 256 bytes, non-empty, without
    a newline and whose first byte occurs nowhere else in it, is answered
    with one 32-bit TLV that holds the number of lines holding the term;
    the store is not changed. *)
Theorem lines_reply_counts_the_lines
        (e : env) (s : store) (x : Z) (term : list ascii)
        (doc : document_t) (root : list ascii) (lines : list (list ascii)) :
  stg_get_doc s (to_int32 x) = Some doc →
  docroot_get e = Some root →
  length (root ++ B "/" ++ c_str (path doc)) < PATH_MAX →
  files e (root ++ B "/" ++ c_str (path doc)) = Some (terminated lines) →
  Forall (λ l, nl ∉ l) lines →
  length term < 256 →
  c_str term ≠ [] → nl ∉ c_str term → first_byte_unique (c_str term) →
  ∃ n rsp,
    counts (c_str term) lines n ∧
    handle_l e s [U32 x; STR term] = (Returned OS_OK rsp, s) ∧
    rsp_opcode (rsp_hdr rsp) = op_byte OP_L ∧
    cursor_all (proto_cursor_init (rsp_payload rsp) (rsp_len (rsp_hdr rsp) - RSP_HDR_SZ))
    = Some ([(ARG_U32, u32_le (to_uint32 (Z.of_nat n)))], OS_OK).
Proof.
  intros Hdoc Hroot Hpath Hfile Hlines Hlen Hne Hnonl Huniq.
  set (kw := copy_kw term).
  assert (Hkw : c_str kw = c_str term).
  { unfold kw. rewrite copy_kw_fits by done. apply c_str_app_nul. }
  rewrite <- Hkw in Hne, Hnonl, Huniq |- *.
  assert (Hterm : length (c_str kw) = strlen kw) by apply term_length.
  assert (Hpos : 0 < strlen kw).
  { destruct (c_str kw); [done|]. cbn in Hterm. lia. }
  assert (Hcount : ∃ n, doc_count_keyword e (root ++ B "/" ++ c_str (path doc)) kw false
                        = (OS_OK, n) ∧ counts (c_str kw) lines n).
  { unfold doc_count_keyword. rewrite Hfile.
    destruct (decide (strlen kw = 0)) as [|_]; [lia|].
    rewrite read_loop_scan_buf by lia.
    destruct (scan_lines kw Huniq Hnonl lines
                {| match_ := 0; matched_line := false; out := 0 |})
      as (st & n & -> & Hm & Hml & Hn & Hout); [done..|].
    exists n. rewrite Hm. destruct (decide (0 < 0)) as [|_]; [lia|].
    cbn [out] in Hout. by rewrite Hout. }
  destruct Hcount as (n & Hcount & Hn).
  destruct (rsp_of_tlvs (op_byte OP_L) zero [(ARG_U32, u32_le (to_uint32 (Z.of_nat n)))])
    as (b & Hadd & Hop & _ & _ & Hcur & _).
  { rewrite tlvs_size_single. unfold RSP_MAX, RSP_HDR_SZ, TLV_HDR_SZ. cbn [length u32_le]. lia. }
  exists n. eexists. split; [exact Hn|].
  unfold handle_l. cbn [lookup_total list_lookup_total v_u32 v_str]. fold kw.
  rewrite Hdoc. unfold doc_build_path. rewrite Hroot, Hdoc.
  destruct (decide (PATH_MAX = 0)) as [|_]; [done|].
  destruct (decide (key doc = (-1)%Z)) as [Htomb|_].
  { apply stg_get_doc_Some in Hdoc as (Hk & _ & Hkey). lia. }
  destruct (decide (PATH_MAX ≤ length (root ++ B "/" ++ c_str (path doc)))) as [|_]; [lia|].
  rewrite Hcount.
  revert Hadd Hop Hcur. unfold proto_rsp_init. cbv beta iota zeta. cbn [fst snd add_tlvs].
  destruct (proto_add_tlv _ ARG_U32 _) as [[] b1]; try done. intros [= ->] Hop Hcur.
  cbn [snd]. split; [reflexivity|]. by split.
Qed.

Lemma lines_reply_counts_the_lines_witness :
  ∃ n rsp,
    counts (c_str (B "pl")) [B "an apple"; B "a pear"; B "apples"] n ∧
    handle_l (env_f_txt (terminated [B "an apple"; B "a pear"; B "apples"])) store_T
      [U32 0; STR (B "pl")] = (Returned OS_OK rsp, store_T) ∧
    rsp_opcode (rsp_hdr rsp) = op_byte OP_L ∧
    cursor_all (proto_cursor_init (rsp_payload rsp) (rsp_len (rsp_hdr rsp) - RSP_HDR_SZ))
    = Some ([(ARG_U32, u32_le (to_uint32 (Z.of_nat n)))], OS_OK).
Proof.
  apply (lines_reply_counts_the_lines
           (env_f_txt (terminated [B "an apple"; B "a pear"; B "apples"])) store_T 0
           (B "pl") (with_key doc_T 0) (B "docs") [B "an apple"; B "a pear"; B "apples"]).
  - vm_compute. reflexivity.
  - vm_compute. reflexivity.
  - vm_compute. lia.
  - vm_compute. reflexivity.
  - repeat (apply Forall_cons; split; [not_in_text|]). apply Forall_nil_2.
  - vm_compute. lia.
  - vm_compute. discriminate.
  - not_in_text.
  - intros i Hi Hlt. assert (i = 1) as -> by (vm_compute in Hlt; lia).
    vm_compute. discriminate.
Defined.

End Lines.
